(** * uwp: overlap selection, cascade union and merge, over a shallow embedding

    The development follows [src/update.cpp] (selection, cascade union,
    merge), [include/uwp/parallel_for.hpp] (the chunk executor) and
    [include/uwp/mutex_protected_set.hpp] (the pointer set shared by the
    selection workers).

    Conventions.
    - [size_t] values are [nat]: the only arithmetic the sources do on
      them is [size / num_threads], [size % num_threads] and the running
      [start + shift + 1], which stays below [size] ([launch_end_le]), so
      no wrap-around can occur.
    - A [const Polygon *] is a [Ptr]; the polygon it points to is read
      with [deref].  Boost.Geometry's predicates and set operations are
      section variables.
    - Threads are interleaved one atomic step at a time by an explicit
      schedule (the list of thread numbers in the order they move). *)

From Equations Require Import Equations.
From Equations.Prop Require Import Logic.
From stdpp Require Import base numbers list sets gmap.
From Stdlib Require Import QArith Lqa.

Local Open Scope nat_scope.

Set Warnings "-clear-no-such-hyp".

(** ** parallel_for: how the index range is cut *)

Module ParallelFor.

(** The launch loop ([for (size_t ix = 0; ix < num_threads; ++ix)]): the
    pair [(start, end)] handed to each thread, in launch order.  [count]
    is the number of iterations still to run. *)
Fixpoint launch (count ix start shift remainder : nat) : list (nat * nat) :=
  match count with
  | 0 => []
  | S count' =>
      let end_ := start + shift + (if ix <? remainder then 1 else 0) in
      (start, end_) :: launch count' (S ix) end_ shift remainder
  end.

(** What [parallel_for] decides to do before any worker runs. *)
Inductive plan : Type :=
  | Direct (size : nat)                (* [worker(0, size); return;] *)
  | Spawn (ranges : list (nat * nat))  (* one [std::thread] per range *)
  | DivideByZero.                      (* [size / num_threads] with 0 threads *)

(** [hw] is the value of [std::thread::hardware_concurrency()]. *)
Definition schedule_plan (hw size num_threads min_size : nat) : plan :=
  let num_threads := if num_threads =? 0 then hw else num_threads in
  if (num_threads =? 1) || (size <=? min_size) then Direct size
  else if num_threads =? 0 then DivideByZero
  else Spawn (launch num_threads 0 0 (size / num_threads) (size mod num_threads)).

(** The indices a range [(start, end)] stands for. *)
Definition indices (r : nat * nat) : list nat := seq r.1 (r.2 - r.1).

Definition ranges_of (p : plan) : option (list (nat * nat)) :=
  match p with
  | Direct size => Some [(0, size)]
  | Spawn ranges => Some ranges
  | DivideByZero => None
  end.

End ParallelFor.

(** ** parallel_for: running the workers *)

Module Executor.
Import ParallelFor.

Section Machine.
(** [Sh]: the state the workers share (what the lambda captures by
    reference); [L]: the control point and locals of one worker call;
    [E]: exception values. *)
Context {Sh L E : Type}.

(** Where a call [worker(start, end)] stands after one of its steps.
    [Undefined] is a step C++ gives no meaning to (an index past the
    end of a vector). *)
Inductive status : Type :=
  | Running (l : L)
  | Returned
  | Raised (e : E)
  | Undefined.

(** [enter i0 i1] is the entry of [worker(i0, i1)]; [wstep] performs one
    atomic step of it on the shared state. *)
Variable enter : nat → nat → L.
Variable wstep : L → Sh → status * Sh.

(** A thread body: [try { worker(start, end); } catch (...) { exception =
    std::current_exception(); }].  [Finished r] remembers what the
    worker call raised, if anything. *)
Inductive thread : Type :=
  | Work (l : L)
  | Catch (e : E)
  | Finished (r : option E)
  | Broken.

Record state : Type := State {
  shared : Sh;
  exception : option E;       (* [std::exception_ptr exception = nullptr] *)
  threads : list thread
}.

Definition after (st : status) : thread :=
  match st with
  | Running l => Work l
  | Returned => Finished None
  | Raised e => Catch e
  | Undefined => Broken
  end.

(** Thread [i] moves by one step; a finished, broken or absent thread
    does not move. *)
Definition step (i : nat) (c : state) : state :=
  match threads c !! i with
  | Some (Work l) =>
      let '(st, sh) := wstep l (shared c) in
      State sh (exception c) (<[i := after st]> (threads c))
  | Some (Catch e) =>
      State (shared c) (Some e) (<[i := Finished (Some e)]> (threads c))
  | _ => c
  end.

Definition exec (sched : list nat) (c : state) : state :=
  foldl (λ c i, step i c) c sched.

Definition is_finished (t : thread) : bool :=
  match t with Finished _ => true | _ => false end.

(** All threads joined. *)
Definition joined (c : state) : bool := forallb is_finished (threads c).

Definition spawn (sh : Sh) (ranges : list (nat * nat)) : state :=
  State sh None (map (λ r, Work (enter r.1 r.2)) ranges).

(** How [parallel_for] ends: a normal return, or
    [std::rethrow_exception(exception)]. *)
Inductive outcome : Type :=
  | Return
  | Rethrow (e : E).

Definition outcome_of (c : state) : outcome :=
  match exception c with
  | Some e => Rethrow e
  | None => Return
  end.

(** [parallel_for(worker, size, num_threads, min_size)] under the
    schedule [sched].  In the direct case the only worker call runs in
    the caller, and what it raises leaves [parallel_for] as it is; the
    model keeps it in the same slot.  The result is [None] when the
    thread count is zero where it is divided by, when a worker took an
    undefined step, and when [sched] ends before every thread has
    finished. *)
Definition parallel_for_state (hw : nat) (sh : Sh) (size num_threads min_size : nat)
    (sched : list nat) : option state :=
  ranges ← ranges_of (schedule_plan hw size num_threads min_size);
  let c := exec sched (spawn sh ranges) in
  if joined c then Some c else None.

Definition parallel_for (hw : nat) (sh : Sh) (size num_threads min_size : nat)
    (sched : list nat) : option (outcome * Sh) :=
  c ← parallel_for_state hw sh size num_threads min_size sched;
  Some (outcome_of c, shared c).

(** Running one thread after the other, [fuel] steps each. *)
Definition in_turn (fuel count : nat) : list nat :=
  concat (map (replicate fuel) (seq 0 count)).

End Machine.

Arguments status : clear implicits.
Arguments thread : clear implicits.
Arguments state : clear implicits.
Arguments outcome : clear implicits.

End Executor.

(** ** cascade_union *)

Module Cascade.

Section CascadeUnion.
(** [Polygon] is [bg::model::polygon<Point>]; a [MultiPolygon] is a
    vector of polygons.  [area] is [bg::area] on multi-polygons (a
    finite double, read as a rational) and [multi_polygon_union] is
    [bg::union_] into an empty output. *)
Context {Polygon : Type}.
Abbreviation MultiPolygon := (list Polygon).
Variable area : MultiPolygon → Q.
Variable multi_polygon_union : MultiPolygon → MultiPolygon → MultiPolygon.

(** [struct CompareArea]: [bg::area(a) > bg::area(b)]. *)
Definition CompareArea (a b : MultiPolygon) : bool :=
  negb (Qle_bool (area a) (area b)).

(** [std::priority_queue<MultiPolygon, std::vector<MultiPolygon>,
    CompareArea>], by its contract: [top] is an element that
    [CompareArea] puts after no other one, [pop] removes it.  Which of
    several elements of equal area is on top is left to the
    implementation.  [pq_top] is [None] on an empty queue, where the
    C++ call is undefined. *)
Class PriorityQueue : Type := {
  pq : Type;
  pq_empty : pq;
  pq_push : MultiPolygon → pq → pq;
  pq_top : pq → option MultiPolygon;
  pq_pop : pq → pq;
  pq_size : pq → nat;
  pq_elems : pq → list MultiPolygon;
  pq_empty_elems : pq_elems pq_empty = [];
  pq_push_elems x q : pq_elems (pq_push x q) ≡ₚ x :: pq_elems q;
  pq_size_elems q : pq_size q = length (pq_elems q);
  pq_top_None q : pq_top q = None → pq_elems q = [];
  pq_top_pop q x : pq_top q = Some x → pq_elems q ≡ₚ x :: pq_elems (pq_pop q);
  pq_top_first q x y : pq_top q = Some x → y ∈ pq_elems q → CompareArea x y = false
}.

Context `{PQ : PriorityQueue}.

Lemma pq_size_push x q : pq_size (pq_push x q) = S (pq_size q).
Proof. by rewrite !pq_size_elems, pq_push_elems. Qed.

Lemma pq_size_pop q x : pq_top q = Some x → pq_size q = S (pq_size (pq_pop q)).
Proof. intros Hx. by rewrite !pq_size_elems, (pq_top_pop q x Hx). Qed.

Lemma pq_top_is_Some q : 0 < pq_size q → is_Some (pq_top q).
Proof.
  intros Hq. destruct (pq_top q) as [x|] eqn:Hx; [by eexists|].
  apply pq_top_None in Hx. rewrite pq_size_elems, Hx in Hq. simpl in Hq; lia.
Qed.

(** The [while (polygon_queue.size() > 1)] loop.  [log] collects the
    calls to [multi_polygon_union], in order.  Under the guard both
    calls to [top] find an element ([cascade_pops]); the two [None]
    branches stand for the undefined calls and are never taken. *)
Equations? cascade_loop (q : pq) (log : list (MultiPolygon * MultiPolygon))
    : pq * list (MultiPolygon * MultiPolygon) by wf (pq_size q) lt :=
  cascade_loop q log with inspect (1 <? pq_size q) := {
    | exist _ false _ => (q, log)
    | exist _ true Hguard with inspect (pq_top q) := {
      | exist _ None _ => (q, log)
      | exist _ (Some mpoly1) H1 with inspect (pq_top (pq_pop q)) := {
        | exist _ None _ => (q, log)
        | exist _ (Some mpoly2) H2 =>
            cascade_loop
              (pq_push (multi_polygon_union mpoly1 mpoly2) (pq_pop (pq_pop q)))
              (log ++ [(mpoly1, mpoly2)]) } } }.
Proof.
  rewrite pq_size_push, (pq_size_pop q mpoly1 H1), (pq_size_pop _ mpoly2 H2). lia.
Qed.

(** [cascade_union], together with the unions it performed. *)
Definition cascade_union_traced (polygons : list Polygon)
    : list Polygon * list (MultiPolygon * MultiPolygon) :=
  match polygons with
  | [] => ([], [])
  | _ =>
      let polygon_queue := foldl (λ q item, pq_push [item] q) pq_empty polygons in
      let '(q, log) := cascade_loop polygon_queue [] in
      (default [] (pq_top q), log)
  end.

Definition cascade_union (polygons : list Polygon) : list Polygon :=
  (cascade_union_traced polygons).1.

(** The cascade as the specification words it: as long as more than one
    element is left, two elements of smallest area are taken out and
    their union is put back; the last element is the result.  The
    first index is the multiset of queued elements, the second the
    unions made. *)
Inductive smallest_first
    : list MultiPolygon → list (MultiPolygon * MultiPolygon) → MultiPolygon → Prop :=
  | smallest_first_last m : smallest_first [m] [] m
  | smallest_first_union ms a b rest log r :
      ms ≡ₚ a :: b :: rest →
      (∀ y, y ∈ ms → (area a <= area y)%Q) →
      (∀ y, y ∈ b :: rest → (area b <= area y)%Q) →
      smallest_first (multi_polygon_union a b :: rest) log r →
      smallest_first ms ((a, b) :: log) r.

End CascadeUnion.

End Cascade.

(** A priority queue that satisfies the contract: an unordered list,
    searched for a smallest element on [top] and [pop]. *)
Module ListQueue.
Import Cascade.

Section ListQueue.
Context {Polygon : Type}.
Abbreviation MultiPolygon := (list Polygon).
Variable area : MultiPolygon → Q.

(** A smallest element (the first one among equals) and the others. *)
Fixpoint extract_min (l : list MultiPolygon) : option (MultiPolygon * list MultiPolygon) :=
  match l with
  | [] => None
  | x :: l' =>
      match extract_min l' with
      | None => Some (x, [])
      | Some (y, r) =>
          if Qle_bool (area x) (area y) then Some (x, l') else Some (y, x :: r)
      end
  end.

Lemma extract_min_None l : extract_min l = None → l = [].
Proof.
  destruct l as [|x l]; [done|]. simpl.
  destruct (extract_min l) as [[y r]|]; [|done].
  by destruct (Qle_bool (area x) (area y)).
Qed.

Lemma extract_min_Some l m r :
  extract_min l = Some (m, r) →
  l ≡ₚ m :: r ∧ ∀ y, y ∈ l → (area m <= area y)%Q.
Proof.
  revert m r; induction l as [|x l IH]; intros m r; [done|]. simpl.
  destruct (extract_min l) as [[y r']|] eqn:Hl.
  - destruct (IH y r' eq_refl) as [Hperm Hmin].
    destruct (Qle_bool (area x) (area y)) eqn:Hxy; intros [= <- <-].
    + apply Qle_bool_iff in Hxy. split; [done|].
      intros z [->|Hz]%elem_of_cons; [apply Qle_refl|].
      eapply Qle_trans; [exact Hxy|by apply Hmin].
    + assert (area y < area x)%Q as Hlt.
      { apply Qnot_le_lt. intros Hle%Qle_bool_iff. congruence. }
      split; [by rewrite Hperm, Permutation_swap|].
      intros z [->|Hz]%elem_of_cons; [by apply Qlt_le_weak|by apply Hmin].
  - intros [= <- <-]. apply extract_min_None in Hl as ->. split; [done|].
    intros z ->%list_elem_of_singleton. apply Qle_refl.
Qed.

#[export, refine] Instance list_queue : PriorityQueue area := {|
  pq := list MultiPolygon;
  pq_empty := [];
  pq_push x q := x :: q;
  pq_top q := fst <$> extract_min q;
  pq_pop q := match extract_min q with Some (_, r) => r | None => [] end;
  pq_size q := length q;
  pq_elems q := q
|}.
Proof.
  - done.
  - done.
  - done.
  - intros q Hq. apply extract_min_None.
    by destruct (extract_min q).
  - intros q x Hx. destruct (extract_min q) as [[m r]|] eqn:Hq; [|done].
    injection Hx as ->. by apply extract_min_Some.
  - intros q x y Hx Hy. destruct (extract_min q) as [[m r]|] eqn:Hq; [|done].
    injection Hx as ->. apply extract_min_Some in Hq as [_ Hmin].
    unfold CompareArea. apply negb_false_iff, Qle_bool_iff. by apply Hmin.
Defined.

End ListQueue.
End ListQueue.

(** ** merge_overlapping *)

Module Merge.
Import ParallelFor Executor Cascade.

Section Merge.
Context {Polygon : Type}.
Abbreviation MultiPolygon := (list Polygon).
Variable area : MultiPolygon → Q.
Variable multi_polygon_union : MultiPolygon → MultiPolygon → MultiPolygon.
Context `{PQ : !PriorityQueue area}.

(** [bg::union_(a, b, out)] on two polygons, [out] empty before. *)
Variable polygon_union : Polygon → Polygon → list Polygon.

(** [std::pair<size_t, std::vector<Polygon>>]. *)
Abbreviation OverlapRecord := (nat * list Polygon)%type.

(** [merge_overlapping(overlap, i0, i1)]: the loop over [ix], with
    [count] iterations left.  [overlap[ix]] past the end is undefined
    ([None]). *)
Fixpoint merge_loop (count ix : nat) (overlap result : list OverlapRecord)
    : option (list OverlapRecord) :=
  match count with
  | 0 => Some result
  | S count' =>
      item ← overlap !! ix;
      match cascade_union area multi_polygon_union item.2 with
      | [] => merge_loop count' (S ix) overlap result
      | unioned => merge_loop count' (S ix) overlap (result ++ [(item.1, unioned)])
      end
  end.

Definition merge_overlapping_range (overlap : list OverlapRecord) (i0 i1 : nat)
    : option (list OverlapRecord) :=
  merge_loop (i1 - i0) i0 overlap [].

(** The body of [for (auto &&item : unioned_polygons)] in the worker:
    the state is [(water_polygons, extra_polygons)]. *)
Definition apply_item (st : list Polygon * list Polygon) (item : OverlapRecord)
    : option (list Polygon * list Polygon) :=
  let '(water_polygons, extra_polygons) := st in
  water_polygon ← water_polygons !! item.1;
  front ← head item.2;
  let '(water_polygons, extra_polygons) :=
    match polygon_union water_polygon front with
    | [] => (water_polygons, extra_polygons)
    | first :: others => (<[item.1 := first]> water_polygons, extra_polygons ++ others)
    end in
  Some (water_polygons, extra_polygons ++ tail item.2).

Fixpoint apply_items (st : list Polygon * list Polygon) (items : list OverlapRecord)
    : option (list Polygon * list Polygon) :=
  match items with
  | [] => Some st
  | item :: items' => st' ← apply_item st item; apply_items st' items'
  end.

(** The worker lambda of [merge_overlapping(water_shp, overlap)]: first
    the unions of its range, then, holding [mutex], the writes. *)
Inductive merge_pc : Type :=
  | MergeEnter (i0 i1 : nat)
  | MergeLocked (unioned_polygons : list OverlapRecord).

Definition merge_step (overlap : list OverlapRecord) (l : merge_pc)
    (sh : list Polygon * list Polygon)
    : status merge_pc Empty_set * (list Polygon * list Polygon) :=
  match l with
  | MergeEnter i0 i1 =>
      match merge_overlapping_range overlap i0 i1 with
      | Some unioned_polygons => (Running (MergeLocked unioned_polygons), sh)
      | None => (Undefined, sh)
      end
  | MergeLocked unioned_polygons =>
      match apply_items sh unioned_polygons with
      | Some sh' => (Returned, sh')
      | None => (Undefined, sh)
      end
  end.

(** [merge_overlapping(water_shp, overlap)]; the result is the list of
    polygons of [water_shp] afterwards. *)
Definition merge_overlapping (hw : nat) (water_shp : list Polygon)
    (overlap : list OverlapRecord) (sched : list nat) : option (list Polygon) :=
  '(_, (water_polygons, extra_polygons)) ←
    parallel_for MergeEnter (merge_step overlap) hw (water_shp, []) (length overlap) 0 1 sched;
  Some (water_polygons ++ extra_polygons).

(** One record, as the specification describes it. *)
Definition apply_record_spec (st : list Polygon * list Polygon) (record : OverlapRecord)
    : list Polygon * list Polygon :=
  let '(base, queued) := st in
  match cascade_union area multi_polygon_union record.2 with
  | [] => (base, queued)
  | first_reduced :: other_reduced =>
      match base !! record.1 with
      | None => (base, queued)
      | Some base_polygon =>
          match polygon_union base_polygon first_reduced with
          | [] => (base, queued ++ other_reduced)
          | piece :: pieces =>
              (<[record.1 := piece]> base, queued ++ pieces ++ other_reduced)
          end
      end
  end.

Definition merge_spec (base : list Polygon) (records : list OverlapRecord) : list Polygon :=
  let '(base', queued) := foldl apply_record_spec (base, []) records in
  base' ++ queued.

End Merge.

Arguments merge_pc : clear implicits.

End Merge.

(** ** select_overlap *)

Module Select.
Import ParallelFor Executor.

(** A [const Polygon *] into the polygons owned by [area_shp]. *)
Abbreviation Ptr := nat (only parsing).

(** [MutexProtectedSet<const Polygon *>]: a [std::set] whose [insert]
    holds the mutex; [contains] reads without it. *)
Definition contains (filtered_polygons : gset Ptr) (value : Ptr) : bool :=
  bool_decide (value ∈ filtered_polygons).

(** [insert(value)]: the set afterwards, and [.second] of the returned
    pair (whether the value went in). *)
Definition insert (filtered_polygons : gset Ptr) (value : Ptr) : gset Ptr * bool :=
  if bool_decide (value ∈ filtered_polygons) then (filtered_polygons, false)
  else ({[value]} ∪ filtered_polygons, true).

Section Select.
Context {Polygon Box : Type}.

(** [*p] for the polygons of [area_shp], which selection only reads. *)
Variable deref : Ptr → Polygon.
(** [bg::return_envelope<Box>], the box test of the R-tree query,
    [bg::intersects] and [bg::within]. *)
Variable return_envelope : Polygon → Box.
Variable box_intersects : Box → Box → bool.
Variable intersects : Polygon → Polygon → bool.
Variable within : Polygon → Polygon → bool.

(** [Shapefile::PolygonIndex]; an R-tree is the values it holds, in the
    order a query reports them. *)
Abbreviation PolygonIndex := (Box * Ptr)%type.
Abbreviation RTree := (list PolygonIndex).

(** [rtree()->query(bg::index::intersects(envelope), out)]. *)
Definition query (rtree : RTree) (envelope : Box) : list PolygonIndex :=
  filter (λ item, box_intersects item.1 envelope) rtree.

(** A record of the result, [(ix, matching_areas)].  [matching_areas]
    holds copies [*item.second]; the model keeps the pointer each copy
    was made from, and [polygons_of] reads the copies. *)
Abbreviation Claim := (nat * list Ptr)%type.

Definition polygons_of (r : Claim) : nat * list Polygon := (r.1, deref <$> r.2).

(** The condition of the second [continue]: the candidate does not
    intersect the water polygon ([bg::intersects]) or lies within it
    ([bg::within]). *)
Definition no_effect (water_polygon : Polygon) (p : Ptr) : bool :=
  negb (intersects water_polygon (deref p)) || within (deref p) water_polygon.

(** *** The five-argument select_overlap, run without interference *)

(** [result.reserve(i1 - i0)]: for [i1 < i0] the [size_t] difference
    wraps around to a value above [max_size()], and [reserve] throws
    [std::length_error].  The ranges that [parallel_for] hands to the
    worker have [i0 <= i1]. *)
Definition reserve_throws (i0 i1 : nat) : bool := i1 <? i0.

(** [for (auto &&item : area_polygons)]. *)
Fixpoint scan (water_polygon : Polygon) (area_polygons : list PolygonIndex)
    (filtered_polygons : gset Ptr) (matching_areas : list Ptr) : gset Ptr * list Ptr :=
  match area_polygons with
  | [] => (filtered_polygons, matching_areas)
  | item :: rest =>
      if contains filtered_polygons item.2 then
        scan water_polygon rest filtered_polygons matching_areas
      else if no_effect water_polygon item.2 then
        scan water_polygon rest filtered_polygons matching_areas
      else
        let '(filtered_polygons, inserted) := insert filtered_polygons item.2 in
        scan water_polygon rest filtered_polygons
          (if inserted then matching_areas ++ [item.2] else matching_areas)
  end.

(** [for (size_t ix = i0; ix < i1; ++ix)], with [count] iterations
    left; [water[ix]] past the end is undefined ([None]). *)
Fixpoint select_loop (count ix : nat) (water : list Polygon) (rtree : RTree)
    (filtered_polygons : gset Ptr) (result : list Claim)
    : option (gset Ptr * list Claim) :=
  match count with
  | 0 => Some (filtered_polygons, result)
  | S count' =>
      water_polygon ← water !! ix;
      match query rtree (return_envelope water_polygon) with
      | [] => select_loop count' (S ix) water rtree filtered_polygons result
      | area_polygons =>
          let '(filtered_polygons, matching_areas) :=
            scan water_polygon area_polygons filtered_polygons [] in
          select_loop count' (S ix) water rtree filtered_polygons
            (match matching_areas with
             | [] => result
             | _ => result ++ [(ix, matching_areas)]
             end)
      end
  end.

(** The five-argument [select_overlap].  It begins with
    [result.reserve(i1 - i0)], which throws when [reserve_throws]; the
    result is [None] when the call returns nothing: [reserve] threw, or
    [water[ix]] was read past the end. *)
Definition select_overlap_range (water : list Polygon) (rtree : RTree) (i0 i1 : nat)
    (filtered_polygons : gset Ptr) : option (gset Ptr * list Claim) :=
  if reserve_throws i0 i1 then None
  else select_loop (i1 - i0) i0 water rtree filtered_polygons [].

(** *** The worker, one access to shared state at a time *)

(** Control points of the worker lambda [(i0, i1)]: inside
    [select_overlap(water, area_shp, i0, i1, filtered_polygons)] at the
    head of the outer loop, at the head of the inner loop (before
    [contains]), before [insert]; then before the locked append. *)
Inductive select_pc : Type :=
  | AtOuter (ix : nat) (result : list Claim)
  | AtInner (ix : nat) (water_polygon : Polygon) (area_polygons : list PolygonIndex)
            (matching_areas : list Ptr) (result : list Claim)
  | AtInsert (ix : nat) (water_polygon : Polygon) (item : PolygonIndex)
             (area_polygons : list PolygonIndex)
             (matching_areas : list Ptr) (result : list Claim)
  | AtAppend (selected_overlapping_polygons : list Claim).

(** A worker call: its bound [i1] and where it stands. *)
Abbreviation select_local := (nat * select_pc)%type.

(** The shared state: [filtered_polygons] and [result] of the
    two-argument [select_overlap]. *)
Abbreviation select_shared := (gset Ptr * list Claim)%type.

Definition select_enter (i0 i1 : nat) : select_local := (i1, AtOuter i0 []).

(** After the inner loop: [if (!matching_areas.empty())
    result.emplace_back(...)], then [++ix]. *)
Definition close_record (ix : nat) (matching_areas : list Ptr) (result : list Claim)
    : select_pc :=
  AtOuter (S ix) (match matching_areas with
                  | [] => result
                  | _ => result ++ [(ix, matching_areas)]
                  end).

Definition select_step (water : list Polygon) (rtree : RTree)
    (l : select_local) (sh : select_shared)
    : status select_local Empty_set * select_shared :=
  let '(i1, pc) := l in
  let '(filtered_polygons, shared_result) := sh in
  match pc with
  | AtOuter ix result =>
      if ix <? i1 then
        match water !! ix with
        | None => (Undefined, sh)
        | Some water_polygon =>
            match query rtree (return_envelope water_polygon) with
            | [] => (Running (i1, AtOuter (S ix) result), sh)
            | area_polygons =>
                (Running (i1, AtInner ix water_polygon area_polygons [] result), sh)
            end
        end
      else (Running (i1, AtAppend result), sh)
  | AtInner ix water_polygon [] matching_areas result =>
      (Running (i1, close_record ix matching_areas result), sh)
  | AtInner ix water_polygon (item :: rest) matching_areas result =>
      if contains filtered_polygons item.2 then
        (Running (i1, AtInner ix water_polygon rest matching_areas result), sh)
      else if no_effect water_polygon item.2 then
        (Running (i1, AtInner ix water_polygon rest matching_areas result), sh)
      else (Running (i1, AtInsert ix water_polygon item rest matching_areas result), sh)
  | AtInsert ix water_polygon item rest matching_areas result =>
      let '(filtered_polygons, inserted) := insert filtered_polygons item.2 in
      (Running (i1, AtInner ix water_polygon rest
                      (if inserted then matching_areas ++ [item.2] else matching_areas)
                      result),
       (filtered_polygons, shared_result))
  | AtAppend selected_overlapping_polygons =>
      (Returned, (filtered_polygons, shared_result ++ selected_overlapping_polygons))
  end.

(** The two-argument [select_overlap], with the thread count and the
    minimal size passed to [parallel_for] as parameters. *)
Definition select_overlap_with (num_threads min_size : nat) (hw : nat)
    (water : list Polygon) (rtree : RTree) (sched : list nat) : option (list Claim) :=
  '(_, (_, result)) ←
    parallel_for select_enter (select_step water rtree) hw (∅, [])
      (length water) num_threads min_size sched;
  Some result.

(** [parallel_for(worker, water.size(), 128)]. *)
Definition select_overlap : nat → list Polygon → RTree → list nat → option (list Claim) :=
  select_overlap_with 128 1.

(** All pointers claimed by a list of records. *)
Definition claimed (records : list Claim) : list Ptr := concat (snd <$> records).

End Select.

Arguments select_pc : clear implicits.

End Select.

(** ** Concrete instances, to run the definitions on *)

Module Demo.
Import Executor.

(** A worker that raises its own start index when its range holds the
    index [bad], and returns otherwise. *)
Definition picky_enter (i0 i1 : nat) : nat * nat := (i0, i1).

Definition picky_step (bad : nat) (l : nat * nat) (sh : unit)
    : status (nat * nat) nat * unit :=
  if (l.1 <=? bad) && (bad <? l.2) then (Raised l.1, sh) else (Returned, sh).

End Demo.

(** A geometry on a line: a polygon is an interval [(lo, hi)] of
    integers, a multi-polygon a list of them. *)
Module Line.

Definition Interval : Type := Z * Z.

Definition area (m : list Interval) : Q :=
  inject_Z (foldr (λ p acc, (p.2 - p.1) + acc)%Z 0%Z m).

(** Insert an interval into a list sorted by lower end. *)
Fixpoint place (p : Interval) (m : list Interval) : list Interval :=
  match m with
  | [] => [p]
  | q :: m' => if (p.1 <=? q.1)%Z then p :: m else q :: place p m'
  end.

(** Join the intervals of a sorted list that meet. *)
Fixpoint fuse (cur : Interval) (m : list Interval) : list Interval :=
  match m with
  | [] => [cur]
  | q :: m' =>
      if (q.1 <=? cur.2)%Z then fuse (cur.1, Z.max cur.2 q.2) m'
      else cur :: fuse q m'
  end.

Definition union (a b : list Interval) : list Interval :=
  match foldr place [] (a ++ b) with
  | [] => []
  | p :: m => fuse p m
  end.

Definition polygon_union (p q : Interval) : list Interval := union [p] [q].

End Line.

(** A geometry in the plane: a polygon is an axis-parallel rectangle
    with integer corners (and [xmin < xmax], [ymin < ymax]); its
    envelope is itself. *)
Module Plane.

Record Rect : Type := MkRect { xmin : Z; ymin : Z; xmax : Z; ymax : Z }.

(** The closed rectangles share a point. *)
Definition intersects (p q : Rect) : bool :=
  (xmin p <=? xmax q)%Z && (xmin q <=? xmax p)%Z &&
  (ymin p <=? ymax q)%Z && (ymin q <=? ymax p)%Z.

(** [p] lies in [q]. *)
Definition within (p q : Rect) : bool :=
  (xmin q <=? xmin p)%Z && (xmax p <=? xmax q)%Z &&
  (ymin q <=? ymin p)%Z && (ymax p <=? ymax q)%Z.

Definition envelope (p : Rect) : Rect := p.

(** The polygon a pointer into [overlay] points to. *)
Definition deref (overlay : list Rect) (p : nat) : Rect :=
  default (MkRect 0 0 0 0) (overlay !! p).

(** [Shapefile::build_rtree_index]: one value per polygon, its envelope
    and its address. *)
Definition build_rtree_index (overlay : list Rect) : list (Rect * nat) :=
  imap (λ p r, (envelope r, p)) overlay.

End Plane.

(** Two water polygons side by side and one area polygon inside the
    first that touches the second along its edge. *)
Module Shore.

Definition water : list Plane.Rect :=
  [Plane.MkRect 0 0 10 10; Plane.MkRect 10 0 20 10].

Definition overlay : list Plane.Rect := [Plane.MkRect 5 0 10 5].

Definition rtree : list (Plane.Rect * nat) := Plane.build_rtree_index overlay.

Definition select (num_threads min_size hw : nat) (sched : list nat)
    : option (list (nat * list nat)) :=
  Select.select_overlap_with (Plane.deref overlay) Plane.envelope Plane.intersects
    Plane.intersects Plane.within num_threads min_size hw water rtree sched.

End Shore.

(** ** The Shapefile class (include/uwp/shapefile.hpp) *)

Module Shp.

Section Shapefile.
Context {Polygon Box : Type}.
Variable return_envelope : Polygon → Box.

(** [polygons_] is the vector of owned polygons; the address held by the
    [i]-th [unique_ptr] is written [i] (appending never moves a polygon).
    [rtree_] is null ([None]) until [build_rtree_index] runs. *)
Record Shapefile : Type := MkShapefile {
  polygons_ : list Polygon;
  rtree_ : option (list (Box * nat))
}.

(** [Shapefile() = default]. *)
Definition fresh : Shapefile := MkShapefile [] None.

Definition is_empty (shp : Shapefile) : bool :=
  match polygons_ shp with [] => true | _ => false end.

Definition size (shp : Shapefile) : nat := length (polygons_ shp).

Definition is_rtree_built (shp : Shapefile) : bool :=
  match rtree_ shp with Some _ => true | None => false end.

(** [build_rtree_index]: one value [(envelope, address)] per polygon,
    handed to the R-tree constructor. *)
Definition build_rtree_index (shp : Shapefile) : Shapefile :=
  MkShapefile (polygons_ shp)
    (Some (imap (λ p polygon, (return_envelope polygon, p)) (polygons_ shp))).

(** [append(const Polygon &)]: a copy at the end; the index is left as
    it is. *)
Definition append_polygon (shp : Shapefile) (polygon : Polygon) : Shapefile :=
  MkShapefile (polygons_ shp ++ [polygon]) (rtree_ shp).

(** [append(const PolygonList &)]. *)
Definition append_list (shp : Shapefile) (polygons : list Polygon) : Shapefile :=
  foldl append_polygon shp polygons.

(** [append(const Shapefile &other)]. *)
Definition append (shp other : Shapefile) : Shapefile :=
  build_rtree_index (append_list shp (polygons_ other)).

End Shapefile.

Arguments Shapefile : clear implicits.

End Shp.

(** ** Reading and writing polygons (src/shapefile.cpp) *)

Module Codec.

(** [static_cast<int>] of a [size_t]: the value modulo [2^32], read as a
    signed 32-bit number. *)
Definition to_int (n : nat) : Z :=
  let m := (Z.of_nat n mod 2 ^ 32)%Z in
  if (m <? 2 ^ 31)%Z then m else (m - 2 ^ 32)%Z.

(** [SHPT_POLYGON] of shapefil.h. *)
Definition SHPT_POLYGON : Z := 5.

(** How a call ends: with a value, with an exception, or in a read past
    the end of an array. *)
Inductive error : Type :=
  | LengthError             (* [std::length_error], from [reserve] *)
  | UnableToRead (ix : nat) (* [std::runtime_error("unable to read shape ix")] *).

Inductive outcome (A : Type) : Type :=
  | Done (a : A)
  | Throws (e : error)
  | PastTheEnd.
Arguments Done {A} a.
Arguments Throws {A} e.
Arguments PastTheEnd {A}.

Section Codec.
(** [Coord] is [double]; the code only copies coordinates. *)
Context {Coord : Type}.

Abbreviation Point := (Coord * Coord)%type.
Abbreviation Ring := (list Point).

(** [bg::model::polygon<Point>]. *)
Record Polygon : Type := MkPolygon {
  outer : Ring;
  inners : list Ring
}.

(** The fields of shapelib's [SHPObject] that the code reads.  The
    integer fields are [int]s; the code subtracts part starts from each
    other and from [nVertices] and 1 from [nParts], which is modelled
    without wrap-around: exact for part starts and counts that are not
    negative. *)
Record SHPObject : Type := MkSHPObject {
  nSHPType : Z;
  nParts : Z;
  panPartStart : list Z;
  nVertices : Z;
  padfX : list Coord;
  padfY : list Coord
}.

(** [for (jx = start; jx < end; ++jx) append(ring, Point( *x++, *y++))]:
    [count] points are read through the two running pointers. *)
Fixpoint read_points (count : nat) (x y : list Coord) (ring : Ring)
    : option (Ring * list Coord * list Coord) :=
  match count with
  | 0 => Some (ring, x, y)
  | S count' =>
      match x, y with
      | cx :: x', cy :: y' => read_points count' x' y' (ring ++ [(cx, cy)])
      | _, _ => None
      end
  end.

(** The loop over the parts of [read_polygon], with [count] parts left.
    [reserve] of a negative [int] asks for more than [max_size()] and
    throws. *)
Fixpoint read_parts (count : nat) (lx : Z) (shape : SHPObject) (x y : list Coord)
    (polygon : Polygon) : outcome Polygon :=
  match count with
  | 0 => Done polygon
  | S count' =>
      match (if (lx =? nParts shape - 1)%Z then Some (nVertices shape)
             else panPartStart shape !! Z.to_nat (lx + 1)),
            panPartStart shape !! Z.to_nat lx with
      | Some end_, Some start =>
          if (end_ - start <? 0)%Z then Throws LengthError
          else
            match read_points (Z.to_nat (end_ - start)) x y [] with
            | None => PastTheEnd
            | Some (ring, x', y') =>
                read_parts count' (lx + 1) shape x' y'
                  (if (lx =? 0)%Z
                   then MkPolygon (outer polygon ++ ring) (inners polygon)
                   else MkPolygon (outer polygon) (inners polygon ++ [ring]))
            end
      | _, _ => PastTheEnd
      end
  end.

(** [read_polygon]. *)
Definition read_polygon (shape : SHPObject) : outcome Polygon :=
  if (nParts shape - 1 <? 0)%Z then Throws LengthError
  else read_parts (Z.to_nat (nParts shape)) 0 shape (padfX shape) (padfY shape)
         (MkPolygon [] []).

(** [pan_starts] as [save] fills it: the loop over the inner rings, at
    ring number [ix] with [current_pos] vertices written. *)
Fixpoint inner_starts (ix current_pos : nat) (rings : list Ring) (pan_starts : list Z)
    : list Z :=
  match rings with
  | [] => pan_starts
  | inner :: rings' =>
      inner_starts (S ix) (current_pos + length inner) rings'
        (if 0 <? ix then pan_starts ++ [to_int current_pos] else pan_starts)
  end.

(** The object [save] hands to [SHPCreateObject] for one polygon. *)
Definition save_object (polygon : Polygon) : SHPObject :=
  let pan_starts :=
    inner_starts 0 (length (outer polygon)) (inners polygon)
      ([0%Z] ++ match inners polygon with
                | [] => []
                | _ => [to_int (length (outer polygon))]
                end) in
  let points := outer polygon ++ concat (inners polygon) in
  MkSHPObject SHPT_POLYGON (to_int (length pan_starts)) pan_starts
    (to_int (length points)) (points.*1) (points.*2).

(** [Box] is the clip box and [intersection] is [bg::intersection] of a
    polygon with it. *)
Context {Box : Type}.
Variable intersection : Polygon → Box → list Polygon.

(** [handle_polygon]. *)
Definition handle_polygon (polygon : Polygon) (bbox : option Box)
    (polygon_list : list Polygon) : list Polygon :=
  match bbox with
  | Some box => polygon_list ++ intersection polygon box
  | None => polygon_list ++ [polygon]
  end.

(** The loop of [Shapefile::load] over the shapes read from the file,
    [ix] being the number of the next one. *)
Fixpoint load_loop (shapes : list SHPObject) (ix : nat) (bbox : option Box)
    (polygon_list : list Polygon) : outcome (list Polygon) :=
  match shapes with
  | [] => Done polygon_list
  | shape :: shapes' =>
      match (if (0 <? nParts shape)%Z then panPartStart shape !! 0 else Some 0%Z) with
      | None => PastTheEnd
      | Some first =>
          if (0 <? nParts shape)%Z && negb (first =? 0)%Z then Throws (UnableToRead ix)
          else if (nSHPType shape =? SHPT_POLYGON)%Z && negb (nVertices shape =? 0)%Z then
            match read_polygon shape with
            | Done polygon =>
                load_loop shapes' (S ix) bbox (handle_polygon polygon bbox polygon_list)
            | Throws e => Throws e
            | PastTheEnd => PastTheEnd
            end
          else load_loop shapes' (S ix) bbox polygon_list
      end
  end.

(** [Shapefile::load]: the polygons it leaves in [polygons_]. *)
Definition load (shapes : list SHPObject) (bbox : option Box) : outcome (list Polygon) :=
  load_loop shapes 0 bbox [].

End Codec.

Arguments Polygon : clear implicits.
Arguments SHPObject : clear implicits.

End Codec.

(** ** The two programs (src/main.cpp) *)

From Stdlib Require String Ascii.

Module Main.
Import Executor Cascade Merge Select Shp.
Import Stdlib.Strings.Ascii Stdlib.Strings.String.

(** *** The command line *)

(** What the argument loop of [main] decides. *)
Inductive command : Type :=
  | Usage                          (* [argc < 2]: usage on stderr, [return 1] *)
  | UnsupportedOption (arg : string)            (* [return 1] *)
  | NoRegionFile                                (* [return 1] *)
  | Process (water_file output_file : string) (region_files : list string).

Definition starts_with_dash (arg : string) : bool :=
  match arg with
  | String c _ => Ascii.eqb c "-"%char
  | EmptyString => false
  end.

Definition is_output_flag (arg : string) : bool :=
  String.eqb arg "-o" || String.eqb arg "-O".

(** [for (int i = 2; i < argc; ++i)] on the arguments from [argv[i]] on;
    [i + 1 < argc] holds when another argument follows. *)
Fixpoint parse_options (args : list string) (output_file : string)
    (output_specified : bool) (region_files : list string)
    : string + (string * bool * list string) :=
  match args with
  | [] => inr (output_file, output_specified, region_files)
  | arg :: rest =>
      let otherwise :=
        if (1 <? String.length arg) && starts_with_dash arg then inl arg
        else parse_options rest output_file output_specified (region_files ++ [arg]) in
      if is_output_flag arg then
        match rest with
        | value :: rest' => parse_options rest' value true region_files
        | [] => otherwise
        end
      else otherwise
  end.

(** [main] up to the point where the files are opened; [argv] holds
    [argc] strings. *)
Definition parse_command (argv : list string) : command :=
  match argv with
  | [] | [_] => Usage
  | _ :: water_file :: args =>
      match parse_options args EmptyString false [] with
      | inl arg => UnsupportedOption arg
      | inr (output_file, output_specified, region_files) =>
          match region_files with
          | [] => NoRegionFile
          | _ =>
              Process water_file
                (if output_specified then output_file
                 else (water_file ++ "_updated.shp")%string)
                region_files
          end
      end
  end.

(** The three-argument program: [argc != 4] prints the usage. *)
Definition parse_fixed (argv : list string) : option (string * string * string) :=
  match argv with
  | [_; water_polygon; region_polygon; water_polygon_output] =>
      Some (water_polygon, region_polygon, water_polygon_output)
  | _ => None
  end.

(** *** One region *)

Section Update.
Context {Polygon Box : Type}.
Variable area : list Polygon → Q.
Variable multi_polygon_union : list Polygon → list Polygon → list Polygon.
Context `{PQ : !PriorityQueue area}.
Variable polygon_union : Polygon → Polygon → list Polygon.
Variable return_envelope : Polygon → Box.
Variable box_intersects : Box → Box → bool.
Variable intersects : Polygon → Polygon → bool.
Variable within : Polygon → Polygon → bool.

(** What is read through a pointer that does not point into the area
    shapefile; the index built from it holds no such pointer. *)
Variable stray : Polygon.

Definition pointee (area_polygons : list Polygon) (p : nat) : Polygon :=
  default stray (area_polygons !! p).

(** The body of the loop over the region files, after the region was
    loaded: [area_shp.build_rtree_index()], [select_overlap],
    [merge_overlapping].  [scheds] are the schedules of the two
    [parallel_for] calls.  The index of [water_shp] is not touched. *)
Definition process_region (hw : nat) (water_shp : Shapefile Polygon Box)
    (area_polygons : list Polygon) (scheds : list nat * list nat)
    : option (Shapefile Polygon Box) :=
  let area_shp := build_rtree_index return_envelope (MkShapefile area_polygons None) in
  rtree ← rtree_ area_shp;
  overlap ← select_overlap (pointee area_polygons) return_envelope box_intersects
               intersects within hw (polygons_ water_shp) rtree scheds.1;
  polygons ← merge_overlapping area multi_polygon_union polygon_union hw
                (polygons_ water_shp)
                (polygons_of (pointee area_polygons) <$> overlap) scheds.2;
  Some (MkShapefile polygons (rtree_ water_shp)).

(** [for (const auto& region_file : region_files)]. *)
Fixpoint process_regions (hw : nat) (water_shp : Shapefile Polygon Box)
    (regions : list (list Polygon * (list nat * list nat)))
    : option (Shapefile Polygon Box) :=
  match regions with
  | [] => Some water_shp
  | (area_polygons, scheds) :: regions' =>
      water_shp' ← process_region hw water_shp area_polygons scheds;
      process_regions hw water_shp' regions'
  end.

End Update.

End Main.

(** A geometry of cells: a polygon is a finite set of numbered cells. *)
Module Cells.

Definition Polygon : Type := gset nat.

Definition covered (m : list Polygon) : gset nat := ⋃ m.

Definition area (m : list Polygon) : Q := inject_Z (Z.of_nat (size (covered m))).

Definition union (a b : list Polygon) : list Polygon := [covered a ∪ covered b].

Definition polygon_union (p q : Polygon) : list Polygon := [p ∪ q].

(** Two polygons share a cell; [p] lies in [q]. *)
Definition intersects (p q : Polygon) : bool := bool_decide (p ∩ q ≠ ∅).

Definition within (p q : Polygon) : bool := bool_decide (p ⊆ q).

(** The envelope of a polygon is the polygon. *)
Definition envelope (p : Polygon) : Polygon := p.

End Cells.
Module ParallelForFacts.
Import ParallelFor.

Lemma launch_length count ix start shift remainder :
  length (launch count ix start shift remainder) = count.
Proof.
  revert ix start; induction count as [|k IH]; intros ix start; simpl; [done|].
  by rewrite IH.
Qed.

(** Closed form of the [i]-th range. *)
Lemma launch_lookup count ix start shift remainder i :
  i < count →
  launch count ix start shift remainder !! i =
    Some (start + i * shift + (min (ix + i) remainder - min ix remainder),
          start + S i * shift + (min (ix + S i) remainder - min ix remainder)).
Proof.
  revert ix start i; induction count as [|k IH]; intros ix start i Hi; [lia|].
  destruct i as [|i]; simpl.
  - f_equal. f_equal; destruct (Nat.ltb_spec ix remainder); lia.
  - rewrite IH by lia. f_equal.
    f_equal; destruct (Nat.ltb_spec ix remainder); lia.
Qed.

Lemma launch_indices count ix start shift remainder :
  concat (map indices (launch count ix start shift remainder)) =
    seq start (count * shift + (min (ix + count) remainder - min ix remainder)).
Proof.
  revert ix start; induction count as [|k IH]; intros ix start.
  - simpl. replace (min (ix + 0) remainder - min ix remainder) with 0 by lia. done.
  - simpl launch. rewrite map_cons, concat_cons, IH. unfold indices at 1; simpl fst; simpl snd.
    set (b := if ix <? remainder then 1 else 0).
    assert (b = min (S ix) remainder - min ix remainder) as Hb
      by (unfold b; destruct (Nat.ltb_spec ix remainder); lia).
    replace (S k * shift + (min (ix + S k) remainder - min ix remainder))
      with ((start + shift + b - start) +
            (k * shift + (min (S ix + k) remainder - min (S ix) remainder))) by lia.
    rewrite (seq_app (start + shift + b - start) _ start).
    by replace (start + (start + shift + b - start)) with (start + shift + b) by lia.
Qed.

(** No [end] computed by the launch loop exceeds [size]: the additions
    of the loop cannot wrap. *)
Lemma launch_end_le size num_threads i s e :
  0 < num_threads →
  launch num_threads 0 0 (size / num_threads) (size mod num_threads) !! i = Some (s, e) →
  s ≤ e ∧ e ≤ size.
Proof.
  intros Hn Hi.
  assert (i < num_threads) as Hlt.
  { apply lookup_lt_Some in Hi. by rewrite launch_length in Hi. }
  rewrite launch_lookup in Hi by done.
  apply (inj Some), pair_equal_spec in Hi as [<- <-].
  pose proof (Nat.div_mod_eq size num_threads) as Hdm.
  pose proof (Nat.mod_upper_bound size num_threads ltac:(lia)) as Hr.
  set (q := size / num_threads) in *. set (r := size mod num_threads) in *.
  split; [lia|].
  assert (S i * q ≤ num_threads * q) by (apply Nat.mul_le_mono_r; lia).
  lia.
Qed.

(** The ranges of a plan cover [0, size) in order and stay inside it. *)
Lemma plan_ranges hw size num_threads min_size ranges :
  ranges_of (schedule_plan hw size num_threads min_size) = Some ranges →
  concat (map indices ranges) = seq 0 size ∧
  Forall (λ r, r.1 ≤ r.2 ∧ r.2 ≤ size) ranges ∧
  (length ranges = 1 ∨ length ranges = if num_threads =? 0 then hw else num_threads).
Proof.
  unfold schedule_plan. set (n := if num_threads =? 0 then hw else num_threads).
  destruct ((n =? 1) || (size <=? min_size)).
  - intros [= <-]. simpl. unfold indices. simpl. rewrite Nat.sub_0_r, app_nil_r.
    split_and!; [done| |by left]. repeat constructor. simpl; lia.
  - destruct (Nat.eqb_spec n 0) as [|Hn]; [done|]. intros [= <-]. split_and!.
    + rewrite launch_indices. f_equal.
      pose proof (Nat.div_mod_eq size n).
      pose proof (Nat.mod_upper_bound size n ltac:(lia)). lia.
    + apply Forall_lookup. intros i [s e] Hi. simpl.
      eapply launch_end_le; [|exact Hi]. lia.
    + right. apply launch_length.
Qed.

(** C6, as the code has it: a thread count of 0 stands for the hardware
    thread count; with [n] the resulting count, [parallel_for] makes a
    single call [worker(0, size)] when [n] is 1 or when the whole size
    is at most [min_size] (the sub-range size is not looked at);
    otherwise, when [n] is positive, the range [0, size) is cut into
    [n] contiguous sub-ranges, in order, that together hold every index
    exactly once, each of [size / n] indices and one more for the first
    [size mod n]; and when [n] is 0 (no hardware thread reported) the
    size is divided by 0. *)
Theorem parallel_for_partition hw size num_threads min_size :
  let n := if num_threads =? 0 then hw else num_threads in
  schedule_plan hw size 0 min_size = schedule_plan hw size hw min_size ∧
  (n = 1 ∨ size ≤ min_size →
     schedule_plan hw size num_threads min_size = Direct size) ∧
  (n ≠ 1 → 0 < n → min_size < size →
     ∃ ranges,
       schedule_plan hw size num_threads min_size = Spawn ranges ∧
       length ranges = n ∧
       (∀ i s e, ranges !! i = Some (s, e) →
          e = s + size / n + (if i <? size mod n then 1 else 0)) ∧
       concat (map indices ranges) = seq 0 size) ∧
  (n = 0 → min_size < size →
     schedule_plan hw size num_threads min_size = DivideByZero).
Proof.
  intros n. split_and!.
  - unfold schedule_plan. by destruct hw.
  - intros Hd. unfold schedule_plan. fold n.
    destruct Hd as [->|Hle]; [done|].
    apply Nat.leb_le in Hle. rewrite Hle. by rewrite orb_true_r.
  - intros Hn1 Hn0 Hsz. unfold schedule_plan. fold n.
    replace (n =? 1) with false by (symmetry; by apply Nat.eqb_neq).
    replace (size <=? min_size) with false by (symmetry; apply Nat.leb_gt; lia).
    replace (n =? 0) with false by (symmetry; apply Nat.eqb_neq; lia).
    simpl. eexists. split_and!; [done|apply launch_length| |].
    + intros i s e Hi.
      assert (i < n) as Hlt.
      { apply lookup_lt_Some in Hi. by rewrite launch_length in Hi. }
      rewrite launch_lookup in Hi by done.
      apply (inj Some), pair_equal_spec in Hi as [<- <-].
      destruct (Nat.ltb_spec i (size mod n)); lia.
    + rewrite launch_indices. f_equal.
      pose proof (Nat.div_mod_eq size n).
      pose proof (Nat.mod_upper_bound size n ltac:(lia)). lia.
  - intros Hn0 Hsz. unfold schedule_plan. fold n. rewrite Hn0. simpl.
    by replace (size <=? min_size) with false by (symmetry; apply Nat.leb_gt; lia).
Qed.

Lemma parallel_for_partition_witness :
  ∃ ranges,
    schedule_plan 8 10 4 1 = Spawn ranges ∧
    length ranges = 4 ∧
    (∀ i s e, ranges !! i = Some (s, e) →
       e = s + 10 / 4 + (if i <? 10 mod 4 then 1 else 0)) ∧
    concat (map indices ranges) = seq 0 10.
Proof.
  destruct (parallel_for_partition 8 10 4 1) as (_ & _ & H & _).
  apply H; simpl; lia.
Defined.

Example plan_of_ten :
  schedule_plan 8 10 4 1 = Spawn [(0, 3); (3, 6); (6, 8); (8, 10)] ∧
  schedule_plan 8 10 0 1 = Spawn [(0, 2); (2, 4); (4, 5); (5, 6); (6, 7); (7, 8); (8, 9); (9, 10)] ∧
  schedule_plan 8 10 1 1 = Direct 10 ∧
  schedule_plan 8 1 4 1 = Direct 1 ∧
  schedule_plan 0 10 0 1 = DivideByZero.
Proof. repeat split. Qed.

(** C6 as stated fails: with 10 indices, 4 threads and a minimum of 5,
    every sub-range is shorter than the minimum, yet four threads are
    started. *)
Lemma small_subranges_still_spawn :
  ¬ (∀ hw size num_threads min_size,
       0 < num_threads → size / num_threads < min_size →
       schedule_plan hw size num_threads min_size = Direct size).
Proof.
  intros H. specialize (H 8 10 4 5 ltac:(lia) ltac:(simpl; lia)).
  vm_compute in H. discriminate H.
Qed.

End ParallelForFacts.


(** ** Lists *)

Module ListFacts.

Lemma concat_insert_perm {A} (ls : list (list A)) i l l' :
  ls !! i = Some l → concat (<[i:=l']> ls) ++ l ≡ₚ l' ++ concat ls.
Proof.
  intros Hi. rewrite insert_take_drop by (by eapply lookup_lt_Some).
  rewrite <- (take_drop_middle ls i l Hi) at 3.
  rewrite !concat_app, !concat_cons.
  set (a := concat (take i ls)). set (b := concat (drop (S i) ls)).
  rewrite <- !app_assoc.
  rewrite (Permutation_app_comm a (l' ++ b ++ l)).
  rewrite <- !app_assoc. f_equiv.
  rewrite (Permutation_app_comm a (l ++ b)).
  rewrite <- !app_assoc.
  rewrite (Permutation_app_comm b (l ++ a)).
  rewrite <- !app_assoc. f_equiv. apply Permutation_app_comm.
Qed.

Lemma omap_concat {A B} (f : A → option B) (ls : list (list A)) :
  omap f (concat ls) = concat (map (omap f) ls).
Proof.
  induction ls as [|l ls IH]; [done|]. simpl. by rewrite omap_app, IH.
Qed.

Lemma omap_lookup_seq {A} (l : list A) :
  omap (λ i, l !! i) (seq 0 (length l)) = l.
Proof.
  induction l as [|x l IH] using rev_ind; [done|].
  rewrite length_app. simpl. rewrite Nat.add_1_r, seq_S, omap_app. simpl.
  rewrite list_lookup_middle by done. f_equal.
  rewrite <- IH at 2. apply list_omap_ext.
  apply Forall2_same_length_lookup. split; [done|].
  intros i x1 x2 Hx1 Hx2. assert (x1 = x2) as -> by congruence.
  apply lookup_seq in Hx2 as [-> Hlt]. simpl.
  by rewrite lookup_app_l.
Qed.

Lemma concat_lookup_disjoint {A} (ls : list (list A)) i j l l' x :
  NoDup (concat ls) → ls !! i = Some l → ls !! j = Some l' → x ∈ l → x ∈ l' → i = j.
Proof.
  revert i j. induction ls as [|l0 ls IH]; intros i j Hnd Hi Hj Hx Hx'; [done|].
  simpl in Hnd. apply NoDup_app in Hnd as (_ & Hdisj & Hnd).
  assert (∀ k l1, ls !! k = Some l1 → x ∈ l1 → x ∈ concat ls) as Hin.
  { intros k l1 Hk Hx1. apply list_elem_of_In, in_concat. exists l1.
    split; apply list_elem_of_In; [by eapply list_elem_of_lookup_2|done]. }
  destruct i as [|i], j as [|j]; simpl in *.
  - done.
  - injection Hi as <-. destruct (Hdisj x Hx). by eapply Hin.
  - injection Hj as <-. destruct (Hdisj x Hx'). by eapply Hin.
  - f_equal. by eapply IH.
Qed.

Lemma elem_of_concat_lookup {A} (ls : list (list A)) x :
  x ∈ concat ls → ∃ j l, ls !! j = Some l ∧ x ∈ l.
Proof.
  intros (l & Hl & Hx)%list_elem_of_In%in_concat.
  apply list_elem_of_In, list_elem_of_lookup in Hl as [j Hj].
  exists j, l. split; [done|]. by apply list_elem_of_In.
Qed.

End ListFacts.

Module CascadeFacts.
Import Cascade.

Section Facts.
Context {Polygon : Type}.
Abbreviation MultiPolygon := (list Polygon).
Variable area : MultiPolygon → Q.
Variable multi_polygon_union : MultiPolygon → MultiPolygon → MultiPolygon.
Context `{PQ : !PriorityQueue area}.

Abbreviation loop := (cascade_loop area multi_polygon_union).
Abbreviation cascade := (smallest_first area multi_polygon_union).

(** The loop, unfolded once. *)
Lemma cascade_loop_once q log :
  loop q log =
    if 1 <? pq_size area q then
      match pq_top area q with
      | None => (q, log)
      | Some mpoly1 =>
          match pq_top area (pq_pop area q) with
          | None => (q, log)
          | Some mpoly2 =>
              loop (pq_push area (multi_polygon_union mpoly1 mpoly2)
                      (pq_pop area (pq_pop area q)))
                   (log ++ [(mpoly1, mpoly2)])
          end
      end
    else (q, log).
Proof.
  funelim (cascade_loop area multi_polygon_union q log); clear Heqcall;
    repeat match goal with
           | H : _ = Some _ |- _ => rewrite H
           | H : _ = None |- _ => rewrite H
           | H : (_ <? _) = _ |- _ => rewrite H
           end; done.
Qed.

Lemma pq_top_le q x y :
  pq_top area q = Some x → y ∈ pq_elems area q → (area x <= area y)%Q.
Proof.
  intros Hx Hy. pose proof (pq_top_first area q x y Hx Hy) as Hc.
  unfold CompareArea in Hc. by apply negb_false_iff, Qle_bool_iff in Hc.
Qed.

(** Under the loop guard both [top] calls find an element, and one
    iteration leaves the queue one element shorter. *)
Lemma cascade_pops q :
  1 < pq_size area q →
  ∃ mpoly1 mpoly2,
    pq_top area q = Some mpoly1 ∧
    pq_top area (pq_pop area q) = Some mpoly2 ∧
    S (pq_size area (pq_push area (multi_polygon_union mpoly1 mpoly2)
                       (pq_pop area (pq_pop area q)))) = pq_size area q.
Proof.
  intros Hq.
  destruct (pq_top_is_Some area q) as [m1 H1]; [lia|].
  pose proof (pq_size_pop area q m1 H1) as Hs1.
  destruct (pq_top_is_Some area (pq_pop area q)) as [m2 H2]; [lia|].
  pose proof (pq_size_pop area _ m2 H2) as Hs2.
  exists m1, m2. split_and!; [done..|]. rewrite pq_size_push. lia.
Qed.

Lemma smallest_first_perm ms ms' log r :
  cascade ms log r → ms ≡ₚ ms' → cascade ms' log r.
Proof.
  intros Hc; revert ms'.
  induction Hc as [m|ms a b rest log r Hperm Ha Hb Hc IH]; intros ms' Hms.
  - apply Permutation_singleton_l in Hms. subst ms'. constructor.
  - eapply smallest_first_union; [by rewrite <- Hms| |done..].
    intros y Hy. apply Ha. by rewrite Hms.
Qed.

Lemma cascade_loop_spec n : ∀ q log,
  pq_size area q = S n →
  ∃ q' log1,
    loop q log = (q', log ++ log1) ∧ pq_size area q' = 1 ∧ length log1 = n ∧
    ∀ r, pq_top area q' = Some r → cascade (pq_elems area q) log1 r.
Proof.
  induction n as [|n IH]; intros q log Hq.
  - exists q, []. rewrite cascade_loop_once, Hq, app_nil_r.
    split_and!; [done..|]. intros r Hr.
    pose proof (pq_top_pop area q r Hr) as Hperm.
    rewrite pq_size_elems in Hq.
    destruct (pq_elems area (pq_pop area q)) as [|z zs].
    + apply Permutation_singleton_r in Hperm as ->. constructor.
    + apply Permutation_length in Hperm. simpl in Hperm. lia.
  - destruct (cascade_pops q) as (m1 & m2 & H1 & H2 & Hs); [lia|].
    set (q2 := pq_push area (multi_polygon_union m1 m2) (pq_pop area (pq_pop area q))) in *.
    destruct (IH q2 (log ++ [(m1, m2)])) as (q' & log1 & Hloop & Hq' & Hlen & Hcas); [lia|].
    exists q', ((m1, m2) :: log1).
    rewrite cascade_loop_once, H1, H2.
    replace (1 <? pq_size area q) with true by (symmetry; apply Nat.ltb_lt; lia).
    fold q2. rewrite Hloop, <- app_assoc. simpl.
    split_and!; [done|done|lia|]. intros r Hr.
    pose proof (pq_top_pop area q m1 H1) as Hp1.
    pose proof (pq_top_pop area _ m2 H2) as Hp2.
    eapply smallest_first_union with (rest := pq_elems area (pq_pop area (pq_pop area q))).
    + by rewrite Hp1, Hp2.
    + intros y Hy. by eapply pq_top_le.
    + intros y Hy. eapply pq_top_le; [done|]. by rewrite Hp2.
    + eapply smallest_first_perm; [by apply Hcas|]. apply pq_push_elems.
Qed.

(** The queue after the [for] loop of pushes. *)
Lemma pushes_elems (polygons : list Polygon) q :
  pq_elems area (foldl (λ q item, pq_push area [item] q) q polygons)
    ≡ₚ ((λ p, [p]) <$> polygons) ++ pq_elems area q.
Proof.
  revert q; induction polygons as [|p ps IH]; intros q; [done|]. simpl.
  rewrite IH, pq_push_elems. by rewrite Permutation_middle.
Qed.

Lemma cascade_union_traced_spec (polygons : list Polygon) :
  polygons ≠ [] →
  ∃ q log,
    loop (foldl (λ q item, pq_push area [item] q) (pq_empty area) polygons) [] = (q, log) ∧
    cascade_union_traced area multi_polygon_union polygons = (default [] (pq_top area q), log) ∧
    is_Some (pq_top area q) ∧
    length log = length polygons - 1 ∧
    ∀ r, pq_top area q = Some r → cascade ((λ p, [p]) <$> polygons) log r.
Proof.
  intros Hne.
  set (q0 := foldl (λ q item, pq_push area [item] q) (pq_empty area) polygons).
  assert (pq_elems area q0 ≡ₚ (λ p, [p]) <$> polygons) as Hq0.
  { unfold q0. by rewrite pushes_elems, pq_empty_elems, app_nil_r. }
  assert (pq_size area q0 = S (length polygons - 1)) as Hsz.
  { rewrite pq_size_elems, Hq0, length_fmap. destruct polygons; [done|simpl; lia]. }
  destruct (cascade_loop_spec _ q0 [] Hsz) as (q & log & Hloop & Hq & Hlen & Hcas).
  simpl in Hloop. exists q, log. split_and!; [done| |by apply pq_top_is_Some; lia|done|].
  - unfold cascade_union_traced. destruct polygons as [|p ps]; [done|].
    fold q0. by rewrite Hloop.
  - intros r Hr. eapply smallest_first_perm; [by apply Hcas|done].
Qed.

(** C2: on a non-empty input, [cascade_union] runs the smallest-first
    cascade on the input polygons, each wrapped as a one-member
    multi-polygon: while more than one element is queued, two elements of
    smallest area are taken out and their union is put back; the polygons
    of the last element are the result.  On the empty input the result is
    empty.  This holds for every queue that meets the contract of
    [std::priority_queue] under [CompareArea]. *)
Theorem cascade_union_smallest_first (polygons : list Polygon) :
  match polygons with
  | [] => cascade_union area multi_polygon_union polygons = []
  | _ =>
      cascade ((λ p, [p]) <$> polygons)
        (cascade_union_traced area multi_polygon_union polygons).2
        (cascade_union area multi_polygon_union polygons)
  end.
Proof.
  destruct polygons as [|p ps] eqn:Hp; [done|]. rewrite <- Hp.
  destruct (cascade_union_traced_spec polygons) as (q & log & _ & Htr & [r Hr] & _ & Hcas);
    [by rewrite Hp|].
  unfold cascade_union. rewrite Htr, Hr. simpl. by apply Hcas.
Qed.

(** C8: the empty input gives the empty output, and a single polygon is
    returned as it is, with no call to the union. *)
Theorem cascade_union_trivial (p : Polygon) :
  cascade_union area multi_polygon_union [] = [] ∧
  cascade_union area multi_polygon_union [p] = [p] ∧
  (cascade_union_traced area multi_polygon_union [p]).2 = [].
Proof.
  split; [done|].
  destruct (cascade_union_traced_spec [p]) as (q & log & _ & Htr & [r Hr] & Hlen & Hcas);
    [done|].
  unfold cascade_union. rewrite Htr, Hr. simpl in *.
  destruct log; [|done]. split; [|done].
  specialize (Hcas r Hr). by inversion Hcas.
Qed.

(** C10: [cascade_union] ends on every input (the loop is defined by
    recursion on the size of the queue).  On [n >= 1] polygons the
    queue holds [n] elements when the loop begins; what
    [cascade_union] returns is the top of the queue the loop ends
    with, which holds one element, and the unions it made are those of
    the loop, [n - 1] of them.  As long as more than one element is
    queued, an iteration finds two elements to pop, pushes their union
    and leaves the queue one element shorter; with one element or none
    the loop stops. *)
Theorem cascade_union_terminates (polygons : list Polygon) :
  let q0 := foldl (λ q item, pq_push area [item] q) (pq_empty area) polygons in
  (polygons ≠ [] →
   pq_size area q0 = length polygons ∧
   ∃ q log,
     loop q0 [] = (q, log) ∧
     cascade_union_traced area multi_polygon_union polygons
       = (default [] (pq_top area q), log) ∧
     pq_size area q = 1 ∧
     is_Some (pq_top area q) ∧
     length log = length polygons - 1) ∧
  (∀ q log, 1 < pq_size area q →
     ∃ mpoly1 mpoly2,
       pq_top area q = Some mpoly1 ∧
       pq_top area (pq_pop area q) = Some mpoly2 ∧
       let q' := pq_push area (multi_polygon_union mpoly1 mpoly2)
                   (pq_pop area (pq_pop area q)) in
       loop q log = loop q' (log ++ [(mpoly1, mpoly2)]) ∧
       S (pq_size area q') = pq_size area q) ∧
  (∀ q log, pq_size area q ≤ 1 → loop q log = (q, log)).
Proof.
  intros q0. split_and!.
  - intros Hne.
    assert (pq_size area q0 = length polygons) as Hsize.
    { unfold q0. by rewrite pq_size_elems, pushes_elems, pq_empty_elems, app_nil_r,
        length_fmap. }
    split; [done|].
    destruct (cascade_union_traced_spec polygons Hne)
      as (q & log & Hloop & Htr & Hsome & Hlen & _).
    fold q0 in Hloop.
    destruct (cascade_loop_spec (length polygons - 1) q0 [])
      as (q' & log' & Hloop' & Hone & _).
    { rewrite Hsize. destruct polygons; [done|simpl; lia]. }
    rewrite Hloop in Hloop'. injection Hloop' as <- _.
    by exists q, log.
  - intros q log Hq. destruct (cascade_pops q Hq) as (m1 & m2 & H1 & H2 & Hs).
    exists m1, m2. split_and!; [done..|]. cbv zeta. split; [|done].
    rewrite (cascade_loop_once q), H1, H2.
    by replace (1 <? pq_size area q) with true by (symmetry; apply Nat.ltb_lt; lia).
  - intros q log Hq. rewrite cascade_loop_once.
    by replace (1 <? pq_size area q) with false by (symmetry; apply Nat.ltb_ge; lia).
Qed.

End Facts.

Import ListQueue.

Example cascade_union_line :
  cascade_union_traced Line.area Line.union [(0, 4); (10, 11); (3, 6); (11, 13)]%Z
  = ([(0, 6); (10, 13)]%Z,
     [([(10, 11)], [(11, 13)]); ([(10, 13)], [(3, 6)]); ([(0, 4)], [(3, 6); (10, 13)])]%Z).
Proof. vm_compute. reflexivity. Qed.

Lemma cascade_union_terminates_witness :
  pq_size Line.area
    (foldl (λ q item, pq_push Line.area [item] q) (pq_empty Line.area)
       [(0, 4); (10, 11); (3, 6)]%Z)
    = length [(0, 4); (10, 11); (3, 6)]%Z ∧
  ∃ q log,
    cascade_loop Line.area Line.union
      (foldl (λ q item, pq_push Line.area [item] q) (pq_empty Line.area)
         [(0, 4); (10, 11); (3, 6)]%Z) [] = (q, log) ∧
    cascade_union_traced Line.area Line.union [(0, 4); (10, 11); (3, 6)]%Z
      = (default [] (pq_top Line.area q), log) ∧
    pq_size Line.area q = 1 ∧
    is_Some (pq_top Line.area q) ∧
    length log = length [(0, 4); (10, 11); (3, 6)]%Z - 1.
Proof.
  destruct (cascade_union_terminates Line.area Line.union [(0, 4); (10, 11); (3, 6)]%Z)
    as (H & _ & _).
  apply H. discriminate.
Defined.

End CascadeFacts.

(** ** Facts about the executor *)

Module ExecutorFacts.
Import ParallelFor Executor ParallelForFacts.

Section Facts.
Context {Sh L E : Type}.
Variable enter : nat → nat → L.
Variable wstep : L → Sh → status L E * Sh.

Abbreviation step := (step wstep).
Abbreviation exec := (exec wstep).

Lemma exec_cons i sched c : exec (i :: sched) c = exec sched (step i c).
Proof. done. Qed.

Lemma exec_app s1 s2 c : exec (s1 ++ s2) c = exec s2 (exec s1 c).
Proof. apply foldl_app. Qed.

(** A property kept by every step is kept by every schedule. *)
Lemma exec_invariant (Inv : state Sh L E → Prop) :
  (∀ i c, Inv c → Inv (step i c)) →
  ∀ sched c, Inv c → Inv (exec sched c).
Proof.
  intros Hstep sched; induction sched as [|i sched IH]; intros c Hc; [done|].
  rewrite exec_cons. by apply IH, Hstep.
Qed.

Lemma step_length i c : length (threads (step i c)) = length (threads c).
Proof.
  unfold Executor.step. destruct (threads c !! i) as [[l|e|r|]|]; try done.
  - destruct (wstep l (shared c)) as [st sh]. simpl. by rewrite length_insert.
  - simpl. by rewrite length_insert.
Qed.

Lemma exec_length sched c : length (threads (exec sched c)) = length (threads c).
Proof.
  apply (exec_invariant (λ c', length (threads c') = length (threads c))); [|done].
  intros i c' <-. apply step_length.
Qed.

(** A step of thread [i] leaves every other thread where it is. *)
Lemma step_frame i j c : i ≠ j → threads (step i c) !! j = threads c !! j.
Proof.
  intros Hij. unfold Executor.step. destruct (threads c !! i) as [[l|e|r|]|]; try done.
  - destruct (wstep l (shared c)) as [st sh]. simpl. by rewrite list_lookup_insert_ne.
  - simpl. by rewrite list_lookup_insert_ne.
Qed.

(** A thread that has finished stays so. *)
Lemma step_finished i j c r :
  threads c !! j = Some (Finished r) → threads (step i c) !! j = Some (Finished r).
Proof.
  intros Hj. destruct (decide (i = j)) as [->|Hij]; [|by rewrite step_frame].
  unfold Executor.step. by rewrite Hj.
Qed.

(** The exception slot and the finished threads agree. *)
Definition slot_ok (c : state Sh L E) : Prop :=
  (∀ e, exception c = Some e → Finished (Some e) ∈ threads c) ∧
  (∀ e, Finished (Some e) ∈ threads c → is_Some (exception c)).

Lemma step_slot_ok i c : slot_ok c → slot_ok (step i c).
Proof.
  intros [H1 H2]. unfold Executor.step.
  destruct (threads c !! i) as [[l|e|r|]|] eqn:Hi; try done.
  - destruct (wstep l (shared c)) as [st sh]. split; simpl.
    + intros e He. pose proof (H1 e He) as [j Hj]%list_elem_of_lookup.
      apply list_elem_of_lookup. exists j.
      rewrite list_lookup_insert_ne; [done|]. intros <-. congruence.
    + intros e [j Hj]%list_elem_of_lookup.
      destruct (decide (i = j)) as [<-|Hij].
      * rewrite list_lookup_insert_eq in Hj by (by eapply lookup_lt_Some).
        by destruct st.
      * rewrite list_lookup_insert_ne in Hj by done.
        apply (H2 e), list_elem_of_lookup. by exists j.
  - split; simpl.
    + intros e' [= <-]. apply list_elem_of_lookup. exists i.
      apply list_lookup_insert_eq. by eapply lookup_lt_Some.
    + intros; by eexists.
Qed.

Lemma spawn_slot_ok sh ranges : slot_ok (spawn enter sh ranges).
Proof.
  split; [done|]. intros e [r [Heq _]]%list_elem_of_fmap. done.
Qed.

Lemma joined_Forall (c : state Sh L E) :
  joined c = true ↔ Forall (λ t, ∃ r, t = Finished r) (threads c).
Proof.
  unfold joined. rewrite forallb_forall, Forall_forall.
  split; intros H t Ht.
  - apply list_elem_of_In, H in Ht. destruct t; try done. by eexists.
  - apply list_elem_of_In, H in Ht as [r ->]. done.
Qed.

(** A broken thread stays broken, so a property that steps keep unless
    a thread breaks holds in every state without a broken thread. *)
Definition broken (c : state Sh L E) : Prop := Broken ∈ threads c.

Lemma step_broken i c : broken c → broken (step i c).
Proof.
  unfold broken. intros [j Hj]%list_elem_of_lookup. apply list_elem_of_lookup. exists j.
  destruct (decide (i = j)) as [->|Hij]; [|by rewrite step_frame].
  unfold Executor.step. by rewrite Hj.
Qed.

Lemma exec_invariant_unless_broken (Inv : state Sh L E → Prop) :
  (∀ i c, Inv c → broken (step i c) ∨ Inv (step i c)) →
  ∀ sched c, Inv c → broken (exec sched c) ∨ Inv (exec sched c).
Proof.
  intros Hstep sched c Hc.
  apply (exec_invariant (λ c, broken c ∨ Inv c)); [|by right].
  intros i c' [Hb|Hinv]; [left; by apply step_broken|by apply Hstep].
Qed.

Lemma joined_not_broken (c : state Sh L E) : joined c = true → ¬ broken c.
Proof.
  intros Hj%joined_Forall Hb. rewrite Forall_forall in Hj.
  by destruct (Hj _ Hb).
Qed.

Lemma step_work i c l st sh' :
  threads c !! i = Some (Work l) → wstep l (shared c) = (st, sh') →
  step i c = State sh' (exception c) (<[i := after st]> (threads c)).
Proof. intros Hi Hst. unfold Executor.step. by rewrite Hi, Hst. Qed.

Lemma step_idle i c :
  (∀ l, threads c !! i ≠ Some (Work l)) → (∀ e, threads c !! i ≠ Some (Catch e)) →
  step i c = c.
Proof.
  intros Hw Hc. unfold Executor.step.
  destruct (threads c !! i) as [[l|e|r|]|]; try done.
  - by destruct (Hw l).
  - by destruct (Hc e).
Qed.

(** *** Progress *)

(** With a measure that every step of a worker call decreases, a
    thread finishes or breaks within [measure + 2] of its own steps,
    whatever the other threads do. *)
Variable measure : L → nat.
Hypothesis measure_decreases :
  ∀ l sh l' sh', wstep l sh = (Running l', sh') → measure l' < measure l.

Definition remaining (t : thread L E) : nat :=
  match t with
  | Work l => measure l + 2
  | Catch _ => 1
  | Finished _ | Broken => 0
  end.

Definition remaining_at (c : state Sh L E) (j : nat) : nat :=
  from_option remaining 0 (threads c !! j).

Lemma step_remaining_self i c :
  remaining_at (step i c) i ≤ remaining_at c i - 1.
Proof.
  unfold remaining_at, Executor.step.
  destruct (threads c !! i) as [[l|e|r|]|] eqn:Hi; simpl; rewrite ?Hi; simpl; try lia.
  - destruct (wstep l (shared c)) as [st sh] eqn:Hst. simpl.
    rewrite list_lookup_insert_eq by (by eapply lookup_lt_Some).
    destruct st as [l'| |e|]; simpl; try lia.
    apply measure_decreases in Hst. lia.
  - rewrite list_lookup_insert_eq by (by eapply lookup_lt_Some). simpl. lia.
Qed.

Lemma exec_remaining sched : ∀ c j,
  remaining_at (exec sched c) j ≤ remaining_at c j - count_occ Nat.eq_dec sched j.
Proof.
  induction sched as [|i sched IH]; intros c j; [simpl; lia|].
  rewrite exec_cons. etrans; [apply IH|]. simpl.
  destruct (Nat.eq_dec i j) as [->|Hij].
  - pose proof (step_remaining_self j c). lia.
  - unfold remaining_at. rewrite step_frame by done. lia.
Qed.

(** Every thread gets at least [k] steps in [sched]. *)
Definition gives_each (k count : nat) (sched : list nat) : Prop :=
  ∀ j, j < count → k ≤ count_occ Nat.eq_dec sched j.

Lemma exec_settles sched c k :
  (∀ j, remaining_at c j ≤ k) →
  gives_each k (length (threads c)) sched →
  Forall (λ t, remaining t = 0) (threads (exec sched c)).
Proof.
  intros Hk Hsched. apply Forall_lookup. intros j t Hj.
  assert (j < length (threads c)) as Hlt.
  { apply lookup_lt_Some in Hj. by rewrite exec_length in Hj. }
  pose proof (exec_remaining sched c j) as Hrem.
  unfold remaining_at at 1 in Hrem. rewrite Hj in Hrem. simpl in Hrem.
  specialize (Hk j). specialize (Hsched j Hlt). lia.
Qed.

Lemma in_turn_gives_each k count : gives_each k count (in_turn k count).
Proof.
  intros j Hj. unfold in_turn.
  assert (∀ base n, base ≤ j < base + n →
    k ≤ count_occ Nat.eq_dec (concat (map (replicate k) (seq base n))) j) as Hgen.
  { intros base n; revert base; induction n as [|n IH]; intros base Hb; [lia|].
    simpl. rewrite count_occ_app.
    destruct (decide (base = j)) as [->|Hne].
    - assert (count_occ Nat.eq_dec (replicate k j) j = k) as ->; [|lia].
      clear. induction k as [|k IH]; simpl; [done|].
      destruct (Nat.eq_dec j j); [by rewrite IH|done].
    - specialize (IH (S base) ltac:(lia)). lia. }
  apply Hgen. lia.
Qed.

End Facts.

(** *** How the worker calls end *)

Section Ends.
Context {Sh L E : Type}.
Variable enter : nat → nat → L.
Variable wstep : L → Sh → status L E * Sh.

Abbreviation step := (Executor.step wstep).
Abbreviation exec := (Executor.exec wstep).

(** At some point of the schedule thread [j] takes a step of its worker
    call, and the step ends as [st] says. *)
Definition ends_with (st : status L E) (sched : list nat) (c0 : state Sh L E) (j : nat)
    : Prop :=
  ∃ s1 s2 l,
    sched = s1 ++ j :: s2 ∧
    threads (exec s1 c0) !! j = Some (Work l) ∧
    (wstep l (shared (exec s1 c0))).1 = st.

(** The worker call of thread [j] returns; it raises [e]. *)
Definition returns (sched : list nat) (c0 : state Sh L E) (j : nat) : Prop :=
  ends_with Returned sched c0 j.

Definition raises (sched : list nat) (c0 : state Sh L E) (j : nat) (e : E) : Prop :=
  ends_with (Raised e) sched c0 j.

Lemma ends_with_snoc st sched c0 j i :
  ends_with st sched c0 j → ends_with st (sched ++ [i]) c0 j.
Proof.
  intros (s1 & s2 & l & -> & Hl & Hst). exists s1, (s2 ++ [i]), l.
  split; [by rewrite <- app_assoc|done].
Qed.

(** A thread that has caught [e], or has finished after catching it. *)
Definition caught (e : E) (t : thread L E) : Prop :=
  t = Catch e ∨ t = Finished (Some e).

Lemma step_caught i c j e t :
  threads c !! j = Some t → caught e t →
  ∃ t', threads (step i c) !! j = Some t' ∧ caught e t'.
Proof.
  intros Hj Hc. destruct (decide (i = j)) as [->|Hne].
  - unfold Executor.step. rewrite Hj. destruct Hc as [-> | ->].
    + simpl. rewrite list_lookup_insert_eq by (by eapply lookup_lt_Some).
      eexists. split; [done|by right].
    + exists (Finished (Some e)). split; [done|by right].
  - exists t. split; [|done]. by rewrite (step_frame wstep) by done.
Qed.

Lemma exec_caught sched : ∀ c j e t,
  threads c !! j = Some t → caught e t →
  ∃ t', threads (exec sched c) !! j = Some t' ∧ caught e t'.
Proof.
  induction sched as [|i sched IH]; intros c j e t Hj Hc; [by exists t|].
  rewrite exec_cons. destruct (step_caught i c j e t Hj Hc) as (t' & Hj' & Hc').
  by eapply IH.
Qed.

Lemma exec_finished sched : ∀ c j r,
  threads c !! j = Some (Finished r) → threads (exec sched c) !! j = Some (Finished r).
Proof.
  induction sched as [|i sched IH]; intros c j r Hj; [done|].
  rewrite exec_cons. apply IH. by apply step_finished.
Qed.

(** A call that raised is caught by its thread; a call that returned
    leaves its thread finished with nothing caught. *)
Lemma raises_caught sched c0 j e :
  raises sched c0 j e →
  ∃ t, threads (exec sched c0) !! j = Some t ∧ caught e t.
Proof.
  intros (s1 & s2 & l & -> & Hl & Hst).
  rewrite exec_app, exec_cons. apply (exec_caught s2 _ j e (Catch e)); [|by left].
  destruct (wstep l (shared (exec s1 c0))) as [st sh'] eqn:Hw. simpl in Hst. subst st.
  rewrite (step_work wstep j _ l (Raised e) sh' Hl Hw). simpl.
  apply list_lookup_insert_eq. by eapply lookup_lt_Some.
Qed.

Lemma returns_finished sched c0 j :
  returns sched c0 j → threads (exec sched c0) !! j = Some (Finished None).
Proof.
  intros (s1 & s2 & l & -> & Hl & Hst).
  rewrite exec_app, exec_cons. apply exec_finished.
  destruct (wstep l (shared (exec s1 c0))) as [st sh'] eqn:Hw. simpl in Hst. subst st.
  rewrite (step_work wstep j _ l Returned sh' Hl Hw). simpl.
  apply list_lookup_insert_eq. by eapply lookup_lt_Some.
Qed.

(** What the state of a thread says about its worker call. *)
Definition told (sched : list nat) (c0 : state Sh L E) (j : nat) (t : thread L E) : Prop :=
  match t with
  | Catch e | Finished (Some e) => raises sched c0 j e
  | Finished None => returns sched c0 j
  | Work _ | Broken => True
  end.

Lemma told_snoc sched c0 j t i : told sched c0 j t → told (sched ++ [i]) c0 j t.
Proof. destruct t as [l|e|[e|]|]; simpl; try done; apply ends_with_snoc. Qed.

Lemma exec_told sched c0 :
  Forall (λ t, ∃ l, t = Work l) (threads c0) →
  ∀ j t, threads (exec sched c0) !! j = Some t → told sched c0 j t.
Proof.
  intros Hfresh. induction sched as [|i sched IH] using rev_ind; intros j t Hj.
  - simpl in Hj. rewrite Forall_forall in Hfresh.
    destruct (Hfresh t) as [l ->]; [by eapply list_elem_of_lookup_2|done].
  - rewrite exec_app in Hj. simpl in Hj. set (c := exec sched c0) in *.
    destruct (decide (i = j)) as [->|Hne].
    2:{ rewrite (step_frame wstep) in Hj by done. by apply told_snoc, IH. }
    unfold Executor.step in Hj.
    destruct (threads c !! j) as [[l|e|r|]|] eqn:Hold.
    + destruct (wstep l (shared c)) as [st sh'] eqn:Hw. simpl in Hj.
      rewrite list_lookup_insert_eq in Hj by (by eapply lookup_lt_Some).
      injection Hj as <-.
      destruct st as [l'| |e|]; simpl; [done| | |done].
      * exists sched, [], l. split; [done|]. split; [done|]. fold c. by rewrite Hw.
      * exists sched, [], l. split; [done|]. split; [done|]. fold c. by rewrite Hw.
    + simpl in Hj. rewrite list_lookup_insert_eq in Hj by (by eapply lookup_lt_Some).
      injection Hj as <-. simpl. apply ends_with_snoc. by apply (IH j (Catch e)).
    + rewrite Hold in Hj. injection Hj as <-. by apply told_snoc, IH.
    + rewrite Hold in Hj. injection Hj as <-. done.
    + by rewrite Hold in Hj.
Qed.

(** *** Progress, for the states a run goes through *)

(** [Inv] holds of the states of a run; in such a state a step of a
    worker call is defined and, if the call goes on, decreases
    [measure]. *)
Definition guarded (measure : L → nat) (Inv : state Sh L E → Prop) : Prop :=
  (∀ i c, Inv c → Inv (step i c)) ∧
  (∀ i c l, Inv c → threads c !! i = Some (Work l) →
     match (wstep l (shared c)).1 with
     | Running l' => measure l' < measure l
     | Undefined => False
     | _ => True
     end).

Lemma guarded_step measure Inv i c :
  guarded measure Inv → Inv c → ¬ broken c →
  ¬ broken (step i c) ∧
  remaining_at measure (step i c) i ≤ remaining_at measure c i - 1.
Proof.
  intros [_ Hsafe] Hinv Hc. unfold remaining_at, Executor.step, broken in *.
  destruct (threads c !! i) as [[l|e|r|]|] eqn:Hi; simpl; rewrite ?Hi; simpl;
    try (split; [done|lia]).
  - specialize (Hsafe i c l Hinv Hi).
    destruct (wstep l (shared c)) as [st sh'] eqn:Hst. simpl in *.
    rewrite list_lookup_insert_eq by (by eapply lookup_lt_Some). split.
    + intros [j Hj]%list_elem_of_lookup. destruct (decide (i = j)) as [->|Hij].
      * rewrite list_lookup_insert_eq in Hj by (by eapply lookup_lt_Some).
        by destruct st.
      * rewrite list_lookup_insert_ne in Hj by done.
        apply Hc. by eapply list_elem_of_lookup_2.
    + destruct st as [l'| |e|]; simpl; lia.
  - rewrite list_lookup_insert_eq by (by eapply lookup_lt_Some). split; [|simpl; lia].
    intros [j Hj]%list_elem_of_lookup. destruct (decide (i = j)) as [->|Hij].
    + by rewrite list_lookup_insert_eq in Hj by (by eapply lookup_lt_Some).
    + rewrite list_lookup_insert_ne in Hj by done.
      apply Hc. by eapply list_elem_of_lookup_2.
Qed.

Lemma guarded_exec measure Inv sched : ∀ c,
  guarded measure Inv → Inv c → ¬ broken c →
  Inv (exec sched c) ∧ ¬ broken (exec sched c) ∧
  ∀ j, remaining_at measure (exec sched c) j
       ≤ remaining_at measure c j - count_occ Nat.eq_dec sched j.
Proof.
  induction sched as [|i sched IH]; intros c Hg Hinv Hc.
  - split; [done|]. split; [done|]. intros j. simpl. lia.
  - rewrite exec_cons. destruct (guarded_step measure Inv i c Hg Hinv Hc) as [Hc' Hself].
    destruct (IH (step i c) Hg) as (Hinv'' & Hc'' & Hrem); [by apply Hg|done|].
    split; [done|]. split; [done|]. intros j. etrans; [apply Hrem|]. simpl.
    destruct (Nat.eq_dec i j) as [->|Hij]; [lia|].
    unfold remaining_at. rewrite (step_frame wstep) by done. lia.
Qed.

(** With at least one thread to run, under a schedule that gives each
    thread its turns, every thread is joined. *)
Lemma parallel_for_state_joins measure Inv k hw sh size num_threads min_size sched :
  let n := if num_threads =? 0 then hw else num_threads in
  (∀ ranges, ranges_of (schedule_plan hw size num_threads min_size) = Some ranges →
     Inv (spawn enter sh ranges) ∧
     Forall (λ r, measure (enter r.1 r.2) ≤ k) ranges) →
  guarded measure Inv →
  0 < n →
  gives_each (k + 2) n sched →
  ∃ c, parallel_for_state enter wstep hw sh size num_threads min_size sched = Some c ∧
       Inv c.
Proof.
  intros n Hinit Hg Hn Hsched. unfold parallel_for_state.
  destruct (ranges_of _) as [ranges|] eqn:Hplan.
  2:{ unfold schedule_plan in Hplan. fold n in Hplan.
      destruct ((n =? 1) || (size <=? min_size)); [done|].
      by destruct (Nat.eqb_spec n 0) as [|_]; [lia|]. }
  simpl. destruct (Hinit ranges eq_refl) as [Hinv Hbound].
  apply plan_ranges in Hplan as (_ & _ & Hcount). fold n in Hcount.
  set (c0 := spawn enter sh ranges) in *.
  assert (¬ broken c0) as Hc0.
  { unfold broken, c0. simpl. by intros (r & Hr & _)%list_elem_of_fmap. }
  destruct (guarded_exec measure Inv sched c0 Hg Hinv Hc0) as (Hinv' & Hsafe & Hrem).
  assert (joined (exec sched c0) = true) as ->; [|by eexists].
  apply joined_Forall, Forall_lookup. intros j t Hj.
  assert (j < length ranges) as Hlt.
  { apply lookup_lt_Some in Hj. rewrite exec_length in Hj. unfold c0 in Hj. simpl in Hj.
    by rewrite length_fmap in Hj. }
  assert (remaining_at measure c0 j ≤ k + 2) as Hstart.
  { unfold remaining_at, c0. simpl. rewrite list_lookup_fmap.
    destruct (ranges !! j) as [r|] eqn:Hr; simpl; [|lia].
    eapply Forall_lookup_1 in Hbound; [|exact Hr]. simpl in Hbound. lia. }
  assert (k + 2 ≤ count_occ Nat.eq_dec sched j) as Hturns by (apply Hsched; lia).
  specialize (Hrem j). unfold remaining_at at 1 in Hrem. rewrite Hj in Hrem.
  destruct t as [l|e|r|]; [simpl in Hrem; lia|simpl in Hrem; lia|by eexists|].
  destruct Hsafe. by eapply list_elem_of_lookup_2.
Qed.

(** C5: when [parallel_for] comes back, every worker call has run to
    its own end, a return or a raise, whatever its siblings did; if one
    or more calls raised, exactly one exception is rethrown, and it is
    one that a call raised; if no call raised, [parallel_for] returns
    normally.  It does come back under every schedule that gives each
    thread its turns, when there is at least one thread to run and the
    worker calls end (steps defined, [measure] decreasing, in the
    states [Inv] of a run).  With no thread to run (a thread count of 0
    and 0 hardware threads) and a size above the minimum, the size is
    divided by 0 and nothing is returned. *)
Theorem parallel_for_rethrows hw sh size num_threads min_size sched :
  let n := if num_threads =? 0 then hw else num_threads in
  (∀ c, parallel_for_state enter wstep hw sh size num_threads min_size sched = Some c →
     ∃ ranges,
       ranges_of (schedule_plan hw size num_threads min_size) = Some ranges ∧
       c = exec sched (spawn enter sh ranges) ∧
       parallel_for enter wstep hw sh size num_threads min_size sched
         = Some (outcome_of c, shared c) ∧
       (∀ j, j < length ranges →
          returns sched (spawn enter sh ranges) j ∨
          ∃ e, raises sched (spawn enter sh ranges) j e) ∧
       (∀ j e, raises sched (spawn enter sh ranges) j e →
          ∃ j' e', raises sched (spawn enter sh ranges) j' e' ∧
                   outcome_of c = Rethrow e') ∧
       (∀ e, outcome_of c = Rethrow e → ∃ j, raises sched (spawn enter sh ranges) j e) ∧
       ((∀ j e, ¬ raises sched (spawn enter sh ranges) j e) → outcome_of c = Return)) ∧
  (∀ (measure : L → nat) (Inv : state Sh L E → Prop) k,
     (∀ ranges, ranges_of (schedule_plan hw size num_threads min_size) = Some ranges →
        Inv (spawn enter sh ranges) ∧
        Forall (λ r, measure (enter r.1 r.2) ≤ k) ranges) →
     guarded measure Inv →
     0 < n →
     gives_each (k + 2) n sched →
     is_Some (parallel_for_state enter wstep hw sh size num_threads min_size sched)) ∧
  (n = 0 → min_size < size →
   parallel_for enter wstep hw sh size num_threads min_size sched = None).
Proof.
  intros n. split_and!.
  - intros c Hrun. unfold parallel_for. rewrite Hrun. simpl.
    unfold parallel_for_state in Hrun.
    destruct (ranges_of _) as [ranges|]; [|done]. simpl in Hrun.
    destruct (joined _) eqn:Hj; [|done]. injection Hrun as <-.
    set (c0 := spawn enter sh ranges) in *. set (c := Executor.exec wstep sched c0) in *.
    exists ranges. split; [done|]. split; [done|]. split; [done|].
    assert (slot_ok c) as [Hs1 Hs2].
    { apply (exec_invariant wstep slot_ok); [apply step_slot_ok|apply spawn_slot_ok]. }
    apply joined_Forall in Hj. rewrite Forall_forall in Hj.
    assert (∀ j t, threads c !! j = Some t → told sched c0 j t) as Htold.
    { apply exec_told. unfold c0. simpl. apply Forall_fmap, Forall_true.
      intros r. by eexists. }
    assert (∀ e, exception c = Some e → ∃ j, raises sched c0 j e) as Hfrom.
    { intros e He. apply Hs1, list_elem_of_lookup in He as [j Hj'].
      exists j. by apply (Htold j _ Hj'). }
    assert (∀ j e, raises sched c0 j e → is_Some (exception c)) as Hto.
    { intros j e (t & Ht & Hc)%raises_caught. apply (Hs2 e).
      destruct (Hj t) as [r ->]; [by eapply list_elem_of_lookup_2|].
      destruct Hc as [Hc|Hc]; [done|]. rewrite Hc in Ht. by eapply list_elem_of_lookup_2. }
    split_and!.
    + intros j Hlt.
      destruct (lookup_lt_is_Some_2 (threads c) j) as [t Ht].
      { unfold c. rewrite exec_length. unfold c0. simpl. by rewrite length_fmap. }
      specialize (Htold j t Ht).
      destruct (Hj t) as [[e|] ->]; [by eapply list_elem_of_lookup_2| |]; simpl in Htold.
      * right. by exists e.
      * by left.
    + intros j e [e' He']%Hto. destruct (Hfrom e' He') as [j' Hj'].
      exists j', e'. split; [done|]. unfold outcome_of. by rewrite He'.
    + unfold outcome_of. intros e He. destruct (exception c) as [e'|] eqn:He'; [|done].
      injection He as <-. by apply Hfrom.
    + intros Hnone. unfold outcome_of. destruct (exception c) as [e|] eqn:He; [|done].
      destruct (Hfrom e eq_refl) as [j Hj']. by destruct (Hnone j e).
  - intros measure Inv k Hinit Hg Hn Hsched.
    destruct (parallel_for_state_joins measure Inv k hw sh size num_threads min_size sched
                Hinit Hg Hn Hsched) as (c & -> & _).
    by eexists.
  - intros Hn Hsize. unfold parallel_for, parallel_for_state, schedule_plan. fold n.
    rewrite Hn. simpl.
    destruct (Nat.leb_spec size min_size); [lia|]. done.
Qed.

End Ends.

Lemma parallel_for_rethrows_witness :
  let c := @State unit (nat * nat) nat tt (Some 2)
             [Finished None; Finished (Some 2); Finished None; Finished None] in
  is_Some (parallel_for_state Demo.picky_enter (Demo.picky_step 3) 8 tt 8 4 1 (in_turn 2 4)) ∧
  ∃ ranges,
    ranges_of (schedule_plan 8 8 4 1) = Some ranges ∧
    c = Executor.exec (Demo.picky_step 3) (in_turn 2 4) (spawn Demo.picky_enter tt ranges) ∧
    parallel_for Demo.picky_enter (Demo.picky_step 3) 8 tt 8 4 1 (in_turn 2 4)
      = Some (outcome_of c, shared c) ∧
    (∀ j, j < length ranges →
       returns (Demo.picky_step 3) (in_turn 2 4) (spawn Demo.picky_enter tt ranges) j ∨
       ∃ e, raises (Demo.picky_step 3) (in_turn 2 4) (spawn Demo.picky_enter tt ranges) j e) ∧
    (∀ j e, raises (Demo.picky_step 3) (in_turn 2 4) (spawn Demo.picky_enter tt ranges) j e →
       ∃ j' e',
         raises (Demo.picky_step 3) (in_turn 2 4) (spawn Demo.picky_enter tt ranges) j' e' ∧
         outcome_of c = Rethrow e') ∧
    (∀ e, outcome_of c = Rethrow e →
       ∃ j, raises (Demo.picky_step 3) (in_turn 2 4) (spawn Demo.picky_enter tt ranges) j e) ∧
    ((∀ j e, ¬ raises (Demo.picky_step 3) (in_turn 2 4)
                 (spawn Demo.picky_enter tt ranges) j e) →
     outcome_of c = Return).
Proof.
  intros c.
  destruct (parallel_for_rethrows Demo.picky_enter (Demo.picky_step 3) 8 tt 8 4 1
              (in_turn 2 4)) as (Hsafe & Hprogress & _).
  split.
  - apply (Hprogress (λ _, 0) (λ _, True) 0).
    + intros ranges _. split; [done|]. by apply Forall_true.
    + split; [done|]. intros i c' l _ _. unfold Demo.picky_step.
      by destruct ((l.1 <=? 3) && (3 <? l.2)).
    + simpl. lia.
    + apply in_turn_gives_each.
  - apply Hsafe. reflexivity.
Defined.

(** The call that raises in that run is the one whose range holds the
    index 3; its exception is the one rethrown. *)
Example picky_rethrows :
  parallel_for Demo.picky_enter (Demo.picky_step 3) 8 tt 8 4 1 (in_turn 2 4)
    = Some (Rethrow 2, tt) ∧
  raises (Demo.picky_step 3) (in_turn 2 4)
    (spawn Demo.picky_enter tt [(0, 2); (2, 4); (4, 6); (6, 8)]) 1 2.
Proof.
  split; [reflexivity|]. by exists [0; 0], [1; 2; 2; 3; 3], (2, 4).
Qed.

End ExecutorFacts.

(** ** Facts about merge_overlapping *)

Module MergeFacts.
Import ParallelFor Executor Cascade Merge ParallelForFacts ListFacts ExecutorFacts.

Section Facts.
Context {Polygon : Type}.
Abbreviation MultiPolygon := (list Polygon).
Variable area : MultiPolygon → Q.
Variable multi_polygon_union : MultiPolygon → MultiPolygon → MultiPolygon.
Context `{PQ : !PriorityQueue area}.
Variable polygon_union : Polygon → Polygon → list Polygon.

Abbreviation OverlapRecord := (nat * list Polygon)%type.
Abbreviation reduce := (cascade_union area multi_polygon_union).
Abbreviation by_spec := (apply_record_spec area multi_polygon_union polygon_union).
Abbreviation items := (apply_items polygon_union).
Abbreviation mstep := (merge_step area multi_polygon_union polygon_union).

(** The records that pass [if (unioned.empty()) continue], reduced. *)
Definition kept (rs : list OverlapRecord) : list OverlapRecord :=
  omap (λ item, match reduce item.2 with
                | [] => None
                | unioned => Some (item.1, unioned)
                end) rs.

(** The records of [overlap] at the indices [ix, ix + count). *)
Definition slice (overlap : list OverlapRecord) (ix count : nat) : list OverlapRecord :=
  omap (λ i, overlap !! i) (seq ix count).

Lemma merge_loop_spec count : ∀ ix overlap result result',
  merge_loop area multi_polygon_union count ix overlap result = Some result' →
  result' = result ++ kept (slice overlap ix count).
Proof.
  induction count as [|k IH]; intros ix overlap result result'; simpl.
  - intros [= <-]. by rewrite app_nil_r.
  - unfold slice. simpl. destruct (overlap !! ix) as [item|]; [|done]. simpl.
    unfold kept at 1. simpl. fold (kept (slice overlap (S ix) k)).
    destruct (reduce item.2) as [|first others].
    + apply IH.
    + intros ->%IH. by rewrite <- app_assoc.
Qed.

Lemma merge_loop_total count : ∀ ix overlap result,
  ix + count ≤ length overlap →
  is_Some (merge_loop area multi_polygon_union count ix overlap result).
Proof.
  induction count as [|k IH]; intros ix overlap result Hle; simpl; [by eexists|].
  destruct (lookup_lt_is_Some_2 overlap ix) as [item ->]; [lia|]. simpl.
  destruct (reduce item.2); apply IH; lia.
Qed.

Lemma kept_nonempty rs item : item ∈ kept rs → item.2 ≠ [] ∧ item.1 ∈ rs.*1.
Proof.
  unfold kept. intros (r & Hr & Hitem)%list_elem_of_omap.
  destruct (reduce r.2) as [|first others]; [done|]. injection Hitem as <-.
  split; [done|]. simpl. apply list_elem_of_fmap. by exists r.
Qed.

Lemma by_spec_unfold base queued (record : OverlapRecord) :
  by_spec (base, queued) record =
    match reduce record.2 with
    | [] => (base, queued)
    | first_reduced :: other_reduced =>
        match base !! record.1 with
        | None => (base, queued)
        | Some base_polygon =>
            match polygon_union base_polygon first_reduced with
            | [] => (base, queued ++ other_reduced)
            | piece :: pieces =>
                (<[record.1 := piece]> base, queued ++ pieces ++ other_reduced)
            end
        end
    end.
Proof. done. Qed.

(** The locked loop of a worker does to the shared state what the
    specification says of each record of its range. *)
Lemma apply_items_spec rs : ∀ sh sh',
  items sh (kept rs) = Some sh' → sh' = foldl by_spec sh rs.
Proof.
  induction rs as [|record rs IH]; intros sh sh'; simpl; [by intros [= <-]|].
  unfold kept. simpl. fold (kept rs).
  destruct sh as [base queued]. rewrite by_spec_unfold.
  destruct (reduce record.2) as [|first others]; [apply IH|].
  simpl. destruct (base !! record.1) as [base_polygon|]; [|done]. simpl.
  destruct (polygon_union base_polygon first) as [|piece pieces]; intros Hrest.
  - by apply IH in Hrest.
  - apply IH in Hrest. by rewrite <- app_assoc in Hrest.
Qed.

Lemma apply_items_total its : ∀ water extra,
  Forall (λ item : OverlapRecord, item.1 < length water ∧ item.2 ≠ []) its →
  is_Some (items (water, extra) its).
Proof.
  induction its as [|item its IH]; intros water extra Hall; simpl; [by eexists|].
  apply Forall_cons in Hall as [[Hlt Hne] Hall].
  destruct (lookup_lt_is_Some_2 water item.1 Hlt) as [w ->]. simpl.
  destruct item.2 as [|front rest] eqn:Hitem; [done|]. simpl.
  destruct (polygon_union w front) as [|piece pieces]; simpl.
  - by apply IH.
  - apply IH. by rewrite length_insert.
Qed.

(** What a thread still owes: the records of [overlap] it has not yet
    written. *)
Definition pending (overlap : list OverlapRecord) (t : thread (merge_pc Polygon) Empty_set)
    (rs : list OverlapRecord) : Prop :=
  match t with
  | Work (MergeEnter i0 i1) => rs = slice overlap i0 (i1 - i0)
  | Work (MergeLocked unioned_polygons) => unioned_polygons = kept rs
  | Catch _ => False
  | Finished _ => rs = []
  | Broken => True
  end.

Definition merge_inv (water : list Polygon) (overlap : list OverlapRecord)
    (c : state (list Polygon * list Polygon) (merge_pc Polygon) Empty_set) : Prop :=
  ∃ written owed,
    Forall2 (pending overlap) (threads c) owed ∧
    written ++ concat owed ≡ₚ overlap ∧
    shared c = foldl by_spec (water, []) written.

Lemma merge_step_inv water overlap i c :
  merge_inv water overlap c → merge_inv water overlap (Executor.step (mstep overlap) i c).
Proof.
  intros (written & owed & Hall & Hperm & Hsh). unfold Executor.step.
  destruct (threads c !! i) as [t|] eqn:Hi; [|by exists written, owed].
  destruct (Forall2_lookup_l _ _ _ _ _ Hall Hi) as (rs & Hrs & Hpend).
  destruct t as [[i0 i1|unioned_polygons]|[]|r|]; try by exists written, owed.
  - simpl in *. unfold merge_overlapping_range.
    destruct (merge_loop _ _ _ _ _ _) as [u|] eqn:Hloop.
    + exists written, owed. split_and!; [|done..]. simpl.
      rewrite <- (list_insert_id owed i rs Hrs). apply Forall2_insert; [done|].
      simpl. apply merge_loop_spec in Hloop. by subst.
    + exists written, owed. split_and!; [|done..]. simpl.
      rewrite <- (list_insert_id owed i rs Hrs). by apply Forall2_insert.
  - simpl in *. destruct (items (shared c) unioned_polygons) as [sh'|] eqn:Hitems.
    + exists (written ++ rs), (<[i:=[]]> owed). split_and!; simpl.
      * by apply Forall2_insert.
      * rewrite <- Hperm, <- !app_assoc. f_equiv.
        rewrite Permutation_app_comm. by rewrite concat_insert_perm.
      * subst unioned_polygons. apply apply_items_spec in Hitems.
        by rewrite foldl_app, <- Hsh.
    + exists written, owed. split_and!; [|done..]. simpl.
      rewrite <- (list_insert_id owed i rs Hrs). by apply Forall2_insert.
Qed.

Lemma merge_spawn_inv water overlap ranges :
  concat (map indices ranges) = seq 0 (length overlap) →
  merge_inv water overlap (spawn MergeEnter (water, []) ranges).
Proof.
  intros Hcover.
  exists [], ((λ r, slice overlap r.1 (r.2 - r.1)) <$> ranges). split_and!; [|..|done].
  - simpl. apply Forall2_fmap, Forall_Forall2_diag, Forall_forall. by intros [i0 i1] _.
  - simpl.
    assert (concat ((λ r, slice overlap r.1 (r.2 - r.1)) <$> ranges) = overlap) as ->; [|done].
    transitivity (omap (λ i, overlap !! i) (concat (map indices ranges))).
    + by rewrite omap_concat, map_map.
    + rewrite Hcover. apply omap_lookup_seq.
Qed.

(** Every result of [merge_overlapping] is the result of treating the
    records one by one as specified, in the order in which the workers
    took the lock. *)
Lemma merge_overlapping_refines hw water overlap sched result :
  merge_overlapping area multi_polygon_union polygon_union hw water overlap sched
    = Some result →
  ∃ records, records ≡ₚ overlap ∧
    result = merge_spec area multi_polygon_union polygon_union water records.
Proof.
  unfold merge_overlapping, parallel_for, parallel_for_state.
  destruct (ranges_of _) as [ranges|] eqn:Hplan; [|done]. simpl.
  destruct (joined _) eqn:Hj; [|done]. simpl.
  set (c := Executor.exec _ sched _) in *.
  assert (merge_inv water overlap c) as (written & owed & Hall & Hperm & Hsh).
  { apply (exec_invariant _ (merge_inv water overlap)).
    - intros i c'. apply merge_step_inv.
    - apply merge_spawn_inv. by apply plan_ranges in Hplan as [? _]. }
  apply joined_Forall in Hj.
  assert (concat owed = []) as Howed.
  { clear -Hj Hall. induction Hall as [|t rs ts owed Ht _ IH]; [done|].
    apply Forall_cons in Hj as [[r ->] Hj]. simpl in Ht. subst rs. by apply IH. }
  rewrite Howed, app_nil_r in Hperm.
  destruct (shared c) as [water_polygons extra_polygons] eqn:Hc. intros [= <-].
  exists written. split; [done|]. unfold merge_spec. by rewrite <- Hsh.
Qed.

(** *** Slots and queued polygons *)

(** What one record queues, and the piece it puts into its slot, when
    its slot still holds the polygon of [base]. *)
Definition queued_by (base : list Polygon) (record : OverlapRecord) : list Polygon :=
  match reduce record.2 with
  | [] => []
  | first_reduced :: other_reduced =>
      match base !! record.1 with
      | None => []
      | Some base_polygon => tail (polygon_union base_polygon first_reduced) ++ other_reduced
      end
  end.

Definition new_slot (base : list Polygon) (record : OverlapRecord) : option Polygon :=
  match reduce record.2 with
  | [] => None
  | first_reduced :: _ =>
      base_polygon ← base !! record.1;
      head (polygon_union base_polygon first_reduced)
  end.

Lemma by_spec_slots base queued (record : OverlapRecord) :
  ∃ base',
    by_spec (base, queued) record = (base', queued ++ queued_by base record) ∧
    length base' = length base ∧
    (∀ j, j ≠ record.1 → base' !! j = base !! j) ∧
    base' !! record.1 = from_option Some (base !! record.1) (new_slot base record).
Proof.
  rewrite by_spec_unfold. unfold queued_by, new_slot.
  destruct (reduce record.2) as [|first others].
  { exists base. by rewrite app_nil_r. }
  destruct (base !! record.1) as [base_polygon|] eqn:Hslot; simpl.
  2:{ exists base. rewrite app_nil_r, Hslot. done. }
  destruct (polygon_union base_polygon first) as [|piece pieces]; simpl.
  { exists base. by rewrite Hslot. }
  exists (<[record.1:=piece]> base). split_and!; [done|apply length_insert| |].
  - intros j Hj. by rewrite list_lookup_insert_ne.
  - apply list_lookup_insert_eq. by eapply lookup_lt_Some.
Qed.

Lemma queued_by_ext base base' (record : OverlapRecord) :
  base' !! record.1 = base !! record.1 → queued_by base' record = queued_by base record.
Proof. unfold queued_by. by intros ->. Qed.

Lemma new_slot_ext base base' (record : OverlapRecord) :
  base' !! record.1 = base !! record.1 → new_slot base' record = new_slot base record.
Proof. unfold new_slot. by intros ->. Qed.

(** Records with distinct indices: each one meets the polygon that
    [base] had in its slot. *)
Lemma foldl_by_spec_slots rs : ∀ base queued,
  ∃ base',
    length base' = length base ∧
    (∀ j, j ∉ rs.*1 → base' !! j = base !! j) ∧
    (NoDup rs.*1 →
       foldl by_spec (base, queued) rs = (base', queued ++ concat (queued_by base <$> rs)) ∧
       ∀ record, record ∈ rs →
         base' !! record.1 = from_option Some (base !! record.1) (new_slot base record)) ∧
    (foldl by_spec (base, queued) rs).1 = base'.
Proof.
  induction rs as [|r rs IH]; intros base queued.
  { exists base. split_and!; [done|done| |done]. intros _.
    split; [by rewrite app_nil_r|]. by intros record ?%elem_of_nil. }
  destruct (by_spec_slots base queued r) as (base1 & Hstep & Hlen1 & Hframe1 & Hslot1).
  destruct (IH base1 (queued ++ queued_by base r)) as (base' & Hlen & Hframe & Hdist & Hfst).
  exists base'.
  change (foldl by_spec (base, queued) (r :: rs))
    with (foldl by_spec (by_spec (base, queued) r) rs).
  rewrite Hstep, !fmap_cons. split_and!; [congruence| | |done].
  - intros j Hj. apply not_elem_of_cons in Hj as [Hj1 Hj2].
    rewrite Hframe by done. by apply Hframe1.
  - intros [Hr Hnd]%NoDup_cons. destruct (Hdist Hnd) as [Hfold Hslots]. split.
    + assert (queued_by base1 <$> rs = queued_by base <$> rs) as Hsame.
      { apply list_fmap_ext. intros i r' Hr'. apply queued_by_ext, Hframe1.
        intros Heq. apply Hr. rewrite <- Heq. apply list_elem_of_fmap.
        exists r'. split; [done|]. by eapply list_elem_of_lookup_2. }
      by rewrite Hfold, Hsame, <- app_assoc.
    + intros record [->|Hin]%elem_of_cons.
      * by rewrite Hframe.
      * assert (record.1 ≠ r.1) as Hne.
        { intros Heq. apply Hr. rewrite <- Heq. apply list_elem_of_fmap. by exists record. }
        rewrite (Hslots record Hin).
        by rewrite (new_slot_ext base base1), (Hframe1 _ Hne) by (by apply Hframe1).
Qed.

Lemma concat_fmap_perm {A B} (g : A → list B) (l l' : list A) :
  l ≡ₚ l' → concat (g <$> l) ≡ₚ concat (g <$> l').
Proof.
  induction 1 as [|x l l' _ IH|x y l|l l' l'' _ IH1 _ IH2]; simpl.
  - done.
  - by rewrite IH.
  - by rewrite !app_assoc, (Permutation_app_comm (g y)).
  - by rewrite IH1.
Qed.

(** The result of [merge_overlapping], slot by slot. *)
Lemma merge_overlapping_slots hw water overlap sched result :
  merge_overlapping area multi_polygon_union polygon_union hw water overlap sched
    = Some result →
  ∃ base' queued,
    result = base' ++ queued ∧
    length base' = length water ∧
    (∀ j, j ∉ overlap.*1 → base' !! j = water !! j) ∧
    (NoDup overlap.*1 →
       queued ≡ₚ concat (queued_by water <$> overlap) ∧
       ∀ record, record ∈ overlap →
         base' !! record.1 = from_option Some (water !! record.1) (new_slot water record)).
Proof.
  intros (records & Hperm & ->)%merge_overlapping_refines.
  destruct (foldl_by_spec_slots records water []) as (base' & Hlen & Hframe & Hdist & Hfst).
  unfold merge_spec.
  destruct (foldl by_spec (water, []) records) as [base'' queued] eqn:Hfold.
  simpl in Hfst. subst base''. exists base', queued. split_and!; [done|done| |].
  - intros j Hj. apply Hframe. by rewrite Hperm.
  - intros Hnd. rewrite <- Hperm in Hnd. destruct (Hdist Hnd) as [Heq Hslots].
    injection Heq as ->. split.
    + simpl. by apply concat_fmap_perm.
    + intros record Hin. apply Hslots. by rewrite Hperm.
Qed.

(** *** The workers get through *)

Definition merge_ok (water : list Polygon) (overlap : list OverlapRecord)
    (t : thread (merge_pc Polygon) Empty_set) : Prop :=
  match t with
  | Work (MergeEnter i0 i1) => i0 ≤ i1 ∧ i1 ≤ length overlap
  | Work (MergeLocked unioned_polygons) =>
      Forall (λ item : OverlapRecord, item.1 < length water ∧ item.2 ≠ []) unioned_polygons
  | Finished _ => True
  | Catch _ | Broken => False
  end.

Definition merge_safe (water : list Polygon) (overlap : list OverlapRecord)
    (c : state (list Polygon * list Polygon) (merge_pc Polygon) Empty_set) : Prop :=
  Forall (merge_ok water overlap) (threads c) ∧ length (shared c).1 = length water.

Lemma slice_elem overlap ix count (r : OverlapRecord) :
  r ∈ slice overlap ix count → r ∈ overlap.
Proof.
  unfold slice. intros (i & _ & Hi)%list_elem_of_omap. by eapply list_elem_of_lookup_2.
Qed.

Lemma merge_step_safe water overlap i c :
  Forall (λ r : OverlapRecord, r.1 < length water) overlap →
  merge_safe water overlap c → merge_safe water overlap (Executor.step (mstep overlap) i c).
Proof.
  intros Hvalid [Hok Hlen]. unfold Executor.step.
  destruct (threads c !! i) as [t|] eqn:Hi; [|done].
  pose proof (Forall_lookup_1 _ _ _ _ Hok Hi) as Ht.
  destruct t as [[i0 i1|unioned_polygons]|[]|r|]; try done.
  - simpl in *. unfold merge_overlapping_range.
    destruct (merge_loop_total (i1 - i0) i0 overlap []) as [u Hu]; [lia|].
    rewrite Hu. split; [|done]. simpl. apply Forall_insert; [done|]. simpl.
    apply merge_loop_spec in Hu. simpl in Hu. subst u.
    apply Forall_forall. intros item [Hne Hin]%kept_nonempty. split; [|done].
    apply list_elem_of_fmap in Hin as (r & -> & Hr%slice_elem).
    rewrite Forall_forall in Hvalid. by apply Hvalid.
  - simpl in *. destruct (shared c) as [water_polygons extra_polygons] eqn:Hsh.
    simpl in Hlen.
    destruct (apply_items_total unioned_polygons water_polygons extra_polygons)
      as [sh' Hsh']; [by rewrite Hlen|].
    rewrite Hsh'. split; simpl; [by apply Forall_insert|].
    clear -Hsh' Hlen. revert water_polygons extra_polygons Hsh' Hlen.
    induction unioned_polygons as [|item its IH]; intros wp ep; simpl.
    + by intros [= <-].
    + destruct (wp !! item.1) as [w|]; [|done]. simpl.
      destruct (head item.2) as [front|]; [|done]. simpl.
      destruct (polygon_union w front) as [|piece pieces]; intros Hrest Hlen.
      * by eapply IH.
      * eapply IH; [exact Hrest|]. by rewrite length_insert.
Qed.

Definition merge_measure (l : merge_pc Polygon) : nat :=
  match l with
  | MergeEnter _ _ => 1
  | MergeLocked _ => 0
  end.

Lemma merge_measure_decreases overlap l sh l' sh' :
  mstep overlap l sh = (Running l', sh') → merge_measure l' < merge_measure l.
Proof.
  destruct l as [i0 i1|u]; simpl.
  - destruct (merge_overlapping_range _ _ _ _ _); [|done]. intros [= <- _]. simpl. lia.
  - by destruct (items sh u).
Qed.

(** With at least one hardware thread and records that point into
    [water], a schedule that gives each thread three steps lets
    [merge_overlapping] return. *)
Lemma merge_overlapping_returns hw water overlap sched :
  0 < hw →
  Forall (λ r : OverlapRecord, r.1 < length water) overlap →
  gives_each 3 hw sched →
  is_Some (merge_overlapping area multi_polygon_union polygon_union hw water overlap sched).
Proof.
  intros Hhw Hvalid Hsched.
  unfold merge_overlapping, parallel_for, parallel_for_state.
  destruct (ranges_of _) as [ranges|] eqn:Hplan.
  2:{ unfold schedule_plan in Hplan. simpl in Hplan.
      destruct ((hw =? 1) || (length overlap <=? 1)); [done|].
      by destruct (Nat.eqb_spec hw 0) as [|_]; [lia|]. }
  simpl. apply plan_ranges in Hplan as (_ & Hbound & Hcount). simpl in Hcount.
  set (c0 := spawn MergeEnter (water, []) ranges).
  set (c := Executor.exec _ sched c0).
  assert (merge_safe water overlap c) as [Hsafe _].
  { apply (exec_invariant _ (merge_safe water overlap)).
    - intros i c'. by apply merge_step_safe.
    - split; [|done]. simpl. apply Forall_fmap. eapply Forall_impl; [exact Hbound|].
      by intros [i0 i1]. }
  assert (Forall (λ t, remaining merge_measure t = 0) (threads c)) as Hdone.
  { apply (exec_settles (mstep overlap) merge_measure (merge_measure_decreases overlap)
             sched c0 3).
    - intros j. unfold remaining_at, c0. simpl. rewrite list_lookup_fmap.
      destruct (ranges !! j) as [[i0 i1]|]; simpl; lia.
    - intros j Hj. apply Hsched. unfold c0 in Hj. simpl in Hj.
      rewrite length_fmap in Hj. lia. }
  assert (joined c = true) as ->.
  { apply joined_Forall. rewrite Forall_forall in Hsafe, Hdone |- *. intros t Ht.
    specialize (Hsafe t Ht). specialize (Hdone t Ht).
    destruct t as [l|e|r|]; simpl in *; [lia|done|by eexists|done]. }
  simpl. destruct (shared c) as [wp ep]. by eexists.
Qed.

(** C3: [merge_overlapping] returns under every schedule that lets each
    worker take its steps (with records that point into the base
    collection), and what it returns is the base collection after the
    records were treated one by one as specified: the matched polygons
    reduced by [cascade_union], the first reduced polygon united with the
    polygon in the record's slot, the first piece written to the slot,
    the other pieces and the other reduced polygons queued; the queue is
    appended once at the end.  Slots that no record names keep their
    polygon. *)
Theorem merge_overlapping_applies hw water overlap sched :
  (0 < hw → Forall (λ r : OverlapRecord, r.1 < length water) overlap →
   gives_each 3 hw sched →
   is_Some (merge_overlapping area multi_polygon_union polygon_union hw water overlap sched)) ∧
  (∀ result,
     merge_overlapping area multi_polygon_union polygon_union hw water overlap sched
       = Some result →
     (∃ records, records ≡ₚ overlap ∧
        result = merge_spec area multi_polygon_union polygon_union water records) ∧
     (∃ base' queued,
        result = base' ++ queued ∧ length base' = length water ∧
        ∀ j, j ∉ overlap.*1 → base' !! j = water !! j)).
Proof.
  split; [apply merge_overlapping_returns|].
  intros result Hres. split; [by apply merge_overlapping_refines in Hres|].
  apply merge_overlapping_slots in Hres as (base' & queued & -> & Hlen & Hframe & _).
  by exists base', queued.
Qed.

(** C9: a record whose reduced list is empty is dropped before anything
    is written; a record whose union with the base polygon is empty
    leaves the state as it is but for queuing the reduced polygons after
    the first.  In the result (records with distinct indices) the slot
    of such a record holds the base polygon it held before, and the
    record has queued nothing but those reduced polygons. *)
Theorem merge_empty_union_keeps_base :
  (∀ overlap ix (item : OverlapRecord) count result,
     overlap !! ix = Some item → reduce item.2 = [] →
     merge_loop area multi_polygon_union (S count) ix overlap result
       = merge_loop area multi_polygon_union count (S ix) overlap result) ∧
  (∀ water extra (item : OverlapRecord) base_polygon front,
     water !! item.1 = Some base_polygon → head item.2 = Some front →
     polygon_union base_polygon front = [] →
     apply_item polygon_union (water, extra) item = Some (water, extra ++ tail item.2)) ∧
  (∀ hw water overlap sched result (record : OverlapRecord),
     merge_overlapping area multi_polygon_union polygon_union hw water overlap sched
       = Some result →
     NoDup overlap.*1 → record ∈ overlap →
     (reduce record.2 = [] ∨
      ∃ base_polygon first_reduced other_reduced,
        reduce record.2 = first_reduced :: other_reduced ∧
        water !! record.1 = Some base_polygon ∧
        polygon_union base_polygon first_reduced = []) →
     ∃ base' queued,
       result = base' ++ queued ∧ length base' = length water ∧
       base' !! record.1 = water !! record.1 ∧
       queued ≡ₚ concat (queued_by water <$> overlap) ∧
       queued_by water record = tail (reduce record.2)).
Proof.
  split_and!.
  - intros overlap ix item count result Hix Hempty. simpl. rewrite Hix. simpl.
    by rewrite Hempty.
  - intros water extra item base_polygon front Hslot Hfront Hempty.
    unfold apply_item. rewrite Hslot. simpl. rewrite Hfront. simpl. by rewrite Hempty.
  - intros hw water overlap sched result record Hres Hnd Hin Hempty.
    apply merge_overlapping_slots in Hres as (base' & queued & -> & Hlen & _ & Hdist).
    destruct (Hdist Hnd) as [Hq Hslots]. exists base', queued.
    split_and!; [done..| | done |].
    + rewrite (Hslots record Hin). unfold new_slot.
      destruct Hempty as [->|(base_polygon & first & others & -> & Hslot & Hu)]; [done|].
      rewrite Hslot. simpl. by rewrite Hu.
    + unfold queued_by.
      destruct Hempty as [->|(base_polygon & first & others & -> & Hslot & Hu)]; [done|].
      rewrite Hslot. simpl. by rewrite Hu.
Qed.

End Facts.

Import ListQueue.

Example merge_overlapping_line :
  merge_overlapping Line.area Line.union Line.polygon_union 2
    [(0, 4); (10, 12)]%Z [(0, [(3, 6); (5, 8)]%Z); (1, [(20, 21)]%Z)] (in_turn 3 2)
  = Some [(0, 8); (10, 12); (20, 21)]%Z.
Proof. vm_compute. reflexivity. Qed.

Lemma merge_overlapping_applies_witness :
  is_Some (merge_overlapping Line.area Line.union Line.polygon_union 2
             [(0, 4); (10, 12)]%Z [(0, [(3, 6); (5, 8)]%Z); (1, [(20, 21)]%Z)]
             (in_turn 3 2)).
Proof.
  destruct (merge_overlapping_applies Line.area Line.union Line.polygon_union 2
              [(0, 4); (10, 12)]%Z [(0, [(3, 6); (5, 8)]%Z); (1, [(20, 21)]%Z)]
              (in_turn 3 2)) as [H _].
  apply H; [lia| |apply in_turn_gives_each].
  repeat constructor; simpl; lia.
Defined.

Lemma merge_empty_union_keeps_base_witness :
  merge_loop Line.area Line.union 1 0 [(0, [])] []
    = merge_loop Line.area Line.union 0 1 [(0, [])] [].
Proof.
  destruct (merge_empty_union_keeps_base Line.area Line.union Line.polygon_union)
    as [H _].
  apply (H [(0, [])] 0 (0, []) 0 []); reflexivity.
Defined.

End MergeFacts.

(** ** Facts about select_overlap *)

Module SelectFacts.
Import ParallelFor Executor Select ParallelForFacts ListFacts ExecutorFacts.

#[local] Arguments close_record : simpl never.

Section Facts.
Context {Polygon Box : Type}.
Variable deref : nat → Polygon.
Variable return_envelope : Polygon → Box.
Variable box_intersects : Box → Box → bool.
Variable intersects : Polygon → Polygon → bool.
Variable within : Polygon → Polygon → bool.
Variable water : list Polygon.
Variable rtree : list (Box * nat).

Abbreviation PolygonIndex := (Box * nat)%type.
Abbreviation Claim := (nat * list nat)%type.
Abbreviation pc := (select_pc Polygon Box).
Abbreviation local := (nat * pc)%type.
Abbreviation sshared := (gset nat * list Claim)%type.
Abbreviation sstate := (state sshared local Empty_set).
Abbreviation sstep := (select_step deref return_envelope box_intersects intersects within water rtree).
Abbreviation skip := (no_effect deref intersects within).

(** The candidates of a water polygon. *)
Definition cands (water_polygon : Polygon) : list PolygonIndex :=
  query box_intersects rtree (return_envelope water_polygon).

(** *** The steps of a worker, case by case *)

Inductive moves : local → sshared → status local Empty_set → sshared → Prop :=
  | move_outer_skip i1 ix result w S R :
      ix < i1 → water !! ix = Some w → cands w = [] →
      moves (i1, AtOuter ix result) (S, R) (Running (i1, AtOuter (Datatypes.S ix) result)) (S, R)
  | move_outer_enter i1 ix result w S R :
      ix < i1 → water !! ix = Some w → cands w ≠ [] →
      moves (i1, AtOuter ix result) (S, R) (Running (i1, AtInner ix w (cands w) [] result)) (S, R)
  | move_outer_undefined i1 ix result S R :
      ix < i1 → water !! ix = None →
      moves (i1, AtOuter ix result) (S, R) Undefined (S, R)
  | move_outer_done i1 ix result S R :
      i1 ≤ ix →
      moves (i1, AtOuter ix result) (S, R) (Running (i1, AtAppend result)) (S, R)
  | move_inner_close i1 ix w m result S R :
      moves (i1, AtInner ix w [] m result) (S, R) (Running (i1, close_record ix m result)) (S, R)
  | move_inner_skip i1 ix w item rest m result S R :
      item.2 ∈ S ∨ skip w item.2 = true →
      moves (i1, AtInner ix w (item :: rest) m result) (S, R)
            (Running (i1, AtInner ix w rest m result)) (S, R)
  | move_inner_try i1 ix w item rest m result S R :
      item.2 ∉ S → skip w item.2 = false →
      moves (i1, AtInner ix w (item :: rest) m result) (S, R)
            (Running (i1, AtInsert ix w item rest m result)) (S, R)
  | move_insert_lost i1 ix w item rest m result S R :
      item.2 ∈ S →
      moves (i1, AtInsert ix w item rest m result) (S, R)
            (Running (i1, AtInner ix w rest m result)) (S, R)
  | move_insert_won i1 ix w item rest m result S R :
      item.2 ∉ S →
      moves (i1, AtInsert ix w item rest m result) (S, R)
            (Running (i1, AtInner ix w rest (m ++ [item.2]) result)) ({[item.2]} ∪ S, R)
  | move_append i1 result S R :
      moves (i1, AtAppend result) (S, R) Returned (S, R ++ result).

Lemma select_step_moves l sh : moves l sh (sstep l sh).1 (sstep l sh).2.
Proof.
  destruct l as [i1 [ix result|ix w [|item rest] m result|ix w item rest m result|result]],
    sh as [S R]; simpl.
  - destruct (Nat.ltb_spec ix i1) as [Hlt|Hge]; [|by constructor].
    destruct (water !! ix) as [w|] eqn:Hw; [|by constructor].
    fold (cands w). destruct (cands w) as [|item rest] eqn:Hc; simpl.
    + by eapply move_outer_skip.
    + rewrite <- Hc. eapply move_outer_enter; [done..|]. by rewrite Hc.
  - constructor.
  - unfold contains. case_bool_decide as Hin; simpl; [constructor; by left|].
    fold (skip w item.2). destruct (skip w item.2) eqn:Hskip; simpl; constructor; auto.
  - unfold insert. case_bool_decide as Hin; simpl; by constructor.
  - constructor.
Qed.

(** A step of the executor either changes nothing or is a move of a
    working thread. *)
Lemma select_exec_step i (c : sstate) :
  Executor.step sstep i c = c ∨
  ∃ l st sh',
    threads c !! i = Some (Work l) ∧ moves l (shared c) st sh' ∧
    Executor.step sstep i c = State sh' (exception c) (<[i := after st]> (threads c)).
Proof.
  destruct (threads c !! i) as [[l|[]|r|]|] eqn:Hi.
  - right. exists l, (sstep l (shared c)).1, (sstep l (shared c)).2.
    split_and!; [done|apply select_step_moves|].
    apply (step_work sstep i c l); [done|]. by destruct (sstep l (shared c)).
  - left. apply step_idle; intros ?; by rewrite Hi.
  - left. apply step_idle; intros ?; by rewrite Hi.
  - left. apply step_idle; intros ?; by rewrite Hi.
Qed.

(** *** Every pointer is claimed once *)

Definition local_claimed (p : pc) : list nat :=
  match p with
  | AtOuter _ result => claimed result
  | AtInner _ _ _ m result => claimed result ++ m
  | AtInsert _ _ _ _ m result => claimed result ++ m
  | AtAppend result => claimed result
  end.

Definition thread_claimed (t : thread local Empty_set) : list nat :=
  match t with
  | Work l => local_claimed l.2
  | _ => []
  end.

(** The pointers in the shared result and in the hands of the threads. *)
Definition all_claimed (c : sstate) : list nat :=
  claimed (shared c).2 ++ concat (thread_claimed <$> threads c).

Definition claims_inv (c : sstate) : Prop :=
  NoDup (all_claimed c) ∧ ∀ a, a ∈ all_claimed c ↔ a ∈ (shared c).1.

Lemma claimed_app (r1 r2 : list Claim) : claimed (r1 ++ r2) = claimed r1 ++ claimed r2.
Proof. unfold claimed. by rewrite fmap_app, concat_app. Qed.

Lemma claimed_close ix m (result : list Claim) :
  local_claimed (close_record ix m result) = claimed result ++ m.
Proof.
  unfold close_record. simpl. destruct m as [|a m]; [by rewrite app_nil_r|].
  rewrite claimed_app. unfold claimed at 2. simpl. by rewrite app_nil_r.
Qed.

Lemma thread_claimed_close i1 ix m (result : list Claim) :
  thread_claimed (after (Running (i1, close_record ix m result))) = claimed result ++ m.
Proof. apply claimed_close. Qed.

Lemma thread_claimed_insert (ts : list (thread local Empty_set)) i t t' :
  ts !! i = Some t →
  concat (thread_claimed <$> <[i:=t']> ts) ++ thread_claimed t
    ≡ₚ concat (thread_claimed <$> ts) ++ thread_claimed t'.
Proof.
  intros Hi. rewrite list_fmap_insert, (Permutation_app_comm _ (thread_claimed t')).
  apply concat_insert_perm. by rewrite list_lookup_fmap, Hi.
Qed.

Lemma claims_inv_step i c : claims_inv c → broken (Executor.step sstep i c) ∨ claims_inv (Executor.step sstep i c).
Proof.
  intros [Hnd Hin].
  destruct (select_exec_step i c) as [->|(l & st & sh' & Hi & Hmove & ->)]; [by right|].
  pose proof (thread_claimed_insert (threads c) i (Work l) (after st) Hi) as Hperm.
  unfold claims_inv, all_claimed in *. simpl in *.
  destruct Hmove; rewrite ?thread_claimed_close in Hperm; simpl in *;
    try (right; rewrite ?app_nil_r in Hperm; apply Permutation_app_inv_r in Hperm;
         split; [by rewrite Hperm|intros a; rewrite Hperm; apply Hin]).
  - left. apply list_elem_of_lookup. exists i. apply list_lookup_insert_eq.
    by eapply lookup_lt_Some.
  - right.
    assert (concat (thread_claimed <$> <[i:=Work (i1, AtInner ix w rest (m ++ [item.2]) result)]> (threads c))
              ≡ₚ item.2 :: concat (thread_claimed <$> threads c)) as Hnew.
    { apply (Permutation_app_inv_r (claimed result ++ m)). rewrite Hperm.
      rewrite !app_assoc. by rewrite <- Permutation_cons_append. }
    assert (item.2 ∉ claimed R ++ concat (thread_claimed <$> threads c)) as Hfresh.
    { intros Hx%Hin. done. }
    split.
    + rewrite Hnew, <- Permutation_middle. by apply NoDup_cons.
    + intros a. rewrite Hnew, <- Permutation_middle, elem_of_cons.
      specialize (Hin a). set_solver.
  - right. simpl in Hperm. rewrite app_nil_r in Hperm.
    assert (claimed (R ++ result) ++ concat (thread_claimed <$> <[i:=Finished None]> (threads c))
              ≡ₚ claimed R ++ concat (thread_claimed <$> threads c)) as Hnew.
    { rewrite claimed_app, <- app_assoc. f_equiv. by rewrite Permutation_app_comm. }
    split; [by rewrite Hnew|]. intros a. rewrite Hnew. apply Hin.
Qed.

Lemma claims_inv_spawn ranges : claims_inv (spawn select_enter (∅, []) ranges).
Proof.
  assert (all_claimed (spawn select_enter (∅, []) ranges) = []) as Hnone.
  { unfold all_claimed. simpl. induction ranges as [|r ranges IH]; [done|]. simpl. apply IH. }
  unfold claims_inv. rewrite Hnone. split; [constructor|].
  intros a. simpl. split; [by intros ?%elem_of_nil|by intros ?%not_elem_of_empty].
Qed.

(** A run of [select_overlap_with] that returns: the ranges it worked
    on and the state in which every thread had joined. *)
Lemma select_overlap_with_inv num_threads min_size hw sched result :
  select_overlap_with deref return_envelope box_intersects intersects within
    num_threads min_size hw water rtree sched = Some result →
  ∃ ranges c,
    ranges_of (schedule_plan hw (length water) num_threads min_size) = Some ranges ∧
    c = Executor.exec sstep sched (spawn select_enter (∅, []) ranges) ∧
    joined c = true ∧ (shared c).2 = result.
Proof.
  unfold select_overlap_with, parallel_for, parallel_for_state.
  destruct (ranges_of _) as [ranges|]; [|done]. simpl.
  destruct (joined _) eqn:Hj; [|done]. simpl.
  destruct (shared _) as [S R] eqn:Hsh. intros [= <-].
  eexists ranges, _. split_and!; [done|done|done|]. by rewrite Hsh.
Qed.

Lemma joined_nothing_claimed (c : sstate) :
  joined c = true → all_claimed c = claimed (shared c).2.
Proof.
  intros Hj%joined_Forall. unfold all_claimed.
  assert (concat (thread_claimed <$> threads c) = []) as ->; [|by rewrite app_nil_r].
  induction Hj as [|t ts [r ->] _ IH]; [done|]. simpl. apply IH.
Qed.

Lemma select_claims_once num_threads min_size hw sched result :
  select_overlap_with deref return_envelope box_intersects intersects within
    num_threads min_size hw water rtree sched = Some result →
  NoDup (claimed result).
Proof.
  intros (ranges & c & _ & Hc & Hj & <-)%select_overlap_with_inv.
  destruct (exec_invariant_unless_broken sstep claims_inv claims_inv_step sched
              (spawn select_enter (∅, []) ranges) (claims_inv_spawn ranges)) as [Hb|[Hnd _]].
  - rewrite <- Hc in Hb. by apply joined_not_broken in Hj.
  - rewrite <- Hc in Hnd. by rewrite joined_nothing_claimed in Hnd.
Qed.

(** *** The workers get through *)

(** An upper bound on the steps a worker call still takes. *)
Definition select_measure (l : local) : nat :=
  let per_polygon := 2 * length rtree + 2 in
  match l.2 with
  | AtOuter ix _ => (l.1 - ix) * per_polygon + 1
  | AtInner ix _ todo _ _ => (l.1 - Datatypes.S ix) * per_polygon + 2 * length todo + 2
  | AtInsert ix _ _ todo _ _ => (l.1 - Datatypes.S ix) * per_polygon + 2 * length todo + 3
  | AtAppend _ => 0
  end.

Lemma cands_length w : length (cands w) ≤ length rtree.
Proof. apply length_filter. Qed.

Lemma select_measure_decreases l sh l' sh' :
  sstep l sh = (Running l', sh') → select_measure l' < select_measure l.
Proof.
  intros Hstep. pose proof (select_step_moves l sh) as Hmove.
  rewrite Hstep in Hmove. simpl in Hmove.
  inversion Hmove; subst; unfold select_measure, close_record; simpl; try lia.
  - replace (i1 - ix) with (Datatypes.S (i1 - Datatypes.S ix)) by lia. lia.
  - pose proof (cands_length w).
    replace (i1 - ix) with (Datatypes.S (i1 - Datatypes.S ix)) by lia. lia.
Qed.

Definition select_ok (t : thread local Empty_set) : Prop :=
  match t with
  | Work l => l.1 ≤ length water
  | Finished _ => True
  | Catch _ | Broken => False
  end.

Lemma select_ok_step i (c : sstate) :
  Forall select_ok (threads c) → Forall select_ok (threads (Executor.step sstep i c)).
Proof.
  intros Hok.
  destruct (select_exec_step i c) as [->|(l & st & sh' & Hi & Hmove & ->)]; [done|].
  simpl. apply Forall_insert; [done|].
  pose proof (Forall_lookup_1 _ _ _ _ Hok Hi) as Hl. simpl in Hl.
  destruct Hmove; simpl in *; try done.
  apply lookup_ge_None in H0. lia.
Qed.

(** With a thread count that is not zero, a schedule that gives each
    thread enough steps lets [select_overlap_with] return. *)
Lemma select_overlap_with_returns num_threads min_size hw sched :
  let threads := if num_threads =? 0 then hw else num_threads in
  0 < threads →
  gives_each (length water * (2 * length rtree + 2) + 3) threads sched →
  is_Some (select_overlap_with deref return_envelope box_intersects intersects within
             num_threads min_size hw water rtree sched).
Proof.
  intros n Hn Hsched.
  unfold select_overlap_with, parallel_for, parallel_for_state.
  destruct (ranges_of _) as [ranges|] eqn:Hplan.
  2:{ unfold schedule_plan in Hplan. fold n in Hplan.
      destruct ((n =? 1) || (length water <=? min_size)); [done|].
      by destruct (Nat.eqb_spec n 0) as [|_]; [lia|]. }
  simpl. apply plan_ranges in Hplan as (_ & Hbound & Hcount). fold n in Hcount.
  set (c0 := spawn select_enter (∅, []) ranges).
  set (c := Executor.exec _ sched c0).
  assert (Forall select_ok (threads c)) as Hsafe.
  { apply (exec_invariant _ (λ c, Forall select_ok (threads c))).
    - intros i c'. apply select_ok_step.
    - simpl. apply Forall_fmap. eapply Forall_impl; [exact Hbound|].
      intros [i0 i1]. simpl. lia. }
  assert (Forall (λ t, remaining select_measure t = 0) (threads c)) as Hdone.
  { apply (exec_settles sstep select_measure select_measure_decreases sched c0
             (length water * (2 * length rtree + 2) + 3)).
    - intros j. unfold remaining_at, c0. simpl. rewrite list_lookup_fmap.
      destruct (ranges !! j) as [[i0 i1]|] eqn:Hj; simpl; [|lia].
      eapply Forall_lookup_1 in Hbound; [|exact Hj]. simpl in Hbound.
      unfold select_measure. simpl.
      assert ((i1 - i0) * (2 * length rtree + 2) ≤ length water * (2 * length rtree + 2))
        by (apply Nat.mul_le_mono_r; lia).
      lia.
    - intros j Hj. apply Hsched. unfold c0 in Hj. simpl in Hj.
      rewrite length_fmap in Hj. lia. }
  assert (joined c = true) as ->.
  { apply joined_Forall. rewrite Forall_forall in Hsafe, Hdone |- *. intros t Ht.
    specialize (Hsafe t Ht). specialize (Hdone t Ht).
    destruct t as [l|e|r|]; simpl in *; [lia|done|by eexists|done]. }
  simpl. destruct (shared c) as [S R]. by eexists.
Qed.

(** *** What is claimed, and by whom *)

(** [a] is a candidate of [w] that the second [continue] lets through. *)
Definition qualifies (w : Polygon) (a : nat) : Prop :=
  a ∈ (cands w).*2 ∧ skip w a = false.

(** Every qualifying candidate of the polygons [i0 .. ix - 1] is in the
    set. *)
Definition swept (S : gset nat) (i0 ix : nat) : Prop :=
  ∀ j w a, i0 ≤ j < ix → water !! j = Some w → qualifies w a → a ∈ S.

Definition record_ok (r : Claim) : Prop :=
  r.2 ≠ [] ∧ ∃ w, water !! r.1 = Some w ∧ ∀ a, a ∈ r.2 → qualifies w a.

Definition inner_ok (S : gset nat) (ix : nat) (w : Polygon) (todo : list PolygonIndex)
    (m : list nat) : Prop :=
  water !! ix = Some w ∧
  (∃ seen, cands w = seen ++ todo ∧
     ∀ item : PolygonIndex, item ∈ seen → skip w item.2 = false → item.2 ∈ S) ∧
  (∀ a, a ∈ m → qualifies w a ∧ a ∈ S).

Definition records_ok (i0 ix : nat) (result : list Claim) : Prop :=
  Forall (λ r : Claim, record_ok r ∧ i0 ≤ r.1 < ix) result.

Definition base_local (S : gset nat) (i0 i1 : nat) (p : pc) : Prop :=
  match p with
  | AtOuter ix result =>
      i0 ≤ ix ≤ i1 ∧ swept S i0 ix ∧ records_ok i0 ix result
  | AtInner ix w todo m result =>
      i0 ≤ ix < i1 ∧ swept S i0 ix ∧ records_ok i0 ix result ∧ inner_ok S ix w todo m
  | AtInsert ix w item todo m result =>
      i0 ≤ ix < i1 ∧ swept S i0 ix ∧ records_ok i0 ix result ∧
      inner_ok S ix w (item :: todo) m ∧ skip w item.2 = false
  | AtAppend result =>
      i0 ≤ i1 ∧ swept S i0 i1 ∧ records_ok i0 i1 result
  end.

Definition base_thread (S : gset nat) (r : nat * nat) (t : thread local Empty_set) : Prop :=
  match t with
  | Work l => l.1 = r.2 ∧ base_local S r.1 r.2 l.2
  | Finished _ => swept S r.1 r.2
  | Catch _ | Broken => False
  end.

Definition base_inv (ranges : list (nat * nat)) (c : sstate) : Prop :=
  Forall2 (base_thread (shared c).1) ranges (threads c) ∧ Forall record_ok (shared c).2.

Lemma swept_mono S S' i0 ix : S ⊆ S' → swept S i0 ix → swept S' i0 ix.
Proof. intros HS Hs j w a Hj Hw Hq. apply HS. by eapply Hs. Qed.

Lemma inner_ok_mono S S' ix w todo m : S ⊆ S' → inner_ok S ix w todo m → inner_ok S' ix w todo m.
Proof.
  intros HS (Hw & (seen & Hseen & Hin) & Hm). split_and!; [done| |].
  - exists seen. split; [done|]. intros item Hi Hsk. by apply HS, Hin.
  - intros a Ha. destruct (Hm a Ha). split; [done|by apply HS].
Qed.

Lemma base_thread_mono S S' r t : S ⊆ S' → base_thread S r t → base_thread S' r t.
Proof.
  intros HS. destruct t as [[i1 p]|e|o|]; simpl; try done.
  - intros [-> Hp]. split; [done|].
    destruct p as [ix res|ix w todo m res|ix w item todo m res|res]; simpl in *.
    + destruct Hp as (? & ? & ?). eauto using swept_mono.
    + destruct Hp as (? & ? & ? & ?). eauto 6 using swept_mono, inner_ok_mono.
    + destruct Hp as (? & ? & ? & ? & ?). eauto 7 using swept_mono, inner_ok_mono.
    + destruct Hp as (? & ? & ?). eauto using swept_mono.
  - by apply swept_mono.
Qed.

Lemma Forall2_update {A B} (P P' : A → B → Prop) rs ts i r t' :
  Forall2 P rs ts → rs !! i = Some r →
  (∀ r t, P r t → P' r t) → P' r t' →
  Forall2 P' rs (<[i:=t']> ts).
Proof.
  intros Hall Hr Himp Ht'. rewrite <- (list_insert_id rs i r Hr).
  apply Forall2_insert; [|done]. by eapply Forall2_impl.
Qed.

Lemma swept_next S i0 ix w :
  water !! ix = Some w → swept S i0 ix → (∀ a, qualifies w a → a ∈ S) →
  swept S i0 (Datatypes.S ix).
Proof.
  intros Hw Hs Hq j w' a Hj Hw' Ha.
  destruct (decide (j = ix)) as [->|Hne].
  - assert (w' = w) as -> by congruence. by apply Hq.
  - eapply Hs; [|done..]. lia.
Qed.

Lemma records_ok_weaken i0 ix ix' result :
  ix ≤ ix' → records_ok i0 ix result → records_ok i0 ix' result.
Proof.
  intros Hle Hres. eapply Forall_impl; [exact Hres|].
  intros r [Hr Hi]. split; [done|lia].
Qed.

Lemma base_close S i0 i1 ix w m result :
  base_local S i0 i1 (AtInner ix w [] m result) →
  base_local S i0 i1 (close_record ix m result).
Proof.
  intros (Hix & Hsw & Hres & Hw & (seen & Hseen & Hin) & Hm). unfold close_record. simpl.
  rewrite app_nil_r in Hseen. split; [lia|]. split_and!; [ |].
  - apply (swept_next S i0 ix w); [done..|]. intros a [Ha Hsk].
    apply list_elem_of_fmap in Ha as (item & -> & Hitem). apply Hin; [|done].
    by rewrite <- Hseen.
  - destruct m as [|a m]; [eapply records_ok_weaken; [|done]; lia|].
    apply Forall_app. split; [eapply records_ok_weaken; [|done]; lia|].
    apply Forall_singleton. split; [|simpl; lia]. split; [done|].
    exists w. split; [done|]. intros b Hb. by apply Hm.
Qed.

Lemma inner_ok_advance S ix w item rest m :
  inner_ok S ix w (item :: rest) m → (skip w item.2 = false → item.2 ∈ S) →
  inner_ok S ix w rest m.
Proof.
  intros (Hw & (seen & Hseen & Hin) & Hm) Hitem. split_and!; [done| |done].
  exists (seen ++ [item]). split; [by rewrite <- app_assoc|].
  intros it [Hit | ->%list_elem_of_singleton]%elem_of_app; [by apply Hin|done].
Qed.

Lemma inner_ok_item S ix w item rest m :
  inner_ok S ix w (item :: rest) m → item.2 ∈ (cands w).*2.
Proof.
  intros (_ & (seen & -> & _) & _). apply list_elem_of_fmap. exists item.
  split; [done|]. apply elem_of_app. right. by left.
Qed.

Lemma base_inv_step ranges i c :
  base_inv ranges c →
  broken (Executor.step sstep i c) ∨ base_inv ranges (Executor.step sstep i c).
Proof.
  intros [Hall HR].
  destruct (select_exec_step i c) as [->|(l & st & sh' & Hi & Hmove & ->)]; [by right|].
  destruct (Forall2_lookup_r _ _ _ _ _ Hall Hi) as ([i0 i1'] & Hr & Hl & Hp).
  unfold base_inv. simpl in *.
  destruct Hmove; simpl in *; subst i1'.
  - right. split; [|done]. eapply Forall2_update; [done..| |]; [done|]. simpl.
    destruct Hp as (Hix & Hsw & Hres). split; [done|]. split; [lia|]. split_and!; [ |].
    + apply (swept_next S i0 ix w); [done..|]. intros a [Ha _].
      rewrite H1 in Ha. by apply elem_of_nil in Ha.
    + eapply records_ok_weaken; [|done]. lia.
  - right. split; [|done]. eapply Forall2_update; [done..| |]; [done|]. simpl.
    destruct Hp as (Hix & Hsw & Hres). split; [done|]. split; [lia|]. split_and!; [done|done| ].
    split_and!; [done| |by intros a ?%elem_of_nil].
    exists []. split; [done|]. by intros item ?%elem_of_nil.
  - left. apply list_elem_of_lookup. exists i. apply list_lookup_insert_eq.
    by eapply lookup_lt_Some.
  - right. split; [|done]. eapply Forall2_update; [done..| |]; [done|]. simpl.
    destruct Hp as (Hix & Hsw & Hres). assert (ix = i1) as -> by lia.
    split; [done|]. split; [lia|]. split_and!; [done|done].
  - right. split; [|done]. eapply Forall2_update; [done..| |]; [done|].
    split; [done|]. by apply (base_close S i0 i1 ix w m result).
  - right. split; [|done]. eapply Forall2_update; [done..| |]; [done|]. simpl.
    destruct Hp as (Hix & Hsw & Hres & Hin). split; [done|]. split; [lia|]. split_and!; [done|done|].
    eapply inner_ok_advance; [done|]. intros Hsk. destruct H as [HS|Hsk']; [done|congruence].
  - right. split; [|done]. eapply Forall2_update; [done..| |]; [done|]. simpl.
    destruct Hp as (Hix & Hsw & Hres & Hin). split; [done|]. split; [lia|]. split_and!; [done..].
  - right. split; [|done]. eapply Forall2_update; [done..| |]; [done|]. simpl.
    destruct Hp as (Hix & Hsw & Hres & Hin & Hsk). split; [done|].
    split; [lia|]. split_and!; [done|done|]. by eapply inner_ok_advance.
  - right. split; [|done].
    assert (S ⊆ {[item.2]} ∪ S) as Hsub by set_solver.
    eapply Forall2_update; [done..| |].
    { intros r t. by apply base_thread_mono. }
    simpl. destruct Hp as (Hix & Hsw & Hres & Hin & Hsk). split; [done|].
    split; [lia|]. split_and!; [by eapply swept_mono|done|].
    pose proof (inner_ok_item _ _ _ _ _ _ Hin) as Hitem.
    apply (inner_ok_mono _ _ _ _ _ _ Hsub) in Hin.
    apply inner_ok_advance in Hin as (Hw & Hseen & Hm); [|set_solver].
    split_and!; [done..|]. intros a [Ha| ->%list_elem_of_singleton]%elem_of_app.
    + by apply Hm.
    + split; [done|set_solver].
  - right. destruct Hp as (Hix & Hsw & Hres). split.
    + eapply Forall2_update; [done..| |]; [done|]. done.
    + apply Forall_app. split; [done|]. eapply Forall_impl; [exact Hres|].
      by intros r [Hr' _].
Qed.

Lemma base_inv_spawn ranges :
  Forall (λ r, r.1 ≤ r.2) ranges → base_inv ranges (spawn select_enter (∅, []) ranges).
Proof.
  intros Hle. split; [|constructor]. simpl.
  apply Forall2_fmap_r, Forall_Forall2_diag.
  eapply Forall_impl; [exact Hle|]. intros [i0 i1] Hr. simpl in *.
  split; [done|]. split; [lia|]. split_and!; [ |constructor].
  intros j w a Hj. lia.
Qed.

Lemma skip_false w a :
  skip w a = false ↔ intersects w (deref a) = true ∧ within (deref a) w = false.
Proof.
  unfold no_effect. rewrite orb_false_iff, negb_false_iff. done.
Qed.

(** The state in which a run of [select_overlap_with] returned. *)
Lemma select_final_state num_threads min_size hw sched result :
  select_overlap_with deref return_envelope box_intersects intersects within
    num_threads min_size hw water rtree sched = Some result →
  ∃ ranges c,
    concat (map indices ranges) = seq 0 (length water) ∧
    c = Executor.exec sstep sched (spawn select_enter (∅, []) ranges) ∧
    Forall (λ t, ∃ r, t = Finished r) (threads c) ∧
    (shared c).2 = result ∧
    claims_inv c ∧ base_inv ranges c.
Proof.
  intros (ranges & c & Hplan & Hc & Hj & <-)%select_overlap_with_inv.
  apply plan_ranges in Hplan as (Hcover & Hbound & _).
  exists ranges, c. split_and!; [done|done|by apply joined_Forall|done| |].
  - destruct (exec_invariant_unless_broken sstep claims_inv claims_inv_step sched
                (spawn select_enter (∅, []) ranges) (claims_inv_spawn ranges)) as [Hb|Hinv].
    + rewrite <- Hc in Hb. by apply joined_not_broken in Hj.
    + by rewrite Hc.
  - destruct (exec_invariant_unless_broken sstep (base_inv ranges) (base_inv_step ranges) sched
                (spawn select_enter (∅, []) ranges)) as [Hb|Hinv].
    + apply base_inv_spawn. eapply Forall_impl; [exact Hbound|]. by intros r [? _].
    + rewrite <- Hc in Hb. by apply joined_not_broken in Hj.
    + by rewrite Hc.
Qed.

(** An index below the size lies in one of the ranges. *)
Lemma covered_index ranges size ix :
  concat (map indices ranges) = seq 0 size → ix < size →
  ∃ j r, ranges !! j = Some r ∧ r.1 ≤ ix < r.2.
Proof.
  intros Hcover Hix.
  assert (In ix (concat (map indices ranges))) as Hin.
  { rewrite Hcover. apply in_seq. lia. }
  apply in_concat in Hin as (l & Hl & Hixl).
  apply in_map_iff in Hl as (r & <- & Hr).
  apply list_elem_of_In, list_elem_of_lookup in Hr as [j Hj].
  exists j, r. split; [done|]. unfold indices in Hixl. apply in_seq in Hixl. lia.
Qed.

(** The records of a result hold qualifying candidates only, and every
    qualifying candidate is in one of them. *)
Lemma select_result_sound num_threads min_size hw sched result :
  select_overlap_with deref return_envelope box_intersects intersects within
    num_threads min_size hw water rtree sched = Some result →
  Forall record_ok result ∧
  ∀ ix w a, water !! ix = Some w → qualifies w a → a ∈ claimed result.
Proof.
  intros (ranges & c & Hcover & Hc & Hj & <- & [_ Hcl] & [Hall HR])%select_final_state.
  split; [done|]. intros ix w a Hw Hq.
  destruct (covered_index ranges (length water) ix Hcover) as (j & r & Hr & Hix).
  { by eapply lookup_lt_Some. }
  destruct (Forall2_lookup_l _ _ _ _ _ Hall Hr) as (t & Ht & Hbase).
  rewrite Forall_forall in Hj. destruct (Hj t) as [o ->]; [by eapply list_elem_of_lookup_2|].
  simpl in Hbase. specialize (Hbase ix w a Hix Hw Hq).
  apply Hcl in Hbase. unfold all_claimed in Hbase.
  assert (concat (thread_claimed <$> threads c) = []) as Hnone.
  { clear -Hj. induction (threads c) as [|t ts IH]; [done|].
    destruct (Hj t) as [o ->]; [by left|]. simpl. apply IH.
    intros t' Ht'. apply Hj. by right. }
  by rewrite Hnone, app_nil_r in Hbase.
Qed.

(** *** The result does not depend on the schedule *)

(** The match list of water polygon [ix] when nothing interferes: the
    inner loop run on an empty set. *)
Definition expected (ix : nat) : list nat :=
  match water !! ix with
  | Some w => (scan deref intersects within w (cands w) ∅ []).2
  | None => []
  end.

Definition record_for (ix : nat) : option Claim :=
  match expected ix with
  | [] => None
  | m => Some (ix, m)
  end.

Definition records_in (ixs : list nat) : list Claim := omap record_for ixs.

(** No area polygon is a qualifying candidate of two water polygons. *)
Definition unambiguous : Prop :=
  ∀ ix ix' w w' a,
    water !! ix = Some w → water !! ix' = Some w' →
    qualifies w a → qualifies w' a → ix = ix'.

Definition det_local (i0 i1 : nat) (p : pc) : Prop :=
  match p with
  | AtOuter ix result => result = records_in (seq i0 (ix - i0))
  | AtInner ix w todo m result =>
      result = records_in (seq i0 (ix - i0)) ∧
      (scan deref intersects within w todo (list_to_set m) m).2 = expected ix
  | AtInsert ix w item todo m result =>
      result = records_in (seq i0 (ix - i0)) ∧
      (scan deref intersects within w (item :: todo) (list_to_set m) m).2 = expected ix ∧
      item.2 ∉ m
  | AtAppend result => result = records_in (seq i0 (i1 - i0))
  end.

Definition det_thread (r : nat * nat) (t : thread local Empty_set) : Prop :=
  match t with
  | Work l => det_local r.1 r.2 l.2
  | _ => True
  end.

(** What a thread has appended to the shared result. *)
Definition published (r : nat * nat) (t : thread local Empty_set) : list Claim :=
  match t with
  | Finished _ => records_in (indices r)
  | _ => []
  end.

Definition det_inv (ranges : list (nat * nat)) (c : sstate) : Prop :=
  Forall2 det_thread ranges (threads c) ∧
  (shared c).2 ≡ₚ concat (zip_with published ranges (threads c)).

(** The index a worker is at, its match list and its records. *)
Definition pc_index (i1 : nat) (p : pc) : nat :=
  match p with
  | AtOuter ix _ | AtInner ix _ _ _ _ | AtInsert ix _ _ _ _ _ => ix
  | AtAppend _ => i1
  end.

Definition pc_matching (p : pc) : list nat :=
  match p with
  | AtInner _ _ _ m _ | AtInsert _ _ _ _ m _ => m
  | _ => []
  end.

Definition pc_result (p : pc) : list Claim :=
  match p with
  | AtOuter _ result | AtInner _ _ _ _ result | AtInsert _ _ _ _ _ result
  | AtAppend result => result
  end.

Lemma local_claimed_parts p : local_claimed p = claimed (pc_result p) ++ pc_matching p.
Proof. destruct p; simpl; by rewrite ?app_nil_r. Qed.

Lemma base_local_facts S i0 i1 p :
  base_local S i0 i1 p →
  i0 ≤ pc_index i1 p ≤ i1 ∧
  records_ok i0 (pc_index i1 p) (pc_result p) ∧
  (∀ a, a ∈ pc_matching p →
     pc_index i1 p < i1 ∧ ∃ w, water !! pc_index i1 p = Some w ∧ qualifies w a).
Proof.
  destruct p as [ix res|ix w todo m res|ix w item todo m res|res]; simpl.
  - intros (? & ? & ?). split_and!; [lia..|done|]. by intros a ?%elem_of_nil.
  - intros (? & ? & ? & Hw & _ & Hm). split_and!; [lia..|done|].
    intros a Ha. split; [lia|]. exists w. split; [done|]. by apply Hm.
  - intros (? & ? & ? & (Hw & _ & Hm) & _). split_and!; [lia..|done|].
    intros a Ha. split; [lia|]. exists w. split; [done|]. by apply Hm.
  - intros (? & ? & ?). split_and!; [lia..|done|]. by intros a ?%elem_of_nil.
Qed.

Lemma elem_of_claimed (records : list Claim) a :
  a ∈ claimed records → ∃ r, r ∈ records ∧ a ∈ r.2.
Proof.
  unfold claimed. intros (j & l & Hj & Ha)%elem_of_concat_lookup.
  rewrite list_lookup_fmap in Hj.
  destruct (records !! j) as [r|] eqn:Hr; [|done]. injection Hj as <-.
  exists r. split; [by eapply list_elem_of_lookup_2|done].
Qed.

Lemma records_in_index ixs (r : Claim) : r ∈ records_in ixs → r.1 ∈ ixs.
Proof.
  unfold records_in. intros (ix & Hix & Hr)%list_elem_of_omap.
  unfold record_for in Hr. destruct (expected ix); [done|]. by injection Hr as <-.
Qed.

Lemma ranges_disjoint ranges size i j (r r' : nat * nat) x :
  concat (map indices ranges) = seq 0 size →
  ranges !! i = Some r → ranges !! j = Some r' →
  r.1 ≤ x < r.2 → r'.1 ≤ x < r'.2 → i = j.
Proof.
  intros Hcover Hi Hj Hx Hx'.
  apply (concat_lookup_disjoint (map indices ranges) i j (indices r) (indices r') x).
  - rewrite Hcover. apply NoDup_seq.
  - change (map indices ranges) with (indices <$> ranges). by rewrite list_lookup_fmap, Hi.
  - change (map indices ranges) with (indices <$> ranges). by rewrite list_lookup_fmap, Hj.
  - unfold indices. apply list_elem_of_In, in_seq. lia.
  - unfold indices. apply list_elem_of_In, in_seq. lia.
Qed.

(** If a qualifying candidate of the polygon a worker is at is in the
    set, that worker put it there. *)
Lemma owner_is_self ranges size (c : sstate) i i1 p w a :
  unambiguous →
  concat (map indices ranges) = seq 0 size →
  claims_inv c → base_inv ranges c → det_inv ranges c →
  threads c !! i = Some (Work (i1, p)) →
  pc_index i1 p < i1 →
  water !! pc_index i1 p = Some w → qualifies w a →
  a ∈ (shared c).1 → a ∈ pc_matching p.
Proof.
  intros Hun Hcover [_ Hcl] [Hbase HR] [_ HG] Hi Hlt Hw Hq HS.
  destruct (Forall2_lookup_r _ _ _ _ _ Hbase Hi) as ([i0 i1'] & Hri & Hl & Hp).
  simpl in Hl, Hp. subst i1'.
  apply base_local_facts in Hp as (Hix & Hres & Hm).
  apply Hcl in HS. unfold all_claimed in HS. apply elem_of_app in HS as [HS|HS].
  - exfalso. apply elem_of_claimed in HS as (rec & Hrec & Ha).
    rewrite Forall_forall in HR. destruct (HR rec Hrec) as (_ & w' & Hw' & Hq').
    assert (rec.1 = pc_index i1 p) as Hsame by (eapply Hun; eauto).
    rewrite HG in Hrec. apply elem_of_concat_lookup in Hrec as (j & part & Hj & Hin).
    apply lookup_zip_with_Some in Hj as (r & t & -> & Hr & Ht).
    destruct t as [l|e|o|]; simpl in Hin; try by apply elem_of_nil in Hin.
    apply records_in_index in Hin. unfold indices in Hin.
    apply list_elem_of_In, in_seq in Hin.
    assert (i = j) as <-.
    { eapply (ranges_disjoint ranges size i j (i0, i1) r (pc_index i1 p));
        [done..|simpl; lia|lia]. }
    congruence.
  - apply elem_of_concat_lookup in HS as (j & claims & Hj & Ha).
    rewrite list_lookup_fmap in Hj.
    destruct (threads c !! j) as [t|] eqn:Ht; [|done]. injection Hj as <-.
    destruct t as [[i1' p']|e|o|]; simpl in Ha; try by apply elem_of_nil in Ha.
    destruct (Forall2_lookup_r _ _ _ _ _ Hbase Ht) as ([j0 j1] & Hrj & Hl' & Hp').
    simpl in Hl', Hp'. subst i1'.
    apply base_local_facts in Hp' as (Hjx & Hres' & Hm').
    rewrite local_claimed_parts in Ha. apply elem_of_app in Ha as [Ha|Ha].
    + exfalso. apply elem_of_claimed in Ha as (rec & Hrec & Ha).
      unfold records_ok in Hres'. rewrite Forall_forall in Hres'.
      destruct (Hres' rec Hrec) as [(_ & w' & Hw' & Hq') Hbound].
      assert (rec.1 = pc_index i1 p) as Hsame by (eapply Hun; eauto).
      assert (i = j) as <-.
      { eapply (ranges_disjoint ranges size i j (i0, i1) (j0, j1) (pc_index i1 p));
          [done..|simpl; lia|simpl; lia]. }
      assert (p' = p) as -> by congruence.
      assert (j1 = i1) as -> by congruence. lia.
    + destruct (Hm' a Ha) as (Hlt' & w' & Hw' & Hq').
      assert (pc_index j1 p' = pc_index i1 p) as Hsame by (eapply Hun; eauto).
      assert (i = j) as <-.
      { eapply (ranges_disjoint ranges size i j (i0, i1) (j0, j1) (pc_index i1 p));
          [done..|simpl; lia|simpl; lia]. }
      assert (p' = p) as -> by congruence. done.
Qed.

Lemma scan_skip w (item : PolygonIndex) rest (M : gset nat) m :
  item.2 ∈ M ∨ skip w item.2 = true →
  scan deref intersects within w (item :: rest) M m = scan deref intersects within w rest M m.
Proof.
  intros Hskip. simpl. unfold contains. case_bool_decide as Hin; [done|].
  destruct Hskip as [?|Hs]; [done|]. fold (skip w item.2). by rewrite Hs.
Qed.

Lemma scan_take w (item : PolygonIndex) rest (M : gset nat) m :
  item.2 ∉ M → skip w item.2 = false →
  scan deref intersects within w (item :: rest) M m
    = scan deref intersects within w rest ({[item.2]} ∪ M) (m ++ [item.2]).
Proof.
  intros Hin Hs. simpl. unfold contains, insert.
  rewrite !bool_decide_eq_false_2 by done. fold (skip w item.2). by rewrite Hs.
Qed.

#[local] Arguments scan : simpl never.

Lemma records_in_next i0 ix :
  i0 ≤ ix →
  records_in (seq i0 (Datatypes.S ix - i0)) = records_in (seq i0 (ix - i0)) ++ records_in [ix].
Proof.
  intros Hle. replace (Datatypes.S ix - i0) with (Datatypes.S (ix - i0)) by lia.
  rewrite seq_S. unfold records_in. rewrite omap_app.
  by replace (i0 + (ix - i0)) with ix by lia.
Qed.

Lemma records_in_one ix :
  records_in [ix] = match expected ix with [] => [] | m => [(ix, m)] end.
Proof. unfold records_in. simpl. unfold record_for. by destruct (expected ix). Qed.

Lemma published_work ranges (ts : list (thread local Empty_set)) i r l l' :
  ranges !! i = Some r → ts !! i = Some (Work l) →
  zip_with published ranges (<[i:=Work l']> ts) = zip_with published ranges ts.
Proof.
  intros Hr Ht. rewrite <- (list_insert_id ranges i r Hr) at 1.
  rewrite <- insert_zip_with. apply list_insert_id.
  rewrite lookup_zip_with, Hr. simpl. by rewrite Ht.
Qed.

Lemma published_finished ranges (ts : list (thread local Empty_set)) i r l o :
  ranges !! i = Some r → ts !! i = Some (Work l) →
  concat (zip_with published ranges (<[i:=Finished o]> ts))
    ≡ₚ records_in (indices r) ++ concat (zip_with published ranges ts).
Proof.
  intros Hr Ht. rewrite <- (list_insert_id ranges i r Hr) at 1.
  rewrite <- insert_zip_with. simpl.
  rewrite <- (app_nil_r (concat (<[i:=_]> _))).
  apply concat_insert_perm. rewrite lookup_zip_with, Hr. simpl. by rewrite Ht.
Qed.

Lemma det_inv_step ranges size i c :
  unambiguous →
  concat (map indices ranges) = seq 0 size →
  claims_inv c → base_inv ranges c → det_inv ranges c →
  broken (Executor.step sstep i c) ∨ det_inv ranges (Executor.step sstep i c).
Proof.
  intros Hun Hcover Hclaims Hbase Hdet.
  pose proof Hdet as [Hall HG]. pose proof Hbase as [Hb _].
  destruct (select_exec_step i c) as [->|(l & st & sh' & Hi & Hmove & ->)]; [by right|].
  destruct (Forall2_lookup_r _ _ _ _ _ Hall Hi) as ([i0 i1'] & Hr & Hd).
  destruct (Forall2_lookup_r _ _ _ _ _ Hb Hi) as (r' & Hr' & Hl & Hp).
  assert (r' = (i0, i1')) as -> by congruence. clear Hr'.
  unfold det_inv. simpl in Hd, Hl, Hp |- *.
  remember (shared c) as sh eqn:Hsh.
  destruct Hmove; simpl in Hd, Hl, Hp, HG |- *; subst i1'.
  - (* the polygon has no candidate *)
    right. rewrite (published_work ranges _ i (i0, i1) _ _ Hr Hi).
    split; [|done].
    eapply (Forall2_update det_thread det_thread); [exact Hall|exact Hr|done|]. simpl.
    destruct Hp as (Hix & _). rewrite records_in_next, records_in_one by lia.
    unfold expected. rewrite H0, H1. simpl. by rewrite app_nil_r.
  - right. rewrite (published_work ranges _ i (i0, i1) _ _ Hr Hi).
    split; [|done].
    eapply (Forall2_update det_thread det_thread); [exact Hall|exact Hr|done|]. simpl.
    split; [done|]. unfold expected. by rewrite H0.
  - left. apply list_elem_of_lookup. exists i. apply list_lookup_insert_eq.
    by eapply lookup_lt_Some.
  - right. rewrite (published_work ranges _ i (i0, i1) _ _ Hr Hi).
    split; [|done].
    eapply (Forall2_update det_thread det_thread); [exact Hall|exact Hr|done|]. simpl.
    destruct Hp as (Hix & _). by assert (ix = i1) as -> by lia.
  - (* the inner loop is over *)
    right. rewrite (published_work ranges _ i (i0, i1) _ _ Hr Hi).
    split; [|done].
    eapply (Forall2_update det_thread det_thread); [exact Hall|exact Hr|done|]. unfold close_record. simpl.
    destruct Hp as (Hix & _). destruct Hd as [-> Hscan]. simpl in Hscan.
    rewrite records_in_next, records_in_one by lia.
    rewrite <- Hscan. destruct m; by rewrite ?app_nil_r.
  - (* a candidate is passed over *)
    right. rewrite (published_work ranges _ i (i0, i1) _ _ Hr Hi).
    split; [|done].
    eapply (Forall2_update det_thread det_thread); [exact Hall|exact Hr|done|]. simpl.
    destruct Hd as [Hres Hscan]. split; [done|]. rewrite <- Hscan. symmetry. f_equal.
    apply scan_skip.
    destruct (decide (item.2 ∈ m)) as [Hm|Hm]; [left; by apply elem_of_list_to_set|].
    destruct (skip w item.2) eqn:Hskip; [by right|]. exfalso. apply Hm.
    destruct H as [HS|?]; [|done].
    destruct Hp as (Hix & _ & _ & Hin).
    apply (owner_is_self ranges size c i i1 (AtInner ix w (item :: rest) m result) w item.2);
      simpl; try done; [lia|by destruct Hin| |].
    + split; [by eapply inner_ok_item|done].
    + by rewrite <- Hsh.
  - right. rewrite (published_work ranges _ i (i0, i1) _ _ Hr Hi).
    split; [|done].
    eapply (Forall2_update det_thread det_thread); [exact Hall|exact Hr|done|]. simpl.
    destruct Hd as [-> Hscan]. split_and!; [done..|].
    destruct Hp as (_ & _ & _ & _ & _ & Hm). intros Hin. by destruct (Hm _ Hin).
  - (* the candidate was taken in between: excluded *)
    exfalso. destruct Hd as (_ & _ & Hfresh). apply Hfresh.
    destruct Hp as (Hix & _ & _ & Hin & Hskip).
    apply (owner_is_self ranges size c i i1 (AtInsert ix w item rest m result) w item.2);
      simpl; try done; [lia|by destruct Hin| |].
    + split; [by eapply inner_ok_item|done].
    + by rewrite <- Hsh.
  - right. rewrite (published_work ranges _ i (i0, i1) _ _ Hr Hi).
    split; [|done].
    eapply (Forall2_update det_thread det_thread); [exact Hall|exact Hr|done|]. simpl.
    destruct Hd as (-> & Hscan & Hfresh). split; [done|]. rewrite <- Hscan.
    destruct Hp as (_ & _ & _ & _ & Hskip).
    rewrite scan_take; [|by rewrite elem_of_list_to_set|done].
    by rewrite list_to_set_snoc_L, (union_comm_L _ {[item.2]}).
  - right. split.
    + eapply (Forall2_update det_thread det_thread); [exact Hall|exact Hr|done|]. done.
    + rewrite (published_finished ranges _ i (i0, i1) _ _ Hr Hi).
      rewrite HG, Permutation_app_comm. f_equiv. simpl in Hd. by rewrite Hd.
Qed.

Lemma published_spawn ranges :
  concat (zip_with published ranges
            (threads (spawn select_enter ((∅, []) : sshared) ranges))) = [].
Proof. simpl. induction ranges as [|r ranges IH]; [done|]. simpl. apply IH. Qed.

Lemma det_inv_spawn ranges : det_inv ranges (spawn select_enter (∅, []) ranges).
Proof.
  split; [|by rewrite published_spawn]. simpl.
  apply Forall2_fmap_r, Forall_Forall2_diag, Forall_forall. intros [i0 i1] _. simpl.
  by rewrite Nat.sub_diag.
Qed.

Lemma published_joined ranges (ts : list (thread local Empty_set)) :
  Forall2 det_thread ranges ts →
  Forall (λ t, ∃ r, t = Finished r) ts →
  concat (zip_with published ranges ts) = records_in (concat (map indices ranges)).
Proof.
  intros Hall. induction Hall as [|r t ranges ts _ _ IH]; intros Hfin; [done|].
  apply Forall_cons in Hfin as [[o ->] Hfin]. simpl.
  unfold records_in at 2. rewrite omap_app. by rewrite IH.
Qed.

(** Without an ambiguous candidate, every run that returns has made the
    same records: for each water polygon, those of [expected]. *)
Lemma select_deterministic num_threads min_size hw sched result :
  unambiguous →
  select_overlap_with deref return_envelope box_intersects intersects within
    num_threads min_size hw water rtree sched = Some result →
  result ≡ₚ records_in (seq 0 (length water)).
Proof.
  intros Hun (ranges & c & Hplan & Hc & Hj & <-)%select_overlap_with_inv.
  apply plan_ranges in Hplan as (Hcover & Hbound & _).
  set (all_inv := λ c, claims_inv c ∧ base_inv ranges c ∧ det_inv ranges c).
  assert (∀ i c, all_inv c → broken (Executor.step sstep i c) ∨ all_inv (Executor.step sstep i c))
    as Hstep.
  { intros i c' (H1 & H2 & H3).
    destruct (claims_inv_step i c' H1) as [?|?]; [by left|].
    destruct (base_inv_step ranges i c' H2) as [?|?]; [by left|].
    destruct (det_inv_step ranges (length water) i c' Hun Hcover H1 H2 H3) as [?|?];
      [by left|by right]. }
  assert (all_inv (spawn select_enter (∅, []) ranges)) as Hinit.
  { split_and!; [apply claims_inv_spawn| |apply det_inv_spawn].
    apply base_inv_spawn. eapply Forall_impl; [exact Hbound|]. by intros r [? _]. }
  destruct (exec_invariant_unless_broken sstep all_inv Hstep sched _ Hinit)
    as [Hb|(_ & _ & Hall & HG)].
  - rewrite <- Hc in Hb. by apply joined_not_broken in Hj.
  - rewrite <- Hc in Hall, HG. rewrite HG.
    rewrite (published_joined ranges (threads c) Hall) by (by apply joined_Forall).
    by rewrite Hcover.
Qed.

(** *** One thread: the worker computes select_overlap_range *)

(** What the five-argument [select_overlap] still returns from a
    control point, when nothing interferes. *)
Definition finish (l : local) (S : gset nat) : option (gset nat * list Claim) :=
  let loop := select_loop deref return_envelope box_intersects intersects within in
  match l.2 with
  | AtOuter ix result => loop (l.1 - ix) ix water rtree S result
  | AtInner ix w todo m result =>
      let '(S', m') := scan deref intersects within w todo S m in
      loop (l.1 - Datatypes.S ix) (Datatypes.S ix) water rtree S'
        (pc_result (close_record ix m' result))
  | AtInsert ix w item todo m result =>
      let '(S1, inserted) := insert S item.2 in
      let '(S', m') := scan deref intersects within w todo S1
                         (if inserted then m ++ [item.2] else m) in
      loop (l.1 - Datatypes.S ix) (Datatypes.S ix) water rtree S'
        (pc_result (close_record ix m' result))
  | AtAppend result => Some (S, result)
  end.

(** The shared state a lone thread will leave. *)
Definition outlook (t : thread local Empty_set) (sh : sshared) : option sshared :=
  match t with
  | Work l => (λ r : sshared, (r.1, sh.2 ++ r.2)) <$> finish l sh.1
  | Finished _ => Some sh
  | Catch _ | Broken => None
  end.

Lemma finish_move l sh st sh' :
  moves l sh st sh' → outlook (after st) sh' = outlook (Work l) sh.
Proof.
  destruct 1; simpl; unfold finish; simpl.
  - replace (i1 - ix) with (Datatypes.S (i1 - Datatypes.S ix)) by lia. simpl.
    rewrite H0. simpl. fold (cands w). by rewrite H1.
  - replace (i1 - ix) with (Datatypes.S (i1 - Datatypes.S ix)) by lia. simpl.
    rewrite H0. simpl. fold (cands w). destruct (cands w) as [|item rest] eqn:Hc; [done|].
    by destruct (scan _ _ _ _ _ _ _) as [S' m'].
  - replace (i1 - ix) with (Datatypes.S (i1 - Datatypes.S ix)) by lia. simpl.
    by rewrite H0.
  - by replace (i1 - ix) with 0 by lia.
  - done.
  - by rewrite scan_skip.
  - rewrite scan_take by done. unfold insert. by rewrite bool_decide_eq_false_2.
  - unfold insert. by rewrite bool_decide_eq_true_2.
  - unfold insert. by rewrite bool_decide_eq_false_2.
  - done.
Qed.

Lemma outlook_step i (c : sstate) t :
  threads c = [t] →
  ∃ t', threads (Executor.step sstep i c) = [t'] ∧
    outlook t' (shared (Executor.step sstep i c)) = outlook t (shared c).
Proof.
  intros Hone.
  destruct (select_exec_step i c) as [->|(l & st & sh' & Hi & Hmove & ->)]; [by exists t|].
  rewrite Hone in Hi |- *. destruct i as [|i]; [|done]. injection Hi as ->.
  exists (after st). split; [done|]. by apply finish_move.
Qed.

(** With one thread, what [select_overlap_with] returns is the result of
    the five-argument [select_overlap] on the whole range, started with
    an empty set. *)
Lemma select_single_thread min_size hw sched result :
  select_overlap_with deref return_envelope box_intersects intersects within
    1 min_size hw water rtree sched = Some result →
  ∃ S, select_overlap_range deref return_envelope box_intersects intersects within
         water rtree 0 (length water) ∅ = Some (S, result).
Proof.
  intros (ranges & c & Hplan & Hc & Hj & <-)%select_overlap_with_inv.
  unfold schedule_plan in Hplan. simpl in Hplan. injection Hplan as <-.
  set (target := select_overlap_range deref return_envelope box_intersects intersects within
                   water rtree 0 (length water) ∅).
  assert (∃ t, threads c = [t] ∧ outlook t (shared c) = target) as (t & Ht & Hout).
  { rewrite Hc.
    apply (exec_invariant sstep (λ c, ∃ t, threads c = [t] ∧ outlook t (shared c) = target)).
    - intros i c' (t & Ht & Hout). destruct (outlook_step i c' t Ht) as (t' & Ht' & Heq).
      exists t'. split; [done|]. by rewrite Heq.
    - eexists. split; [done|]. simpl. unfold finish, target, select_overlap_range. simpl.
      destruct (select_loop _ _ _ _ _ _ _ _ _ _ _) as [[S r]|]; done. }
  apply joined_Forall in Hj. rewrite Ht in Hj. apply Forall_singleton in Hj as [o ->].
  simpl in Hout. exists (shared c).1. rewrite <- Hout. by destruct (shared c).
Qed.

(** C1: [select_overlap] returns under every schedule that gives each
    of its 128 threads enough steps, and in what it returns, under any
    schedule and for any thread count, no pointer to an area polygon
    occurs twice: not in two records and not twice in one. *)
Theorem select_overlap_claims_once hw sched :
  (gives_each (length water * (2 * length rtree + 2) + 3) 128 sched →
   is_Some (select_overlap deref return_envelope box_intersects intersects within
              hw water rtree sched)) ∧
  (∀ result,
     select_overlap deref return_envelope box_intersects intersects within
       hw water rtree sched = Some result →
     NoDup (claimed result)) ∧
  (∀ num_threads min_size result,
     select_overlap_with deref return_envelope box_intersects intersects within
       num_threads min_size hw water rtree sched = Some result →
     NoDup (claimed result)).
Proof.
  split_and!.
  - intros Hsched. apply select_overlap_with_returns; simpl; [lia|done].
  - intros result. apply select_claims_once.
  - intros num_threads min_size result. apply select_claims_once.
Qed.

(** C4, as the code has it.  A candidate not yet in the set is passed
    over, with the set and the match list as they were, when it does not
    intersect the water polygon or lies within it; otherwise the worker
    goes on to [insert], which adds the candidate to the set and to the
    match list unless it is in the set by then.  So the area polygons in
    the record of a water polygon are candidates that intersect it and
    do not lie within it (they may lie within another water polygon),
    and every candidate that intersects a water polygon without lying
    within it is in some record. *)
Theorem select_candidate_filter :
  (∀ i1 ix w (item : PolygonIndex) rest m result (S : gset nat) R,
     item.2 ∉ S →
     (intersects w (deref item.2) = false ∨ within (deref item.2) w = true →
      sstep (i1, AtInner ix w (item :: rest) m result) (S, R)
        = (Running (i1, AtInner ix w rest m result), (S, R))) ∧
     (intersects w (deref item.2) = true → within (deref item.2) w = false →
      sstep (i1, AtInner ix w (item :: rest) m result) (S, R)
        = (Running (i1, AtInsert ix w item rest m result), (S, R)) ∧
      ∀ (S' : gset nat) R',
        sstep (i1, AtInsert ix w item rest m result) (S', R')
          = if bool_decide (item.2 ∈ S')
            then (Running (i1, AtInner ix w rest m result), (S', R'))
            else (Running (i1, AtInner ix w rest (m ++ [item.2]) result),
                  ({[item.2]} ∪ S', R')))) ∧
  (∀ num_threads min_size hw sched result,
     select_overlap_with deref return_envelope box_intersects intersects within
       num_threads min_size hw water rtree sched = Some result →
     (∀ r : Claim, r ∈ result →
        r.2 ≠ [] ∧
        ∃ w, water !! r.1 = Some w ∧
          ∀ a, a ∈ r.2 →
            a ∈ (cands w).*2 ∧
            intersects w (deref a) = true ∧ within (deref a) w = false) ∧
     (∀ ix w a,
        water !! ix = Some w → a ∈ (cands w).*2 →
        intersects w (deref a) = true → within (deref a) w = false →
        a ∈ claimed result)).
Proof.
  split.
  - intros i1 ix w item rest m result S R Hfree. split.
    + intros Hskip. simpl. unfold contains. rewrite bool_decide_eq_false_2 by done.
      assert (skip w item.2 = true) as ->; [|done].
      unfold no_effect. destruct Hskip as [-> | ->]; [done|apply orb_true_r].
    + intros Hi Hw. split.
      * simpl. unfold contains. rewrite bool_decide_eq_false_2 by done.
        assert (skip w item.2 = false) as ->; [|done]. by apply skip_false.
      * intros S' R'. simpl. unfold insert. by case_bool_decide.
  - intros num_threads min_size hw sched result [Hok Hall]%select_result_sound. split.
    + intros r Hr. rewrite Forall_forall in Hok.
      destruct (Hok r Hr) as (Hne & w & Hw & Hq). split; [done|].
      exists w. split; [done|]. intros a Ha. destruct (Hq a Ha) as [Hc Hs].
      by apply skip_false in Hs.
    + intros ix w a Hw Hc Hi Hwi. apply (Hall ix w a Hw). split; [done|].
      by apply skip_false.
Qed.

(** C7: when no area polygon is a qualifying candidate (intersecting,
    not within) of two water polygons, a run with one thread and a run
    with any number of threads return, under schedules that give each
    thread its steps, and whatever the schedules they return the same
    records up to their order: the same water polygon indices with the
    same area polygons.  The run with one thread returns what the
    five-argument [select_overlap] computes on the whole range. *)
Theorem select_same_records num_threads min_size min_size' hw hw' sched1 schedN :
  unambiguous →
  let steps := length water * (2 * length rtree + 2) + 3 in
  let threads := if num_threads =? 0 then hw' else num_threads in
  (gives_each steps 1 sched1 →
   is_Some (select_overlap_with deref return_envelope box_intersects intersects within
              1 min_size hw water rtree sched1)) ∧
  (0 < threads → gives_each steps threads schedN →
   is_Some (select_overlap_with deref return_envelope box_intersects intersects within
              num_threads min_size' hw' water rtree schedN)) ∧
  (∀ r1 rN,
     select_overlap_with deref return_envelope box_intersects intersects within
       1 min_size hw water rtree sched1 = Some r1 →
     select_overlap_with deref return_envelope box_intersects intersects within
       num_threads min_size' hw' water rtree schedN = Some rN →
     r1 ≡ₚ rN ∧
     ∃ S, select_overlap_range deref return_envelope box_intersects intersects within
            water rtree 0 (length water) ∅ = Some (S, r1)).
Proof.
  intros Hun steps n. split_and!.
  - intros Hsched. apply select_overlap_with_returns; simpl; [lia|done].
  - intros Hn Hsched. by apply select_overlap_with_returns.
  - intros r1 rN H1 HN. split; [|by eapply select_single_thread].
    apply (select_deterministic _ _ _ _ _ Hun) in H1, HN. by rewrite H1, HN.
Qed.

End Facts.

Lemma shore_unambiguous :
  unambiguous (Plane.deref Shore.overlay) Plane.envelope Plane.intersects
    Plane.intersects Plane.within Shore.water Shore.rtree.
Proof.
  assert (∀ w a,
    Shore.water !! 0 = Some w →
    ¬ qualifies (Plane.deref Shore.overlay) Plane.envelope Plane.intersects Plane.intersects
        Plane.within Shore.rtree w a) as Hfirst.
  { intros w a [= <-] [Ha Hs]. vm_compute in Ha.
    apply list_elem_of_singleton in Ha as ->. vm_compute in Hs. discriminate Hs. }
  intros ix ix' w w' a Hw Hw' Hq Hq'.
  destruct ix as [|[|ix]], ix' as [|[|ix']]; try done.
  - by destruct (Hfirst w a).
  - by destruct (Hfirst w' a).
Qed.

Lemma select_same_records_witness :
  [(1, [0])] ≡ₚ [(1, [0])] ∧
  ∃ S, select_overlap_range (Plane.deref Shore.overlay) Plane.envelope Plane.intersects
         Plane.intersects Plane.within Shore.water Shore.rtree 0 (length Shore.water) ∅
       = Some (S, [(1, [0])]).
Proof.
  destruct (select_same_records (Plane.deref Shore.overlay) Plane.envelope Plane.intersects
              Plane.intersects Plane.within Shore.water Shore.rtree
              128 1 1 8 8 (in_turn 11 1) (in_turn 6 128) shore_unambiguous)
    as (_ & _ & H).
  apply H; vm_compute; reflexivity.
Defined.

Lemma select_overlap_claims_once_witness :
  is_Some (select_overlap (Plane.deref Shore.overlay) Plane.envelope Plane.intersects
             Plane.intersects Plane.within 8 Shore.water Shore.rtree
             (in_turn (length Shore.water * (2 * length Shore.rtree + 2) + 3) 128)).
Proof.
  destruct (select_overlap_claims_once (Plane.deref Shore.overlay) Plane.envelope
              Plane.intersects Plane.intersects Plane.within Shore.water Shore.rtree 8
              (in_turn (length Shore.water * (2 * length Shore.rtree + 2) + 3) 128))
    as [H _].
  apply H, in_turn_gives_each.
Defined.

Example shore_selection : Shore.select 128 1 8 (in_turn 6 128) = Some [(1, [0])].
Proof. vm_compute. reflexivity. Qed.

Lemma select_candidate_filter_witness : 0 ∈ claimed [(1, [0])].
Proof.
  destruct (select_candidate_filter (Plane.deref Shore.overlay) Plane.envelope
              Plane.intersects Plane.intersects Plane.within Shore.water Shore.rtree)
    as [_ H].
  destruct (H 128 1 8 (in_turn 6 128) [(1, [0])]) as [_ Hclaimed];
    [vm_compute; reflexivity|].
  apply (Hclaimed 1 (Plane.MkRect 10 0 20 10) 0);
    [reflexivity|vm_compute; left|reflexivity|reflexivity].
Defined.

(** C4 as stated fails: the area polygon of [Shore] lies within the
    first water polygon and is in the record of the second. *)
Lemma contained_polygon_claimed_by_neighbour :
  ¬ (∀ hw sched result ix w a,
       select_overlap (Plane.deref Shore.overlay) Plane.envelope Plane.intersects
         Plane.intersects Plane.within hw Shore.water Shore.rtree sched = Some result →
       Shore.water !! ix = Some w →
       Plane.within (Plane.deref Shore.overlay a) w = true →
       a ∉ claimed result).
Proof.
  intros H.
  apply (H 8 (in_turn 6 128) [(1, [0])] 0 (Plane.MkRect 0 0 10 10) 0).
  - vm_compute. reflexivity.
  - reflexivity.
  - reflexivity.
  - vm_compute. left.
Qed.

End SelectFacts.

(** * Further properties of the code *)

(** ** parallel_for: the ranges in closed form *)

Module ParallelForMore.
Import ParallelFor ParallelForFacts.

(** X1 ([parallel_for], launch loop): when threads are started, with
    [n] threads and [size = q * n + r] ([r < n]), thread [i] is handed
    the range from [i * q + min i r] to [(i + 1) * q + min (i + 1) r].
    With fewer indices than threads ([size < n]) the first [size]
    threads get one index each and the other [n - size] threads are
    still started, each on the empty range [(size, size)]. *)
Theorem parallel_for_ranges_closed_form hw size num_threads min_size :
  let n := if num_threads =? 0 then hw else num_threads in
  n ≠ 1 → 0 < n → min_size < size →
  ∃ ranges,
    schedule_plan hw size num_threads min_size = Spawn ranges ∧
    (∀ i, i < n →
       ranges !! i = Some (i * (size / n) + min i (size mod n),
                           S i * (size / n) + min (S i) (size mod n))) ∧
    (size < n →
       ranges = ((λ i, (i, S i)) <$> seq 0 size) ++ replicate (n - size) (size, size)).
Proof.
  intros n Hn1 Hn0 Hsz. unfold schedule_plan. fold n.
  replace (n =? 1) with false by (symmetry; by apply Nat.eqb_neq).
  replace (size <=? min_size) with false by (symmetry; apply Nat.leb_gt; lia).
  replace (n =? 0) with false by (symmetry; apply Nat.eqb_neq; lia).
  simpl. eexists. split; [done|].
  assert (∀ i, i < n →
    launch n 0 0 (size / n) (size mod n) !! i
      = Some (i * (size / n) + min i (size mod n),
              S i * (size / n) + min (S i) (size mod n))) as Hlookup.
  { intros i Hi. rewrite launch_lookup by done. f_equal. f_equal; lia. }
  split; [done|].
  intros Hfew. apply list_eq. intros i.
  destruct (decide (i < n)) as [Hi|Hi].
  - rewrite Hlookup by done.
    rewrite (Nat.div_small size n), (Nat.mod_small size n) by done.
    destruct (decide (i < size)) as [Hlt|Hge].
    + rewrite lookup_app_l by (rewrite length_fmap, length_seq; lia).
      rewrite list_lookup_fmap, lookup_seq_lt by done. cbn [fmap option_fmap option_map plus].
      f_equal. f_equal; lia.
    + rewrite lookup_app_r by (rewrite length_fmap, length_seq; lia).
      rewrite length_fmap, length_seq.
      rewrite lookup_replicate_2 by lia. f_equal. f_equal; lia.
  - rewrite !(proj2 (lookup_ge_None _ _)); [done| |].
    + rewrite length_app, length_fmap, length_seq, length_replicate. lia.
    + rewrite launch_length. lia.
Qed.

Lemma parallel_for_ranges_closed_form_witness :
  ∃ ranges,
    schedule_plan 8 3 5 1 = Spawn ranges ∧
    (∀ i, i < 5 →
       ranges !! i = Some (i * (3 / 5) + min i (3 mod 5),
                           S i * (3 / 5) + min (S i) (3 mod 5))) ∧
    (3 < 5 →
       ranges = ((λ i, (i, S i)) <$> seq 0 3) ++ replicate (5 - 3) (3, 3)).
Proof. apply (parallel_for_ranges_closed_form 8 3 5 1); simpl; lia. Defined.

End ParallelForMore.

(** ** parallel_for: every thread is joined *)

Module ExecutorMore.
Import ParallelFor Executor ParallelForFacts ExecutorFacts.

Section Joins.
Context {Sh L E : Type}.
Variable enter : nat → nat → L.
Variable wstep : L → Sh → status L E * Sh.

(** No thread has caught anything. *)
Definition quiet (c : state Sh L E) : Prop :=
  exception c = None ∧
  Forall (λ t, match t with Work _ | Finished None => True | _ => False end) (threads c).

Lemma step_quiet i c :
  (∀ l, threads c !! i = Some (Work l) →
     match (wstep l (shared c)).1 with Running _ | Returned => True | _ => False end) →
  quiet c → quiet (step wstep i c).
Proof.
  intros Hcalm [Hex Hall]. unfold step.
  destruct (threads c !! i) as [[l|e|r|]|] eqn:Hi; [| |done..].
  - specialize (Hcalm l eq_refl). destruct (wstep l (shared c)) as [st sh].
    split; [done|]. simpl. apply Forall_insert; [done|].
    simpl in Hcalm. by destruct st.
  - eapply Forall_lookup_1 in Hall; [|exact Hi]. done.
Qed.

(** X2 ([parallel_for]): let [Inv] hold of the states a run goes
    through, and let every step of a worker call in such a state be
    defined and, if the call goes on, decrease [measure], which is at
    most [k] when a call begins.  Then with at least one thread to run,
    under every schedule that gives each thread [k + 2] turns,
    [parallel_for] joins all its threads and comes back; if moreover no
    step of a worker call raises in such a state, it returns
    normally. *)
Theorem parallel_for_joins (measure : L → nat) (Inv : state Sh L E → Prop) (k : nat)
    hw sh size num_threads min_size sched :
  let n := if num_threads =? 0 then hw else num_threads in
  (∀ ranges, ranges_of (schedule_plan hw size num_threads min_size) = Some ranges →
     Inv (spawn enter sh ranges) ∧
     Forall (λ r, measure (enter r.1 r.2) ≤ k) ranges) →
  (∀ i c, Inv c → Inv (step wstep i c)) →
  (∀ i c l, Inv c → threads c !! i = Some (Work l) →
     match (wstep l (shared c)).1 with
     | Running l' => measure l' < measure l
     | Undefined => False
     | _ => True
     end) →
  0 < n →
  gives_each (k + 2) n sched →
  (∃ o sh', parallel_for enter wstep hw sh size num_threads min_size sched = Some (o, sh')) ∧
  ((∀ i c l e, Inv c → threads c !! i = Some (Work l) → (wstep l (shared c)).1 ≠ Raised e) →
   ∃ sh', parallel_for enter wstep hw sh size num_threads min_size sched = Some (Return, sh')).
Proof.
  intros n Hinit Hstep Hsafe Hn Hsched.
  destruct (parallel_for_state_joins enter wstep measure Inv k hw sh size num_threads
              min_size sched Hinit (conj Hstep Hsafe) Hn Hsched) as (c & Hrun & _).
  unfold parallel_for. rewrite Hrun. simpl. split; [by eexists _, _|].
  intros Hcalm. unfold parallel_for_state in Hrun.
  destruct (ranges_of _) as [ranges|] eqn:Hplan; [|done]. simpl in Hrun.
  destruct (joined _); [|done]. injection Hrun as <-.
  destruct (Hinit ranges eq_refl) as [Hinv _].
  assert (Inv (exec wstep sched (spawn enter sh ranges)) ∧
          quiet (exec wstep sched (spawn enter sh ranges))) as [_ [Hex _]].
  { apply (exec_invariant wstep (λ c, Inv c ∧ quiet c)).
    - intros i c [Hc Hq]. split; [by apply Hstep|]. apply step_quiet; [|done].
      intros l Hl. specialize (Hsafe i c l Hc Hl).
      pose proof (Hcalm i c l) as Hnot.
      destruct (wstep l (shared c)) as [[l'| |e|] ?]; simpl in *; try done.
      by destruct (Hnot e).
    - split; [done|]. split; [done|]. simpl. by apply Forall_fmap, Forall_true. }
  unfold outcome_of. rewrite Hex. by eexists.
Qed.

End Joins.

End ExecutorMore.

(** ** The Shapefile class *)

Module ShpFacts.
Import Shp.

Section Facts.
Context {Polygon Box : Type}.
Variable return_envelope : Polygon → Box.

Abbreviation Shapefile := (Shp.Shapefile Polygon Box).

(** The calls that change a shapefile in memory. *)
Inductive call : Type :=
  | BuildRtreeIndex
  | AppendPolygon (polygon : Polygon)
  | AppendList (polygons : list Polygon)
  | AppendShapefile (other : Shapefile).

Definition perform (shp : Shapefile) (c : call) : Shapefile :=
  match c with
  | BuildRtreeIndex => build_rtree_index return_envelope shp
  | AppendPolygon polygon => append_polygon shp polygon
  | AppendList polygons => append_list shp polygons
  | AppendShapefile other => append return_envelope shp other
  end.

(** Every value of the index holds the address of an owned polygon and
    the envelope of that polygon. *)
Definition index_valid (shp : Shapefile) : Prop :=
  ∀ rtree box p, rtree_ shp = Some rtree → (box, p) ∈ rtree →
    ∃ polygon, polygons_ shp !! p = Some polygon ∧ box = return_envelope polygon.

Lemma append_list_fields (polygons : list Polygon) : ∀ shp : Shapefile,
  polygons_ (append_list shp polygons) = polygons_ shp ++ polygons ∧
  rtree_ (append_list shp polygons) = rtree_ shp.
Proof.
  unfold append_list. induction polygons as [|polygon polygons IH]; intros shp; simpl.
  - by rewrite app_nil_r.
  - destruct (IH (append_polygon shp polygon)) as [-> ->]. simpl.
    by rewrite <- app_assoc.
Qed.

Lemma elem_of_built (polygons : list Polygon) box p :
  (box, p) ∈ imap (λ p polygon, (return_envelope polygon, p)) polygons ↔
  ∃ polygon, polygons !! p = Some polygon ∧ box = return_envelope polygon.
Proof.
  rewrite list_elem_of_lookup. split.
  - intros [i Hi]. rewrite list_lookup_imap in Hi.
    destruct (polygons !! i) as [polygon|] eqn:Hp; [|done].
    simpl in Hi. injection Hi as <- <-. by exists polygon.
  - intros (polygon & Hp & ->). exists p. by rewrite list_lookup_imap, Hp.
Qed.

Lemma index_valid_grows (shp shp' : Shapefile) more :
  polygons_ shp' = polygons_ shp ++ more → rtree_ shp' = rtree_ shp →
  index_valid shp → index_valid shp'.
Proof.
  intros Hp Hr Hv rtree box p Hrtree Hin. rewrite Hr in Hrtree.
  destruct (Hv rtree box p Hrtree Hin) as (polygon & Hl & ->).
  exists polygon. split; [|done]. rewrite Hp. by apply lookup_app_l_Some.
Qed.

(** X3 ([Shapefile::append(const Shapefile &)], [append(PolygonList)],
    [append(Polygon)], [build_rtree_index]): appending another
    shapefile keeps the polygons where they are, adds copies of the
    other's polygons after them in their order, and rebuilds the index,
    which then holds exactly one value per polygon, the envelope of the
    polygon with its address, in the order of the polygons. *)
Theorem append_rebuilds_index (shp other : Shapefile) :
  let shp' := append return_envelope shp other in
  polygons_ shp' = polygons_ shp ++ polygons_ other ∧
  size shp' = size shp + size other ∧
  is_rtree_built shp' = true ∧
  ∃ rtree,
    rtree_ shp' = Some rtree ∧ length rtree = size shp' ∧
    (∀ p, rtree !! p = (λ polygon, (return_envelope polygon, p)) <$> polygons_ shp' !! p) ∧
    (∀ box p, (box, p) ∈ rtree ↔
       ∃ polygon, polygons_ shp' !! p = Some polygon ∧ box = return_envelope polygon).
Proof.
  intros shp'. unfold shp', append, size.
  destruct (append_list_fields (polygons_ other) shp) as [Hp _]. simpl.
  rewrite Hp. split; [done|]. split; [by rewrite length_app|]. split; [done|].
  eexists. split; [done|]. split; [by rewrite length_imap|]. split.
  - intros p. by rewrite list_lookup_imap.
  - apply elem_of_built.
Qed.

(** X4 (the [Shapefile] class in memory): whatever is appended and
    whenever the index is built, starting from an empty shapefile, a
    built index only holds addresses of polygons the shapefile owns,
    each with the envelope of its polygon, and never more values than
    there are polygons.  Appending polygons without rebuilding leaves
    the index as it was: [append(Polygon)] on a shapefile whose index
    covers all polygons yields one polygon that the index does not
    hold. *)
Theorem index_stays_valid (calls : list call) :
  let shp := foldl perform fresh calls in
  index_valid shp ∧
  (∀ rtree, rtree_ shp = Some rtree → length rtree ≤ size shp) ∧
  (∀ polygon rtree, rtree_ shp = Some rtree → length rtree = size shp →
     rtree_ (append_polygon shp polygon) = Some rtree ∧
     polygons_ (append_polygon shp polygon) !! size shp = Some polygon ∧
     ∀ box, (box, size shp) ∉ rtree).
Proof.
  intros shp.
  assert (index_valid shp ∧ ∀ rtree, rtree_ shp = Some rtree → length rtree ≤ size shp)
    as [Hvalid Hlen].
  { unfold shp. induction calls as [|c calls' IH] using rev_ind; [done|].
    rewrite foldl_app. simpl. destruct IH as [Hv Hl].
    set (s := foldl perform fresh calls') in *.
    assert (∀ s0 : Shapefile,
      index_valid (build_rtree_index return_envelope s0) ∧
      ∀ rtree, rtree_ (build_rtree_index return_envelope s0) = Some rtree →
        length rtree ≤ size (build_rtree_index return_envelope s0)) as Hbuild.
    { intros s0. split.
      - intros rtree box p [= <-] Hin. by apply elem_of_built.
      - intros rtree [= <-]. unfold size. simpl. by rewrite length_imap. }
    destruct c as [|polygon|polygons|other]; simpl.
    - apply Hbuild.
    - split.
      + by apply (index_valid_grows s _ [polygon]).
      + intros rtree Hr. unfold size. simpl. rewrite length_app.
        specialize (Hl rtree Hr). unfold size in Hl. lia.
    - destruct (append_list_fields polygons s) as [Hp Hr]. split.
      + by apply (index_valid_grows s _ polygons).
      + intros rtree Hrt. unfold size. rewrite Hp, length_app. rewrite Hr in Hrt.
        specialize (Hl rtree Hrt). unfold size in Hl. lia.
    - apply Hbuild. }
  split; [done|]. split; [done|].
  intros polygon rtree Hr Hfull. split; [done|]. split.
  - simpl. unfold size. by rewrite lookup_app_r, Nat.sub_diag.
  - intros box Hin. destruct (Hvalid rtree box (size shp) Hr Hin) as (q & Hq & _).
    apply lookup_lt_Some in Hq. unfold size in Hq. lia.
Qed.

End Facts.

Lemma index_stays_valid_witness :
  rtree_ (append_polygon
            (foldl (perform (λ polygon : nat, polygon)) fresh
               [AppendPolygon 7; BuildRtreeIndex]) 9) = Some [(7, 0)] ∧
  polygons_ (append_polygon
            (foldl (perform (λ polygon : nat, polygon)) fresh
               [AppendPolygon 7; BuildRtreeIndex]) 9) !! 1 = Some 9 ∧
  ∀ box : nat, (box, 1) ∉ [(7, 0)].
Proof.
  destruct (index_stays_valid (λ polygon : nat, polygon) [AppendPolygon 7; BuildRtreeIndex])
    as (_ & _ & H).
  apply (H 9 [(7, 0)]); reflexivity.
Defined.

End ShpFacts.

(** ** Reading and writing polygons *)

From Stdlib Require Import Sorted.

Module CodecFacts.
Import Codec.

(** Decide the first integer test of the goal. *)
Ltac ztest :=
  match goal with
  | |- context [(?a =? ?b)%Z] => destruct (Z.eqb_spec a b)
  | |- context [(?a <? ?b)%Z] => destruct (Z.ltb_spec a b)
  end.

Section Facts.
Context {Coord : Type}.

Abbreviation Point := (Coord * Coord)%type.
Abbreviation Ring := (list Point).
Abbreviation Polygon := (Codec.Polygon Coord).
Abbreviation SHPObject := (Codec.SHPObject Coord).

Lemma to_int_small n : (Z.of_nat n < 2 ^ 31)%Z → to_int n = Z.of_nat n.
Proof.
  intros Hn. unfold to_int. rewrite Z.mod_small by lia.
  destruct (Z.ltb_spec (Z.of_nat n) (2 ^ 31)); [done|lia].
Qed.

Lemma read_points_all (ring : Ring) : ∀ (xs ys : list Coord) acc,
  read_points (length ring) (ring.*1 ++ xs) (ring.*2 ++ ys) acc = Some (acc ++ ring, xs, ys).
Proof.
  induction ring as [|[cx cy] ring IH]; intros xs ys acc; simpl.
  - by rewrite app_nil_r.
  - by rewrite IH, <- app_assoc.
Qed.

(** The number of vertices written before each ring of [rings], [pos]
    being the number written before the first. *)
Fixpoint offsets (pos : nat) (rings : list Ring) : list nat :=
  match rings with
  | [] => []
  | ring :: rings' => pos :: offsets (pos + length ring) rings'
  end.

Lemma offsets_app (a b : list Ring) : ∀ pos,
  offsets pos (a ++ b) = offsets pos a ++ offsets (pos + length (concat a)) b.
Proof.
  induction a as [|r a IH]; intros pos; simpl.
  - by rewrite Nat.add_0_r.
  - rewrite IH, length_app. do 3 f_equal. lia.
Qed.

Lemma length_offsets (rings : list Ring) pos : length (offsets pos rings) = length rings.
Proof. revert pos. induction rings as [|r rings IH]; intros pos; simpl; [done|by rewrite IH]. Qed.

Lemma offsets_lookup (done : list Ring) ring rest pos :
  offsets pos (done ++ ring :: rest) !! length done = Some (pos + length (concat done)).
Proof.
  rewrite offsets_app, lookup_app_r by (by rewrite length_offsets).
  by rewrite length_offsets, Nat.sub_diag.
Qed.

Lemma inner_starts_offsets (rings : list Ring) : ∀ ix pos acc,
  0 < ix → inner_starts ix pos rings acc = acc ++ (to_int <$> offsets pos rings).
Proof.
  induction rings as [|r rings IH]; intros ix pos acc Hix; simpl.
  - by rewrite app_nil_r.
  - rewrite IH by lia. destruct (Nat.ltb_spec 0 ix); [|lia]. by rewrite <- app_assoc.
Qed.

Lemma pan_starts_offsets (polygon : Polygon) :
  panPartStart (save_object polygon)
    = 0%Z :: (to_int <$> offsets (length (outer polygon)) (inners polygon)).
Proof.
  unfold save_object. simpl. destruct (inners polygon) as [|r rings]; [done|].
  simpl. by rewrite inner_starts_offsets by lia.
Qed.

Lemma pan_starts_lookup (polygon : Polygon) k :
  panPartStart (save_object polygon) !! S k
    = to_int <$> offsets (length (outer polygon)) (inners polygon) !! k.
Proof. by rewrite pan_starts_offsets, <- list_lookup_fmap. Qed.

Lemma pan_starts_first (polygon : Polygon) :
  panPartStart (save_object polygon) !! 0 = Some 0%Z.
Proof. by rewrite pan_starts_offsets. Qed.

(** A polygon whose vertex and ring counts fit an [int]. *)
Definition fits (polygon : Polygon) : Prop :=
  (Z.of_nat (length (outer polygon ++ concat (inners polygon))) < 2 ^ 31)%Z ∧
  (Z.of_nat (S (length (inners polygon))) < 2 ^ 31)%Z.

Lemma save_object_fields (polygon : Polygon) :
  fits polygon →
  nSHPType (save_object polygon) = SHPT_POLYGON ∧
  nParts (save_object polygon) = Z.of_nat (S (length (inners polygon))) ∧
  nVertices (save_object polygon)
    = Z.of_nat (length (outer polygon ++ concat (inners polygon))) ∧
  padfX (save_object polygon) = (outer polygon).*1 ++ (concat (inners polygon)).*1 ∧
  padfY (save_object polygon) = (outer polygon).*2 ++ (concat (inners polygon)).*2.
Proof.
  intros [Hv Hp]. split; [done|]. split.
  - change (nParts (save_object polygon))
      with (to_int (length (panPartStart (save_object polygon)))).
    rewrite pan_starts_offsets. simpl. rewrite length_fmap, length_offsets.
    by apply to_int_small.
  - split; [by apply to_int_small|]. simpl. by rewrite !fmap_app.
Qed.

Lemma read_inner_rings (polygon : Polygon) (rings : list Ring) : ∀ done,
  fits polygon →
  inners polygon = done ++ rings →
  read_parts (length rings) (Z.of_nat (S (length done))) (save_object polygon)
    (concat rings).*1 (concat rings).*2 (MkPolygon (outer polygon) done) = Done polygon.
Proof.
  induction rings as [|ring rings IH]; intros done Hfits Hin.
  - simpl. rewrite app_nil_r in Hin. subst done. by destruct polygon.
  - destruct (save_object_fields polygon Hfits) as (_ & HnParts & HnVertices & _).
    destruct Hfits as [Hv Hp].
    assert (length (outer polygon ++ concat (inners polygon))
            = length (outer polygon) + length (concat done) + length ring
              + length (concat rings)) as Htotal.
    { rewrite Hin, concat_app, !length_app. simpl. rewrite length_app. lia. }
    cbn [read_parts length]. rewrite HnParts, HnVertices.
    replace (Z.to_nat (Z.of_nat (S (length done)))) with (S (length done)) by lia.
    replace (Z.to_nat (Z.of_nat (S (length done)) + 1)) with (S (S (length done))) by lia.
    rewrite !pan_starts_lookup, Hin, offsets_lookup.
    cbn [fmap option_fmap option_map].
    rewrite to_int_small by lia.
    assert ((if (Z.of_nat (S (length done)) =? Z.of_nat (S (length (done ++ ring :: rings))) - 1)%Z
             then Some (Z.of_nat (length (outer polygon ++ concat (done ++ ring :: rings))))
             else to_int <$> offsets (length (outer polygon)) (done ++ ring :: rings)
                               !! S (length done))
            = Some (Z.of_nat (length (outer polygon) + length (concat done) + length ring)))
      as ->.
    { rewrite <- Hin, Htotal, Hin, length_app. cbn [length].
      destruct rings as [|ring' rings']; cbn [length concat].
      - ztest; [f_equal; lia|lia].
      - ztest; [lia|].
        replace (done ++ ring :: ring' :: rings') with ((done ++ [ring]) ++ ring' :: rings')
          by (by rewrite <- app_assoc).
        replace (S (length done)) with (length (done ++ [ring]))
          by (rewrite length_app; cbn [length]; lia).
        rewrite offsets_lookup. cbn [fmap option_fmap option_map].
        rewrite concat_app, length_app. cbn [concat]. rewrite app_nil_r.
        rewrite to_int_small; [f_equal; lia|lia]. }
    destruct (Z.ltb_spec
                (Z.of_nat (length (outer polygon) + length (concat done) + length ring)
                 - Z.of_nat (length (outer polygon) + length (concat done))) 0); [lia|].
    replace (Z.to_nat _) with (length ring) by lia.
    simpl concat. rewrite !fmap_app, read_points_all. simpl.
    destruct (Z.eqb_spec (Z.of_nat (S (length done))) 0); [lia|].
    specialize (IH (done ++ [ring]) (conj Hv Hp)).
    rewrite length_app in IH. simpl in IH.
    replace (Z.of_nat (S (length done)) + 1)%Z with (Z.of_nat (S (length done + 1))) by lia.
    apply IH. by rewrite <- app_assoc.
Qed.

Lemma read_saved (polygon : Polygon) :
  fits polygon → read_polygon (save_object polygon) = Done polygon.
Proof.
  intros Hfits.
  destruct (save_object_fields polygon Hfits) as (_ & HnParts & HnVertices & HX & HY).
  unfold read_polygon. rewrite HnParts, HX, HY.
  destruct (Z.ltb_spec (Z.of_nat (S (length (inners polygon))) - 1) 0); [lia|].
  replace (Z.to_nat (Z.of_nat (S (length (inners polygon))))) with (S (length (inners polygon)))
    by lia.
  cbn [read_parts]. rewrite HnParts, HnVertices.
  change (Z.to_nat (0 + 1)) with 1. change (Z.to_nat 0) with 0.
  rewrite pan_starts_lookup, pan_starts_first.
  assert ((if (0 =? Z.of_nat (S (length (inners polygon))) - 1)%Z
           then Some (Z.of_nat (length (outer polygon ++ concat (inners polygon))))
           else to_int <$> offsets (length (outer polygon)) (inners polygon) !! 0)
          = Some (Z.of_nat (length (outer polygon)))) as ->.
  { destruct Hfits as [Hv _]. destruct (inners polygon) as [|ring rings].
    - simpl. by rewrite app_nil_r.
    - destruct (Z.eqb_spec 0 (Z.of_nat (S (length (ring :: rings))) - 1)) as [He|_].
      { simpl in He. lia. }
      simpl. rewrite to_int_small; [done|]. rewrite length_app in Hv. lia. }
  destruct (Z.ltb_spec (Z.of_nat (length (outer polygon)) - 0) 0); [lia|].
  replace (Z.to_nat _) with (length (outer polygon)) by lia.
  rewrite read_points_all. simpl.
  by apply (read_inner_rings polygon (inners polygon) []).
Qed.

(** *** Shapes in general *)

Lemma read_points_take count : ∀ (x y : list Coord) acc,
  count ≤ length x → count ≤ length y →
  read_points count x y acc
    = Some (acc ++ zip (take count x) (take count y), drop count x, drop count y).
Proof.
  induction count as [|count IH]; intros x y acc Hx Hy.
  - simpl. by rewrite app_nil_r.
  - destruct x as [|cx x], y as [|cy y]; simpl in Hx, Hy; try lia.
    simpl. rewrite IH by lia. by rewrite <- app_assoc.
Qed.

Lemma zip_take_add n : ∀ m (x y : list Coord),
  n ≤ length x → n ≤ length y →
  zip (take (n + m) x) (take (n + m) y)
    = zip (take n x) (take n y) ++ zip (take m (drop n x)) (take m (drop n y)).
Proof.
  induction n as [|n IH]; intros m x y Hx Hy; [done|].
  destruct x as [|cx x], y as [|cy y]; simpl in Hx, Hy; try lia.
  simpl. f_equal. apply IH; lia.
Qed.

(** The part starts followed by the vertex count: ring [i] lies between
    entry [i] and entry [i + 1]. *)
Definition bounds (shape : SHPObject) : list Z := panPartStart shape ++ [nVertices shape].

(** The polygon after the rings read from part [lx] on were added. *)
Definition attach (lx : nat) (polygon : Polygon) (rings : list Ring) : Polygon :=
  match lx, rings with
  | 0, ring :: rings' => MkPolygon (outer polygon ++ ring) (inners polygon ++ rings')
  | _, _ => MkPolygon (outer polygon) (inners polygon ++ rings)
  end.

Lemma read_parts_rings (shape : SHPObject) :
  nParts shape = Z.of_nat (length (panPartStart shape)) →
  StronglySorted Z.le (bounds shape) →
  ∀ count lx x y polygon s,
    lx + count = length (panPartStart shape) →
    bounds shape !! lx = Some s →
    (nVertices shape - s ≤ Z.of_nat (length x))%Z →
    (nVertices shape - s ≤ Z.of_nat (length y))%Z →
    ∃ rings,
      length rings = count ∧
      read_parts count (Z.of_nat lx) shape x y polygon = Done (attach lx polygon rings) ∧
      Forall2 (λ (ring : Ring) (b : Z * Z), Z.of_nat (length ring) = (b.2 - b.1)%Z) rings
        (zip (drop lx (bounds shape)) (drop (S lx) (bounds shape))) ∧
      concat rings = zip (take (Z.to_nat (nVertices shape - s)) x)
                         (take (Z.to_nat (nVertices shape - s)) y).
Proof.
  intros HnParts Hsorted.
  assert (length (bounds shape) = S (length (panPartStart shape))) as Hlen.
  { unfold bounds. rewrite length_app. simpl. lia. }
  assert (bounds shape !! length (panPartStart shape) = Some (nVertices shape)) as Hlast.
  { unfold bounds. by rewrite lookup_app_r, Nat.sub_diag. }
  assert (∀ i j a b, i ≤ j → bounds shape !! i = Some a → bounds shape !! j = Some b →
            (a ≤ b)%Z) as Hmono.
  { revert Hsorted. generalize (bounds shape). intros l Hl.
    induction Hl as [|c l Hl IH Hall]; intros i j a b Hij Ha Hb; [done|].
    destruct i as [|i].
    - injection Ha as <-. destruct j as [|j]; [injection Hb as <-; lia|].
      rewrite Forall_forall in Hall. apply Hall. by eapply list_elem_of_lookup_2.
    - destruct j as [|j]; [lia|]. apply (IH i j); [lia|done..]. }
  induction count as [|count IH]; intros lx x y polygon s Hcount Hs Hx Hy.
  - exists []. rewrite Nat.add_0_r in Hcount. subst lx.
    rewrite Hlast in Hs. injection Hs as <-.
    rewrite Z.sub_diag. simpl. split; [done|]. split.
    { destruct (length (panPartStart shape)); simpl; by rewrite app_nil_r; destruct polygon. }
    split; [|done].
    rewrite (drop_ge (bounds shape) (S _)) by lia. by rewrite zip_with_nil_r.
  - assert (is_Some (bounds shape !! S lx)) as [e He].
    { apply lookup_lt_is_Some. lia. }
    assert (s ≤ e)%Z as Hse by (apply (Hmono lx (S lx)); [lia|done..]).
    assert (e ≤ nVertices shape)%Z as HeV.
    { apply (Hmono (S lx) (length (panPartStart shape))); [lia|done..]. }
    assert (panPartStart shape !! lx = Some s) as Hstart.
    { unfold bounds in Hs. by rewrite lookup_app_l in Hs by lia. }
    assert ((if (Z.of_nat lx =? nParts shape - 1)%Z then Some (nVertices shape)
             else panPartStart shape !! Z.to_nat (Z.of_nat lx + 1)) = Some e) as Hend.
    { rewrite HnParts. ztest.
      - replace (S lx) with (length (panPartStart shape)) in He by lia. congruence.
      - replace (Z.to_nat (Z.of_nat lx + 1)) with (S lx) by lia.
        unfold bounds in He. by rewrite lookup_app_l in He by lia. }
    cbn [read_parts]. rewrite Hend, Nat2Z.id, Hstart.
    destruct (Z.ltb_spec (e - s) 0) as [|_]; [lia|].
    rewrite read_points_take by lia. simpl app.
    set (n := Z.to_nat (e - s)).
    set (ring := zip (take n x) (take n y)).
    set (polygon1 := if (Z.of_nat lx =? 0)%Z
                     then MkPolygon (outer polygon ++ ring) (inners polygon)
                     else MkPolygon (outer polygon) (inners polygon ++ [ring])).
    destruct (IH (S lx) (drop n x) (drop n y) polygon1 e) as (rings & Hn & Hread & Hall & Hcat).
    { lia. } { done. }
    { rewrite length_drop. lia. } { rewrite length_drop. lia. }
    exists (ring :: rings). split; [simpl; by rewrite Hn|]. split.
    { replace (Z.of_nat lx + 1)%Z with (Z.of_nat (S lx)) by lia. rewrite Hread.
      f_equal. unfold polygon1. destruct lx as [|lx]; simpl; [done|].
      by rewrite <- app_assoc. }
    split.
    + rewrite (drop_S _ _ _ Hs), (drop_S _ _ _ He). simpl. constructor.
      * simpl. unfold ring. rewrite length_zip_with, !length_take. lia.
      * by rewrite (drop_S _ _ _ He) in Hall.
    + simpl. rewrite Hcat. unfold ring.
      replace (Z.to_nat (nVertices shape - s)) with (n + Z.to_nat (nVertices shape - e)) by lia.
      rewrite zip_take_add; [done|lia..].
Qed.

(** *** Loading *)

Context {Box : Type}.
Variable intersection : Polygon → Box → list Polygon.

Abbreviation handle := (handle_polygon intersection).

Lemma load_loop_app (a b : list SHPObject) : ∀ ix bbox acc,
  load_loop intersection (a ++ b) ix bbox acc =
    match load_loop intersection a ix bbox acc with
    | Done l => load_loop intersection b (ix + length a) bbox l
    | Throws e => Throws e
    | PastTheEnd => PastTheEnd
    end.
Proof.
  induction a as [|shape a IH]; intros ix bbox acc; simpl.
  - by rewrite Nat.add_0_r.
  - replace (ix + S (length a)) with (S ix + length a) by lia.
    destruct (if (0 <? nParts shape)%Z then panPartStart shape !! 0 else Some 0%Z)
      as [first|]; [|done].
    destruct ((0 <? nParts shape)%Z && negb (first =? 0)%Z); [done|].
    destruct ((nSHPType shape =? SHPT_POLYGON)%Z && negb (nVertices shape =? 0)%Z);
      [|apply IH].
    destruct (read_polygon shape); [apply IH|done..].
Qed.

(** Whether [save] writes any vertex for the polygon. *)
Definition has_vertices (polygon : Polygon) : bool :=
  negb (length (outer polygon ++ concat (inners polygon)) =? 0).

Lemma load_loop_saved (polygons : list Polygon) : ∀ ix bbox acc,
  Forall fits polygons →
  load_loop intersection (save_object <$> polygons) ix bbox acc
    = Done (foldl (λ l polygon, handle polygon bbox l) acc (filter has_vertices polygons)).
Proof.
  induction polygons as [|polygon polygons IH]; intros ix bbox acc Hfits; [done|].
  apply Forall_cons in Hfits as [Hfit Hfits].
  destruct (save_object_fields polygon Hfit) as (Htype & HnParts & HnVertices & _).
  rewrite fmap_cons. cbn [load_loop].
  rewrite HnParts, pan_starts_first, Htype, HnVertices, (read_saved polygon Hfit).
  destruct (Z.ltb_spec 0 (Z.of_nat (S (length (inners polygon))))) as [_|]; [|lia].
  rewrite Z.eqb_refl. simpl andb.
  destruct (has_vertices polygon) eqn:Hhas.
  - rewrite filter_cons_True by (by rewrite Hhas).
    apply negb_true_iff, Nat.eqb_neq in Hhas.
    destruct (Z.eqb_spec (Z.of_nat (length (outer polygon ++ concat (inners polygon)))) 0);
      [lia|].
    simpl. by apply IH.
  - rewrite filter_cons_False by (rewrite Hhas; exact id).
    apply negb_false_iff, Nat.eqb_eq in Hhas. rewrite Hhas. simpl. by apply IH.
Qed.

Lemma load_loop_skips (shapes : list SHPObject) : ∀ ix bbox acc,
  Forall (λ shape,
    ((nParts shape ≤ 0)%Z ∨ panPartStart shape !! 0 = Some 0%Z) ∧
    (nSHPType shape ≠ SHPT_POLYGON ∨ nVertices shape = 0%Z)) shapes →
  load_loop intersection shapes ix bbox acc = Done acc.
Proof.
  induction shapes as [|shape shapes IH]; intros ix bbox acc Hall; [done|].
  apply Forall_cons in Hall as [[Hparts Hkind] Hall]. simpl.
  assert (∃ first,
    (if (0 <? nParts shape)%Z then panPartStart shape !! 0 else Some 0%Z) = Some first ∧
    (0 <? nParts shape)%Z && negb (first =? 0)%Z = false) as (first & -> & ->).
  { destruct (Z.ltb_spec 0 (nParts shape)).
    - destruct Hparts as [| ->]; [lia|]. by exists 0%Z.
    - by exists 0%Z. }
  assert ((nSHPType shape =? SHPT_POLYGON)%Z && negb (nVertices shape =? 0)%Z = false) as ->.
  { destruct Hkind as [Hk | ->].
    - by apply Z.eqb_neq in Hk as ->.
    - apply andb_false_r. }
  by apply IH.
Qed.

Lemma foldl_snoc {A} (l acc : list A) : foldl (λ l x, l ++ [x]) acc l = acc ++ l.
Proof.
  revert acc. induction l as [|x l IH]; intros acc; simpl.
  - by rewrite app_nil_r.
  - by rewrite IH, <- app_assoc.
Qed.

(** X5 ([Shapefile::save], [read_polygon]): for a polygon whose vertex
    and ring counts fit an [int], the object [save] builds has one part
    per ring, the first part starting at 0, and as many vertices as the
    rings hold; [read_polygon] makes the same polygon of it again, ring
    by ring and vertex by vertex. *)
Theorem read_polygon_inverts_save (polygon : Polygon) :
  fits polygon →
  read_polygon (save_object polygon) = Done polygon ∧
  nSHPType (save_object polygon) = SHPT_POLYGON ∧
  nParts (save_object polygon) = Z.of_nat (S (length (inners polygon))) ∧
  panPartStart (save_object polygon) !! 0 = Some 0%Z ∧
  nVertices (save_object polygon)
    = Z.of_nat (length (outer polygon ++ concat (inners polygon))).
Proof.
  intros Hfits. destruct (save_object_fields polygon Hfits) as (Ht & Hp & Hv & _).
  split; [by apply read_saved|]. split; [done|]. split; [done|].
  split; [apply pan_starts_first|done].
Qed.

(** X6 ([read_polygon]): a shape without parts makes [reserve] throw
    [std::length_error].  For a shape with [nParts] part starts that
    are not negative and ascend up to [nVertices], and coordinate
    arrays long enough, [read_polygon] returns a polygon with one ring
    per part (the first is the outer ring), ring [i] holding as many
    points as lie between the start of part [i] and the start of the
    next part (or [nVertices]); one after the other the rings are the
    points [(padfX[j], padfY[j])] from [j = 0] on, [nVertices] minus
    the first part start of them. *)
Theorem read_polygon_partitions (shape : SHPObject) :
  ((- 2 ^ 31 < nParts shape ≤ 0)%Z → read_polygon shape = Throws LengthError) ∧
  (∀ first,
     nParts shape = Z.of_nat (length (panPartStart shape)) →
     head (panPartStart shape) = Some first →
     (0 ≤ first)%Z → (nVertices shape < 2 ^ 31)%Z →
     Sorted Z.le (bounds shape) →
     (nVertices shape - first ≤ Z.of_nat (length (padfX shape)))%Z →
     (nVertices shape - first ≤ Z.of_nat (length (padfY shape)))%Z →
     ∃ polygon,
       read_polygon shape = Done polygon ∧
       length (inners polygon) = length (panPartStart shape) - 1 ∧
       Forall2 (λ (ring : Ring) (b : Z * Z), Z.of_nat (length ring) = (b.2 - b.1)%Z)
         (outer polygon :: inners polygon)
         (zip (bounds shape) (tail (bounds shape))) ∧
       outer polygon ++ concat (inners polygon)
         = zip (take (Z.to_nat (nVertices shape - first)) (padfX shape))
               (take (Z.to_nat (nVertices shape - first)) (padfY shape))).
Proof.
  split.
  - intros Hn. unfold read_polygon.
    destruct (Z.ltb_spec (nParts shape - 1) 0); [done|lia].
  - intros first HnParts Hfirst _ _ Hsorted Hx Hy.
    assert (panPartStart shape !! 0 = Some first) as H0.
    { by destruct (panPartStart shape). }
    assert (0 < length (panPartStart shape)) as Hpos by (by eapply lookup_lt_Some).
    destruct (read_parts_rings shape HnParts
                (Sorted_StronglySorted Z.le_trans Hsorted)
                (length (panPartStart shape)) 0 (padfX shape) (padfY shape)
                (MkPolygon [] []) first)
      as (rings & Hlen & Hread & Hall & Hcat); [done| |done|done|].
    { unfold bounds. by rewrite lookup_app_l. }
    destruct rings as [|ring rings]; [simpl in Hlen; lia|].
    exists (MkPolygon ring rings). split.
    { unfold read_polygon. rewrite HnParts.
      destruct (Z.ltb_spec (Z.of_nat (length (panPartStart shape)) - 1) 0); [lia|].
      rewrite Nat2Z.id. exact Hread. }
    split; [simpl in *; lia|]. split; [|done].
    simpl. rewrite drop_0 in Hall. by destruct (bounds shape).
Qed.

(** X7 ([Shapefile::load]): the shapes are taken in file order, and the
    first one that has parts the first of which does not start at 0
    makes [load] throw "unable to read shape" with the number of that
    shape, whatever the type of the shape and whatever follows it.
    Shapes that are not polygons and polygons without vertices add
    nothing. *)
Theorem load_reports_first_unreadable (good rest : list SHPObject) (bad : SHPObject)
    bbox polygons first :
  load intersection good bbox = Done polygons →
  (0 < nParts bad)%Z → panPartStart bad !! 0 = Some first → first ≠ 0%Z →
  load intersection (good ++ bad :: rest) bbox = Throws (UnableToRead (length good)) ∧
  ∀ others,
    Forall (λ shape,
      ((nParts shape ≤ 0)%Z ∨ panPartStart shape !! 0 = Some 0%Z) ∧
      (nSHPType shape ≠ SHPT_POLYGON ∨ nVertices shape = 0%Z)) others →
    load intersection (good ++ others) bbox = Done polygons.
Proof.
  intros Hgood Hparts Hstart Hfirst. unfold load in *. split.
  - rewrite load_loop_app, Hgood. simpl. rewrite Hstart.
    destruct (Z.ltb_spec 0 (nParts bad)); [|lia].
    by apply Z.eqb_neq in Hfirst as ->.
  - intros others Hall. rewrite load_loop_app, Hgood. by apply load_loop_skips.
Qed.

(** X8 ([Shapefile::save] then [Shapefile::load]): loading the objects
    that [save] writes for polygons that fit never throws and gives the
    polygons back in their order, each handled by [handle_polygon],
    except those without a single vertex, which [load] drops.  Without
    a clip box the loaded list is the saved list without those. *)
Theorem load_inverts_save (polygons : list Polygon) bbox :
  Forall fits polygons →
  load intersection (save_object <$> polygons) bbox
    = Done (foldl (λ l polygon, handle polygon bbox l) [] (filter has_vertices polygons)) ∧
  load intersection (save_object <$> polygons) None = Done (filter has_vertices polygons).
Proof.
  intros Hfits. unfold load. rewrite !load_loop_saved by done. split; [done|].
  f_equal. unfold handle_polygon. by rewrite foldl_snoc.
Qed.

End Facts.

(** A triangle with a two-point hole, with integer coordinates. *)
Definition triangle : Codec.Polygon Z :=
  MkPolygon [(0, 0); (4, 0); (0, 4)]%Z [[(1, 1); (2, 1)]%Z].

Lemma read_polygon_inverts_save_witness :
  read_polygon (save_object triangle) = Done triangle ∧
  nSHPType (save_object triangle) = SHPT_POLYGON ∧
  nParts (save_object triangle) = Z.of_nat (S (length (inners triangle))) ∧
  panPartStart (save_object triangle) !! 0 = Some 0%Z ∧
  nVertices (save_object triangle)
    = Z.of_nat (length (outer triangle ++ concat (inners triangle))).
Proof. apply (read_polygon_inverts_save triangle). split; reflexivity. Defined.

Lemma read_polygon_partitions_witness :
  ∃ polygon,
    read_polygon (MkSHPObject 5 2 [0; 3] 5 [0; 4; 0; 1; 2] [0; 0; 4; 1; 1])%Z = Done polygon ∧
    length (inners polygon) = 1 ∧
    Forall2 (λ (ring : list (Z * Z)) (b : Z * Z), Z.of_nat (length ring) = (b.2 - b.1)%Z)
      (outer polygon :: inners polygon) [(0, 3); (3, 5)]%Z ∧
    outer polygon ++ concat (inners polygon) = [(0, 0); (4, 0); (0, 4); (1, 1); (2, 1)]%Z.
Proof.
  destruct (read_polygon_partitions
              (MkSHPObject 5 2 [0; 3] 5 [0; 4; 0; 1; 2] [0; 0; 4; 1; 1])%Z) as [_ H].
  apply (H 0%Z); [reflexivity|reflexivity|lia|simpl; lia| |simpl; lia|simpl; lia].
  repeat constructor; simpl; lia.
Defined.

Lemma load_reports_first_unreadable_witness :
  load (λ (polygon : Codec.Polygon Z) (box : unit), [polygon])
    ([save_object triangle] ++ MkSHPObject 1 1 [2%Z] 0 [] [] :: [save_object triangle]) None
    = Throws (UnableToRead 1) ∧
  ∀ others,
    Forall (λ shape : Codec.SHPObject Z,
      ((nParts shape ≤ 0)%Z ∨ panPartStart shape !! 0 = Some 0%Z) ∧
      (nSHPType shape ≠ SHPT_POLYGON ∨ nVertices shape = 0%Z)) others →
    load (λ (polygon : Codec.Polygon Z) (box : unit), [polygon])
      ([save_object triangle] ++ others) None = Done [triangle].
Proof.
  apply (load_reports_first_unreadable (λ (polygon : Codec.Polygon Z) (box : unit), [polygon])
           [save_object triangle] [save_object triangle] (MkSHPObject 1 1 [2%Z] 0 [] [])
           None [triangle] 2%Z); [reflexivity|reflexivity|reflexivity|discriminate].
Defined.

Lemma load_inverts_save_witness :
  load (λ (polygon : Codec.Polygon Z) (box : unit), [polygon])
    (save_object <$> [triangle; MkPolygon [] []; triangle]) (Some tt)
    = Done (foldl (λ l polygon,
                     handle_polygon (λ (polygon : Codec.Polygon Z) (box : unit), [polygon])
                       polygon (Some tt) l) []
              (filter has_vertices [triangle; MkPolygon [] []; triangle])) ∧
  load (λ (polygon : Codec.Polygon Z) (box : unit), [polygon])
    (save_object <$> [triangle; MkPolygon [] []; triangle]) None
    = Done (filter has_vertices [triangle; MkPolygon [] []; triangle]).
Proof.
  apply (load_inverts_save (λ (polygon : Codec.Polygon Z) (box : unit), [polygon])
           [triangle; MkPolygon [] []; triangle] (Some tt)).
  repeat constructor; reflexivity.
Defined.

End CodecFacts.

(** ** The command line of the program *)

Module MainFacts.
Import Main.
Import Stdlib.Strings.Ascii Stdlib.Strings.String.

(** An argument that the loop does not take for an option: at most one
    character long, or not starting with a dash. *)
Definition plain (arg : string) : Prop :=
  (1 <? String.length arg) && starts_with_dash arg = false.

Lemma plain_not_flag arg : plain arg → is_output_flag arg = false.
Proof.
  intros Hplain. unfold is_output_flag.
  destruct (String.eqb_spec arg "-o") as [->|_]; [discriminate Hplain|].
  destruct (String.eqb_spec arg "-O") as [->|_]; [discriminate Hplain|done].
Qed.

Lemma flag_not_plain flag : is_output_flag flag = true → ¬ plain flag.
Proof. intros Hflag Hplain. apply plain_not_flag in Hplain. congruence. Qed.

Lemma parse_options_plain (files : list string) : ∀ rest output_file output_specified acc,
  Forall plain files →
  parse_options (files ++ rest) output_file output_specified acc
    = parse_options rest output_file output_specified (acc ++ files).
Proof.
  induction files as [|arg files IH]; intros rest o s acc Hplain.
  - by rewrite app_nil_r.
  - apply Forall_cons in Hplain as [Harg Hplain]. simpl.
    rewrite (plain_not_flag arg Harg). unfold plain in Harg. rewrite Harg.
    rewrite IH by done. by rewrite <- app_assoc.
Qed.

Lemma parse_options_flag flag value rest output_file output_specified acc :
  is_output_flag flag = true →
  parse_options (flag :: value :: rest) output_file output_specified acc
    = parse_options rest value true acc.
Proof. intros Hflag. simpl. by rewrite Hflag. Qed.

Lemma parse_options_last flag output_file output_specified acc :
  is_output_flag flag = true →
  parse_options [flag] output_file output_specified acc = inl flag.
Proof.
  intros Hflag. simpl. rewrite Hflag.
  destruct ((1 <? String.length flag) && starts_with_dash flag) eqn:Hplain; [done|].
  by destruct (flag_not_plain flag Hflag).
Qed.

(** What the option loop has decided when it stops, in terms of the
    arguments it went through. *)
Definition decided (args : list string) (output_file : string) (output_specified : bool)
    (acc : list string) (r : string + (string * bool * list string)) : Prop :=
  match r with
  | inl arg => arg ∈ args ∧ ¬ plain arg
  | inr (output_file', output_specified', region_files) =>
      ∃ files,
        region_files = acc ++ files ∧ Forall plain files ∧ sublist files args ∧
        ((output_specified' = output_specified ∧ output_file' = output_file) ∨
         (output_specified' = true ∧
          ∃ i flag, args !! i = Some flag ∧ is_output_flag flag = true ∧
                    args !! S i = Some output_file'))
  end.

Lemma decided_skip arg args output_file output_specified acc r :
  plain arg →
  decided args output_file output_specified (acc ++ [arg]) r →
  decided (arg :: args) output_file output_specified acc r.
Proof.
  intros Harg. destruct r as [bad|[[o s] rs]]; simpl.
  - intros [Hin Hbad]. split; [by right|done].
  - intros (files & -> & Hplain & Hsub & Hout).
    exists (arg :: files). split; [by rewrite <- app_assoc|].
    split; [by constructor|]. split; [by constructor|].
    destruct Hout as [Hsame|(-> & i & flag & Hi & Hflag & Hv)]; [by left|right].
    split; [done|]. by exists (S i), flag.
Qed.

Lemma decided_value flag value args output_file output_specified acc r :
  is_output_flag flag = true →
  decided args value true acc r →
  decided (flag :: value :: args) output_file output_specified acc r.
Proof.
  intros Hflag. destruct r as [bad|[[o s] rs]]; simpl.
  - intros [Hin Hbad]. split; [by do 2 right|done].
  - intros (files & -> & Hplain & Hsub & Hout).
    exists files. split; [done|]. split; [done|].
    split; [by do 2 constructor|]. right.
    destruct Hout as [[-> ->]|(-> & i & flag' & Hi & Hflag' & Hv)].
    + split; [done|]. by exists 0, flag.
    + split; [done|]. by exists (S (S i)), flag'.
Qed.

Lemma parse_options_decided (n : nat) : ∀ args output_file output_specified acc,
  List.length args < n →
  decided args output_file output_specified acc
    (parse_options args output_file output_specified acc).
Proof.
  induction n as [|n IH]; intros args o s acc Hn; [lia|].
  destruct args as [|arg rest].
  - simpl. exists []. rewrite app_nil_r. split; [done|]. split; [done|].
    split; [constructor|by left].
  - simpl in Hn.
    assert (decided (arg :: rest) o s acc
              (if (1 <? String.length arg) && starts_with_dash arg then inl arg
               else parse_options rest o s (acc ++ [arg]))) as Hotherwise.
    { destruct ((1 <? String.length arg) && starts_with_dash arg) eqn:Harg.
      - simpl. split; [by left|]. unfold plain. by rewrite Harg.
      - apply decided_skip; [done|]. apply IH. lia. }
    simpl. destruct (is_output_flag arg) eqn:Hflag; [|done].
    destruct rest as [|value rest']; [done|].
    apply decided_value; [done|]. apply IH. simpl in Hn. lia.
Qed.

(** X9 ([main], argument loop): with file names that are not
    option-like, the program takes the first argument for the water
    shapefile and the others for region files; without [-o] the output
    goes to the water file name followed by [_updated.shp]; an [-o] or
    [-O] followed by another argument sets the output to that argument,
    whatever it looks like, wherever the pair stands among the region
    files; an [-o] or [-O] in last position is reported as an
    unsupported option. *)
Theorem parse_command_accepts prog water_file (before after : list string) flag output :
  Forall plain before → Forall plain after → before ++ after ≠ [] →
  is_output_flag flag = true →
  parse_command (prog :: water_file :: before ++ after)
    = Process water_file (water_file ++ "_updated.shp")%string (before ++ after) ∧
  parse_command (prog :: water_file :: before ++ flag :: output :: after)
    = Process water_file output (before ++ after) ∧
  parse_command (prog :: water_file :: before ++ [flag]) = UnsupportedOption flag.
Proof.
  intros Hbefore Hafter Hsome Hflag. unfold parse_command. split_and!.
  - rewrite <- (app_nil_r (before ++ after)) at 1.
    rewrite parse_options_plain by (by apply Forall_app). simpl.
    by destruct (before ++ after).
  - rewrite parse_options_plain, parse_options_flag by done.
    rewrite <- (app_nil_r after) at 1. rewrite parse_options_plain by done. simpl.
    by destruct (before ++ after).
  - rewrite parse_options_plain, parse_options_last by done. done.
Qed.

(** X10 ([main], argument loop): what each way out of the argument
    handling means.  The usage message is for fewer than two arguments
    (the program name included).  An argument reported as unsupported
    is among the arguments after the water file and is option-like
    (more than one character, the first a dash).  When the program goes
    on, the water file is the first argument, there is at least one
    region file, the region files are arguments that are not
    option-like, in the order given, and the output file is either the
    default name or an argument that follows an [-o] or [-O]. *)
Theorem parse_command_sound (argv : list string) :
  match parse_command argv with
  | Usage => List.length argv < 2
  | UnsupportedOption arg => arg ∈ drop 2 argv ∧ ¬ plain arg
  | NoRegionFile => 2 ≤ List.length argv
  | Process water_file output_file region_files =>
      argv !! 1 = Some water_file ∧
      region_files ≠ [] ∧ Forall plain region_files ∧
      sublist region_files (drop 2 argv) ∧
      (output_file = (water_file ++ "_updated.shp")%string ∨
       ∃ i flag, argv !! (2 + i) = Some flag ∧ is_output_flag flag = true ∧
                 argv !! (3 + i) = Some output_file)
  end.
Proof.
  destruct argv as [|prog [|water_file args]]; [simpl; lia..|].
  unfold parse_command.
  pose proof (parse_options_decided (S (List.length args)) args EmptyString false []
                ltac:(lia)) as Hdecided.
  destruct (parse_options args EmptyString false []) as [bad|[[o s] rs]]; [done|].
  destruct Hdecided as (files & Hrs & Hplain & Hsub & Hout). simpl in Hrs. subst rs.
  destruct files as [|file files]; [simpl; lia|].
  split; [done|]. split; [done|]. split; [done|]. split; [done|].
  destruct Hout as [[-> _]|(-> & i & flag & Hi & Hflag & Hv)]; [by left|right].
  by exists i, flag.
Qed.

Lemma parse_command_accepts_witness :
  parse_command ("uwp"%string :: "water.shp"%string :: ["a.shp"%string] ++ ["b.shp"%string])
    = Process "water.shp" ("water.shp" ++ "_updated.shp")%string
        (["a.shp"%string] ++ ["b.shp"%string]) ∧
  parse_command ("uwp"%string :: "water.shp"%string ::
                 ["a.shp"%string] ++ "-o"%string :: "-x"%string :: ["b.shp"%string])
    = Process "water.shp" "-x" (["a.shp"%string] ++ ["b.shp"%string]) ∧
  parse_command ("uwp"%string :: "water.shp"%string :: ["a.shp"%string] ++ ["-o"%string])
    = UnsupportedOption "-o".
Proof.
  apply (parse_command_accepts "uwp" "water.shp" ["a.shp"%string] ["b.shp"%string] "-o" "-x");
    [repeat constructor..|discriminate|reflexivity].
Defined.

End MainFacts.

(** ** More on select_overlap *)

Module SelectMore.
Import ParallelFor Executor Select ParallelForFacts ListFacts ExecutorFacts SelectFacts.

#[local] Arguments close_record : simpl never.

Section Facts.
Context {Polygon Box : Type}.
Variable deref : nat → Polygon.
Variable return_envelope : Polygon → Box.
Variable box_intersects : Box → Box → bool.
Variable intersects : Polygon → Polygon → bool.
Variable within : Polygon → Polygon → bool.
Variable water : list Polygon.
Variable rtree : list (Box * nat).

Abbreviation Claim := (nat * list nat)%type.
Abbreviation local := (nat * select_pc Polygon Box)%type.
Abbreviation sshared := (gset nat * list Claim)%type.
Abbreviation sstate := (state sshared local Empty_set).
Abbreviation sstep :=
  (select_step deref return_envelope box_intersects intersects within water rtree).
Abbreviation skip := (no_effect deref intersects within).
Abbreviation candidates := (cands return_envelope box_intersects rtree).
Abbreviation qualifying :=
  (qualifies deref return_envelope box_intersects intersects within rtree).
Abbreviation based :=
  (base_inv deref return_envelope box_intersects intersects within water rtree).
Abbreviation moving :=
  (moves deref return_envelope box_intersects intersects within water rtree).

(** *** One record per water polygon *)

(** The shared result names no index twice and only indices of the
    ranges of finished threads; no worker names an index twice in the
    records it holds. *)
Definition idx_inv (ranges : list (nat * nat)) (c : sstate) : Prop :=
  NoDup (shared c).2.*1 ∧
  (∀ record : Claim, record ∈ (shared c).2 →
     ∃ j r o, ranges !! j = Some r ∧ threads c !! j = Some (Finished o) ∧
              r.1 ≤ record.1 < r.2) ∧
  (∀ j l, threads c !! j = Some (Work l) → NoDup (pc_result l.2).*1).

(** What a move does to the records: nothing, or it closes a record, or
    it appends the worker's records to the shared result. *)
Lemma moves_records l sh st sh' :
  moving l sh st sh' →
  (sh'.2 = sh.2 ∧
   match st with
   | Running l' =>
       pc_result l'.2 = pc_result l.2 ∨
       ∃ ix w m result,
         l.2 = AtInner ix w [] m result ∧
         pc_result l'.2 = match m with [] => result | _ => result ++ [(ix, m)] end
   | Undefined => True
   | _ => False
   end) ∨
  (st = Returned ∧ ∃ result, l.2 = AtAppend result ∧ sh'.2 = sh.2 ++ result).
Proof.
  intros Hmove. destruct Hmove; simpl; try (left; split; [done|]; by left).
  - by left.
  - left. split; [done|]. right. by exists ix, w, m, result.
  - right. split; [done|]. by exists result.
Qed.

Lemma idx_inv_step ranges size i c :
  concat (map indices ranges) = seq 0 size →
  based ranges c → idx_inv ranges c → idx_inv ranges (Executor.step sstep i c).
Proof.
  intros Hcover [Hall _] (Hnodup & Howner & Hlocal).
  destruct (select_exec_step deref return_envelope box_intersects intersects within
              water rtree i c) as [->|(l & st & sh' & Hi & Hmove & ->)]; [done|].
  destruct (Forall2_lookup_r _ _ _ _ _ Hall Hi) as (r & Hr & Hl1 & Hbase).
  apply base_local_facts in Hbase as (Hidx & Hrec & _).
  assert (∀ record : Claim, record ∈ (shared c).2 →
            ∃ j r o, ranges !! j = Some r ∧
                     <[i:=after st]> (threads c) !! j = Some (Finished o) ∧
                     r.1 ≤ record.1 < r.2) as Howner'.
  { intros record Hin. destruct (Howner record Hin) as (j & r' & o & Hj & Hfin & Hrange).
    exists j, r', o. split; [done|]. split; [|done].
    rewrite list_lookup_insert_ne; [done|]. intros ->. congruence. }
  assert (∀ j l', j ≠ i → <[i:=after st]> (threads c) !! j = Some (Work l') →
            NoDup (pc_result l'.2).*1) as Hothers.
  { intros j l' Hne Hj. rewrite list_lookup_insert_ne in Hj by done. by eapply Hlocal. }
  destruct (moves_records _ _ _ _ Hmove) as [[Hsame Hst]|(-> & result & Hpc & Happ)].
  - unfold idx_inv. simpl. rewrite Hsame. split; [done|]. split; [done|].
    intros j l' Hj. destruct (decide (j = i)) as [->|Hne]; [|by eapply Hothers].
    rewrite list_lookup_insert_eq in Hj by (by eapply lookup_lt_Some).
    destruct st as [l''| | |]; simpl in Hj; try done. injection Hj as ->.
    destruct Hst as [->|(ix & w & m & result & Hpc & ->)]; [by eapply Hlocal|].
    specialize (Hlocal i l Hi). rewrite Hpc in Hlocal, Hrec, Hidx. simpl in *.
    destruct m as [|a m]; [done|].
    rewrite fmap_app. apply NoDup_app. split; [done|]. split; [|apply NoDup_singleton].
    simpl. intros x Hx ->%list_elem_of_singleton.
    apply list_elem_of_fmap in Hx as (record & -> & Hin).
    unfold records_ok in Hrec. rewrite Forall_forall in Hrec.
    destruct (Hrec record Hin) as [_ Hlt]. lia.
  - unfold idx_inv. simpl. rewrite Happ.
    specialize (Hlocal i l Hi). rewrite Hpc in Hlocal, Hrec, Hidx. simpl in *.
    unfold records_ok in Hrec. rewrite Forall_forall in Hrec.
    split_and!.
    + rewrite fmap_app. apply NoDup_app. split; [done|]. split; [|done].
      intros x Hx Hx'.
      apply list_elem_of_fmap in Hx as (record & -> & Hin).
      apply list_elem_of_fmap in Hx' as (record' & Heq & Hin').
      destruct (Howner record Hin) as (j & r' & o & Hj & Hfin & Hrange).
      destruct (Hrec record' Hin') as [_ Hrange'].
      assert (j = i) as ->.
      { apply (ranges_disjoint ranges size j i r' r record.1 Hcover); [done..|].
        rewrite Heq. lia. }
      congruence.
    + intros record [Hin|Hin]%elem_of_app; [by apply Howner'|].
      exists i, r, None. split; [done|]. split.
      * apply list_lookup_insert_eq. by eapply lookup_lt_Some.
      * destruct (Hrec record Hin) as [_ Hrange]. lia.
    + intros j l' Hj. destruct (decide (j = i)) as [->|Hne]; [|by eapply Hothers].
      by rewrite list_lookup_insert_eq in Hj by (by eapply lookup_lt_Some).
Qed.

Lemma idx_inv_spawn ranges : idx_inv ranges (spawn select_enter ((∅, []) : sshared) ranges).
Proof.
  split_and!; simpl.
  - constructor.
  - by intros record ?%elem_of_nil.
  - intros j l Hj. rewrite list_lookup_fmap in Hj.
    destruct (ranges !! j) as [[i0 i1]|]; [|done]. injection Hj as <-. simpl. constructor.
Qed.

Lemma select_indices_once num_threads min_size hw sched result :
  select_overlap_with deref return_envelope box_intersects intersects within
    num_threads min_size hw water rtree sched = Some result →
  NoDup result.*1.
Proof.
  intros (ranges & c & Hplan & Hc & Hj & <-)%select_overlap_with_inv.
  apply plan_ranges in Hplan as (Hcover & Hbound & _).
  set (c0 := spawn select_enter ((∅, []) : sshared) ranges : sstate) in *.
  assert (∀ i (c' : sstate), based ranges c' ∧ idx_inv ranges c' →
            broken (Executor.step sstep i c') ∨
            (based ranges (Executor.step sstep i c') ∧
             idx_inv ranges (Executor.step sstep i c'))) as Hstep.
  { intros i c' [Hbase Hidx].
    destruct (base_inv_step deref return_envelope box_intersects intersects within
                water rtree ranges i c' Hbase) as [Hb|Hbase']; [by left|right].
    split; [done|]. by eapply idx_inv_step. }
  assert (based ranges c0 ∧ idx_inv ranges c0) as Hinit.
  { split; [|apply idx_inv_spawn].
    apply base_inv_spawn. eapply Forall_impl; [exact Hbound|]. by intros r [? _]. }
  destruct (exec_invariant_unless_broken sstep
              (λ c, based ranges c ∧ idx_inv ranges c) Hstep sched c0 Hinit)
    as [Hb|[_ Hinv]].
  - rewrite <- Hc in Hb. by apply joined_not_broken in Hj.
  - rewrite <- Hc in Hinv. by destruct Hinv.
Qed.

(** X11 (two-argument [select_overlap]): whatever the schedule, the
    result holds at most one record for a water polygon: no index
    occurs in two records, every index is that of a water polygon, no
    record has an empty list, and so there are at most as many records
    as water polygons. *)
Theorem select_one_record_per_polygon num_threads min_size hw sched result :
  select_overlap_with deref return_envelope box_intersects intersects within
    num_threads min_size hw water rtree sched = Some result →
  NoDup result.*1 ∧
  Forall (λ record : Claim, record.1 < length water ∧ record.2 ≠ []) result ∧
  length result ≤ length water.
Proof.
  intros Hrun.
  pose proof (select_indices_once _ _ _ _ _ Hrun) as Hnodup.
  apply select_result_sound in Hrun as [Hok _].
  assert (Forall (λ record : Claim, record.1 < length water ∧ record.2 ≠ []) result) as Hall.
  { eapply Forall_impl; [exact Hok|]. intros record (Hne & w & Hw & _).
    split; [by eapply lookup_lt_Some|done]. }
  split; [done|]. split; [done|].
  assert (length result.*1 ≤ length (seq 0 (length water))) as Hle;
    [|by rewrite length_fmap, length_seq in Hle].
  apply submseteq_length, NoDup_submseteq; [done|].
  intros ix (record & -> & Hin)%list_elem_of_fmap.
  rewrite Forall_forall in Hall. destruct (Hall record Hin) as [Hlt _].
  apply elem_of_seq. lia.
Qed.

End Facts.

Lemma select_one_record_per_polygon_witness :
  NoDup [(1, [0])].*1 ∧
  Forall (λ record : nat * list nat, record.1 < length Shore.water ∧ record.2 ≠ [])
    [(1, [0])] ∧
  length [(1, [0])] ≤ length Shore.water.
Proof.
  apply (select_one_record_per_polygon (Plane.deref Shore.overlay) Plane.envelope
           Plane.intersects Plane.intersects Plane.within Shore.water Shore.rtree
           128 1 8 (in_turn 6 128)).
  vm_compute. reflexivity.
Defined.

(** The worker of the two-argument [select_overlap] is such a worker:
    its calls stay within the water polygons. *)
Lemma select_guarded {Polygon Box : Type} (deref : nat → Polygon)
    (return_envelope : Polygon → Box) (box_intersects : Box → Box → bool)
    (intersects within : Polygon → Polygon → bool)
    (water : list Polygon) (rtree : list (Box * nat)) :
  guarded (select_step deref return_envelope box_intersects intersects within water rtree)
    (select_measure rtree)
    (λ c, Forall (select_ok water) (threads c)).
Proof.
  split; [intros i c; apply select_ok_step|].
  intros i c l Hok Hl.
  pose proof (select_ok_step deref return_envelope box_intersects intersects within
                water rtree i c Hok) as Hnext.
  destruct (select_step deref return_envelope box_intersects intersects within water rtree
              l (shared c)) as [st sh'] eqn:Hst.
  rewrite (step_work _ i c l st sh' Hl Hst) in Hnext. simpl in *.
  destruct st as [l'| |e|]; [|done|done|].
  - by eapply select_measure_decreases.
  - eapply Forall_lookup_1 in Hnext;
      [|apply list_lookup_insert_eq; by eapply lookup_lt_Some].
    done.
Qed.

Lemma parallel_for_joins_witness :
  ∃ sh',
    parallel_for select_enter
      (select_step (Plane.deref Shore.overlay) Plane.envelope Plane.intersects
         Plane.intersects Plane.within Shore.water Shore.rtree)
      8 (∅, []) (length Shore.water) 128 1 (in_turn 11 128) = Some (Return, sh').
Proof.
  apply (ExecutorMore.parallel_for_joins select_enter
           (select_step (Plane.deref Shore.overlay) Plane.envelope Plane.intersects
              Plane.intersects Plane.within Shore.water Shore.rtree)
           (select_measure Shore.rtree)
           (λ c, Forall (select_ok Shore.water) (threads c)) 9
           8 (∅, []) (length Shore.water) 128 1 (in_turn 11 128)).
  - intros ranges (_ & Hbound & _)%plan_ranges. split.
    + simpl. apply Forall_fmap. eapply Forall_impl; [exact Hbound|].
      intros [i0 i1]. simpl. lia.
    + eapply Forall_impl; [exact Hbound|]. intros [i0 i1]. simpl.
      unfold select_measure. simpl. lia.
  - apply select_guarded.
  - apply select_guarded.
  - simpl. lia.
  - apply in_turn_gives_each.
  - intros i c l [].
Defined.

End SelectMore.

(** ** The five-argument select_overlap *)

Module SelectRange.
Import Select ListFacts SelectFacts.

Section Facts.
Context {Polygon Box : Type}.
Variable deref : nat → Polygon.
Variable return_envelope : Polygon → Box.
Variable box_intersects : Box → Box → bool.
Variable intersects : Polygon → Polygon → bool.
Variable within : Polygon → Polygon → bool.
Variable water : list Polygon.
Variable rtree : list (Box * nat).

Abbreviation Claim := (nat * list nat)%type.
Abbreviation skip := (no_effect deref intersects within).
Abbreviation qualifying :=
  (qualifies deref return_envelope box_intersects intersects within rtree).
Abbreviation inner_loop := (scan deref intersects within).
Abbreviation outer_loop :=
  (select_loop deref return_envelope box_intersects intersects within).
Abbreviation range :=
  (select_overlap_range deref return_envelope box_intersects intersects within water rtree).







End Facts.


End SelectRange.

(** ** The region covered: cascade_union and merge_overlapping *)

Module RegionFacts.
Import Cascade Merge CascadeFacts MergeFacts ExecutorFacts.

Section Facts.
Context {Polygon Point : Type}.
Abbreviation MultiPolygon := (list Polygon).
Variable area : MultiPolygon → Q.
Variable multi_polygon_union : MultiPolygon → MultiPolygon → MultiPolygon.
Context `{PQ : !PriorityQueue area}.
Variable polygon_union : Polygon → Polygon → list Polygon.

Abbreviation OverlapRecord := (nat * list Polygon)%type.
Abbreviation reduce := (cascade_union area multi_polygon_union).
Abbreviation by_spec := (apply_record_spec area multi_polygon_union polygon_union).

(** [inside p x]: the point [x] lies in the polygon [p]. *)
Variable inside : Polygon → Point → Prop.

(** The points of a multi-polygon. *)
Definition region (m : MultiPolygon) (x : Point) : Prop := ∃ p, p ∈ m ∧ inside p x.

(** What [bg::union_] is for: the union holds the points of its two
    arguments. *)
Hypothesis multi_union_region :
  ∀ a b x, region (multi_polygon_union a b) x ↔ region a x ∨ region b x.
Hypothesis polygon_union_region :
  ∀ p q x, region (polygon_union p q) x ↔ inside p x ∨ inside q x.

Lemma region_nil x : region [] x ↔ False.
Proof. split; [|done]. by intros (p & ?%elem_of_nil & _). Qed.

Lemma region_cons p m x : region (p :: m) x ↔ inside p x ∨ region m x.
Proof.
  split.
  - intros (q & [->|Hin]%elem_of_cons & Hq); [by left|right; by exists q].
  - intros [Hp|(q & Hin & Hq)]; [exists p; split; [by left|done]|].
    exists q. split; [by right|done].
Qed.

Lemma region_app m1 m2 x : region (m1 ++ m2) x ↔ region m1 x ∨ region m2 x.
Proof.
  induction m1 as [|p m1 IH]; simpl.
  - rewrite region_nil. tauto.
  - rewrite !region_cons, IH. tauto.
Qed.

Lemma smallest_first_region ms log r :
  smallest_first area multi_polygon_union ms log r →
  ∀ x, region r x ↔ ∃ m, m ∈ ms ∧ region m x.
Proof.
  induction 1 as [m|ms a b rest log r Hperm Ha Hb Hc IH]; intros x.
  - split; [intros Hm; exists m; split; [by left|done]|].
    by intros (m' & ->%list_elem_of_singleton & Hm).
  - rewrite IH. split.
    + intros (m & [->|Hin]%elem_of_cons & Hm).
      * apply multi_union_region in Hm as [Hm|Hm]; [exists a|exists b];
          (split; [|done]); rewrite Hperm; [by left|right; by left].
      * exists m. split; [|done]. rewrite Hperm. by do 2 right.
    + intros (m & Hin & Hm). rewrite Hperm in Hin.
      apply elem_of_cons in Hin as [->|[->|Hin]%elem_of_cons].
      * exists (multi_polygon_union a b). split; [by left|].
        apply multi_union_region. by left.
      * exists (multi_polygon_union a b). split; [by left|].
        apply multi_union_region. by right.
      * exists m. split; [by right|done].
Qed.

Lemma cascade_union_covers (polygons : list Polygon) x :
  region (reduce polygons) x ↔ region polygons x.
Proof.
  destruct polygons as [|p polygons]; [done|].
  destruct (cascade_union_traced_spec area multi_polygon_union (p :: polygons))
    as (q & log & _ & Htraced & [r Hr] & _ & Hcascade); [done|].
  unfold cascade_union. rewrite Htraced, Hr. simpl.
  rewrite (smallest_first_region _ _ _ (Hcascade r Hr)). split.
  - intros (m & (p' & -> & Hin)%list_elem_of_fmap & Hm).
    apply region_cons in Hm as [Hp|?%region_nil]; [|done]. by exists p'.
  - intros (p' & Hin & Hp). exists [p']. split.
    + apply list_elem_of_fmap. by exists p'.
    + apply region_cons. by left.
Qed.

Lemma region_lookup (base : list Polygon) i p x :
  base !! i = Some p → inside p x → region base x.
Proof. intros Hi Hp. exists p. split; [by eapply list_elem_of_lookup_2|done]. Qed.

Lemma region_insert_new (base : list Polygon) i piece x :
  i < length base → inside piece x → region (<[i:=piece]> base) x.
Proof. intros Hi Hp. apply (region_lookup _ i piece); [by apply list_lookup_insert_eq|done]. Qed.

Lemma region_insert_old (base : list Polygon) i bp piece x :
  base !! i = Some bp → region base x → region (<[i:=piece]> base) x ∨ inside bp x.
Proof.
  intros Hi (p & [j Hj]%list_elem_of_lookup & Hp).
  destruct (decide (j = i)) as [->|Hne]; [right; congruence|].
  left. apply (region_lookup _ j p); [by rewrite list_lookup_insert_ne|done].
Qed.

Lemma region_insert_inv (base : list Polygon) i piece x :
  region (<[i:=piece]> base) x → region base x ∨ inside piece x.
Proof.
  intros (p & [j Hj]%list_elem_of_lookup & Hp).
  apply list_lookup_insert_Some in Hj as [(_ & -> & _)|[_ Hj]]; [by right|].
  left. by apply (region_lookup _ j p).
Qed.

Lemma by_spec_region base queued (record : OverlapRecord) :
  record.1 < length base →
  length (by_spec (base, queued) record).1 = length base ∧
  ∀ x, region ((by_spec (base, queued) record).1 ++ (by_spec (base, queued) record).2) x
       ↔ region (base ++ queued) x ∨ region record.2 x.
Proof.
  intros Hvalid. rewrite by_spec_unfold.
  pose proof (cascade_union_covers record.2) as Hreduce.
  destruct (reduce record.2) as [|first others].
  { split; [done|]. intros x. rewrite <- Hreduce, region_nil. tauto. }
  destruct (lookup_lt_is_Some_2 base record.1 Hvalid) as [bp Hbp]. rewrite Hbp.
  pose proof (polygon_union_region bp first) as Hunion.
  destruct (polygon_union bp first) as [|piece pieces]; simpl.
  - split; [done|]. intros x.
    destruct (Hunion x) as [_ Hnone]. destruct (Hreduce x) as [Hall Hback].
    rewrite region_nil in Hnone. rewrite region_cons in Hall, Hback.
    rewrite !region_app. split.
    + intros [Hb|[Hq|Ho]]; [by left; left|by left; right|right; apply Hall; by right].
    + intros [[Hb|Hq]|[Hf|Ho]%Hback]; [by left|by right; left| |by right; right].
      destruct Hnone. by right.
  - split; [by rewrite length_insert|]. intros x.
    destruct (Hunion x) as [Hsrc Hdst]. destruct (Hreduce x) as [Hall Hback].
    rewrite region_cons in Hsrc, Hdst, Hall, Hback.
    rewrite !region_app.
    assert (inside piece x ∨ region pieces x →
            (region base x ∨ region queued x) ∨ region record.2 x) as Hout.
    { intros [Hb|Hf]%Hsrc.
      - left. left. by apply (region_lookup _ record.1 bp).
      - right. apply Hall. by left. }
    assert (inside bp x ∨ inside first x →
            region (<[record.1:=piece]> base) x
            ∨ region queued x ∨ region pieces x ∨ region others x) as Hin.
    { intros [Hp|Hps]%Hdst.
      - left. by apply region_insert_new.
      - right. right. by left. }
    split.
    + intros [[Hb|Hp]%region_insert_inv|[Hq|[Hps|Ho]]].
      * by left; left.
      * apply Hout. by left.
      * by left; right.
      * apply Hout. by right.
      * right. apply Hall. by right.
    + intros [[Hb|Hq]|[Hf|Ho]%Hback].
      * apply (region_insert_old base record.1 bp piece x Hbp) in Hb as [Hb|Hb]; [by left|].
        apply Hin. by left.
      * by right; left.
      * apply Hin. by right.
      * by right; right; right.
Qed.

Lemma foldl_by_spec_region (records : list OverlapRecord) : ∀ base queued,
  Forall (λ record : OverlapRecord, record.1 < length base) records →
  length (foldl by_spec (base, queued) records).1 = length base ∧
  ∀ x, region ((foldl by_spec (base, queued) records).1
               ++ (foldl by_spec (base, queued) records).2) x
       ↔ region (base ++ queued) x ∨ ∃ record, record ∈ records ∧ region record.2 x.
Proof.
  induction records as [|record records IH]; intros base queued Hvalid.
  - simpl. split; [done|]. intros x. split; [by left|].
    by intros [?|(record & ?%elem_of_nil & _)].
  - apply Forall_cons in Hvalid as [Hrecord Hvalid]. cbn [foldl].
    destruct (by_spec_region base queued record Hrecord) as [Hlen Hstep].
    destruct (by_spec (base, queued) record) as [base1 queued1]. simpl in Hlen, Hstep.
    destruct (IH base1 queued1) as [Hlen' Hrest].
    { eapply Forall_impl; [exact Hvalid|]. intros r. simpl. by rewrite Hlen. }
    split; [etrans; [exact Hlen'|exact Hlen]|]. intros x.
    etrans; [apply Hrest|]. rewrite Hstep. split.
    + intros [[?|?]|(r & Hin & Hr)]; [by left|right; exists record|right; exists r];
        (split; [|done]); [by left|by right].
    + intros [?|(r & [->|Hin]%elem_of_cons & Hr)]; [by left; left|by left; right|].
      right. by exists r.
Qed.

Lemma merge_overlapping_covers hw water overlap sched result :
  merge_overlapping area multi_polygon_union polygon_union hw water overlap sched
    = Some result →
  Forall (λ record : OverlapRecord, record.1 < length water) overlap →
  length water ≤ length result ∧
  ∀ x, region result x
       ↔ region water x ∨ ∃ record, record ∈ overlap ∧ region record.2 x.
Proof.
  intros (records & Hperm & ->)%merge_overlapping_refines Hvalid.
  rewrite <- Hperm in Hvalid.
  destruct (foldl_by_spec_region records water [] Hvalid) as [Hlen Hregion].
  unfold merge_spec.
  destruct (foldl by_spec (water, []) records) as [base' queued]. simpl in Hlen, Hregion.
  split; [rewrite length_app; lia|].
  intros x. rewrite Hregion, app_nil_r. split.
  - intros [?|(r & Hin & Hr)]; [by left|]. right. exists r. by rewrite <- Hperm.
  - intros [?|(r & Hin & Hr)]; [by left|]. right. exists r. by rewrite Hperm.
Qed.

(** X13 ([cascade_union]): if the union of two multi-polygons holds
    exactly the points of the two, the multi-polygon that
    [cascade_union] returns holds exactly the points of the polygons it
    was given, whatever the order in which the queue hands out
    multi-polygons of equal area. *)
Theorem cascade_union_region (polygons : list Polygon) :
  ∀ x, region (reduce polygons) x ↔ ∃ p, p ∈ polygons ∧ inside p x.
Proof. intros x. apply cascade_union_covers. Qed.

(** X14 ([merge_overlapping]): if unions hold exactly the points of
    their arguments and every record names a polygon of the base
    collection, then, under whatever schedule the workers ran, the
    updated collection holds exactly the points of the base collection
    and of the polygons of the records: nothing is lost when a slot is
    overwritten or a union is empty, and nothing is added.  The
    collection never gets shorter. *)
Theorem merge_overlapping_region hw water overlap sched result :
  merge_overlapping area multi_polygon_union polygon_union hw water overlap sched
    = Some result →
  Forall (λ record : OverlapRecord, record.1 < length water) overlap →
  length water ≤ length result ∧
  ∀ x, region result x
       ↔ region water x ∨ ∃ record p, record ∈ overlap ∧ p ∈ record.2 ∧ inside p x.
Proof.
  intros Hrun Hvalid.
  destruct (merge_overlapping_covers hw water overlap sched result Hrun Hvalid)
    as [Hlen Hregion].
  split; [done|]. intros x. rewrite Hregion. split.
  - intros [?|(r & Hin & p & Hp & Hx)]; [by left|]. right. by exists r, p.
  - intros [?|(r & p & Hin & Hp & Hx)]; [by left|]. right. exists r. split; [done|].
    by exists p.
Qed.

End Facts.

Import ListQueue.

(** The cell geometry satisfies the two assumptions. *)
Lemma cells_union_region (a b : list Cells.Polygon) (x : nat) :
  region (λ (p : Cells.Polygon) (x : nat), x ∈ p) (Cells.union a b) x
  ↔ region (λ (p : Cells.Polygon) (x : nat), x ∈ p) a x
    ∨ region (λ (p : Cells.Polygon) (x : nat), x ∈ p) b x.
Proof.
  unfold region, Cells.union, Cells.covered. split.
  - intros (p & ->%list_elem_of_singleton & Hx).
    apply elem_of_union in Hx as [Hx|Hx]; apply elem_of_union_list in Hx; auto.
  - intros Hx. eexists. split; [by left|].
    apply elem_of_union. destruct Hx as [Hx|Hx]; [left|right]; by apply elem_of_union_list.
Qed.

Lemma cells_polygon_union_region (p q : Cells.Polygon) (x : nat) :
  region (λ (p : Cells.Polygon) (x : nat), x ∈ p) (Cells.polygon_union p q) x
  ↔ x ∈ p ∨ x ∈ q.
Proof.
  unfold region, Cells.polygon_union. split.
  - intros (r & ->%list_elem_of_singleton & Hx). by apply elem_of_union in Hx.
  - intros Hx. eexists. split; [by left|]. by apply elem_of_union.
Qed.

Lemma cascade_union_region_witness :
  region (λ (p : Cells.Polygon) (x : nat), x ∈ p)
    (cascade_union Cells.area Cells.union ([{[1]}; {[2; 3]}; {[3; 4]}] : list (gset nat))) 3
  ↔ ∃ p : Cells.Polygon, p ∈ ([{[1]}; {[2; 3]}; {[3; 4]}] : list (gset nat)) ∧ 3 ∈ p.
Proof.
  apply (cascade_union_region Cells.area Cells.union (λ (p : Cells.Polygon) (x : nat), x ∈ p)
           cells_union_region).
Defined.

Lemma merge_overlapping_region_witness :
  length ([{[1]}; {[5]}] : list (gset nat))
    ≤ length ([{[1; 2; 7]}; {[5]}] : list (gset nat)) ∧
  ∀ x, region (λ (p : Cells.Polygon) (x : nat), x ∈ p)
         ([{[1; 2; 7]}; {[5]}] : list (gset nat)) x
       ↔ region (λ (p : Cells.Polygon) (x : nat), x ∈ p) ([{[1]}; {[5]}] : list (gset nat)) x
         ∨ ∃ (record : nat * list Cells.Polygon) p,
             record ∈ [(0, ([{[2]}; {[7]}] : list (gset nat)))] ∧ p ∈ record.2 ∧ x ∈ p.
Proof.
  apply (merge_overlapping_region Cells.area Cells.union Cells.polygon_union
           (λ (p : Cells.Polygon) (x : nat), x ∈ p)
           cells_union_region cells_polygon_union_region
           2 ([{[1]}; {[5]}] : list (gset nat))
           [(0, ([{[2]}; {[7]}] : list (gset nat)))] (Executor.in_turn 3 2)).
  - vm_compute. reflexivity.
  - repeat constructor.
Defined.

End RegionFacts.

(** ** Selection over a built index, and one region of the program *)

Module PipelineFacts.
Import Executor Cascade Merge Select Shp Main.
Import ExecutorFacts MergeFacts SelectFacts ShpFacts RegionFacts.

Section Facts.
Context {Polygon Box Point : Type}.
Variable area : list Polygon → Q.
Variable multi_polygon_union : list Polygon → list Polygon → list Polygon.
Context `{PQ : !PriorityQueue area}.
Variable polygon_union : Polygon → Polygon → list Polygon.
Variable return_envelope : Polygon → Box.
Variable box_intersects : Box → Box → bool.
Variable intersects : Polygon → Polygon → bool.
Variable within : Polygon → Polygon → bool.
Variable stray : Polygon.
Variable inside : Polygon → Point → Prop.

(** Polygons that intersect have envelopes that intersect. *)
Hypothesis envelope_sound :
  ∀ w a, intersects w a = true →
    box_intersects (return_envelope a) (return_envelope w) = true.
Hypothesis multi_union_region :
  ∀ a b x, region inside (multi_polygon_union a b) x
           ↔ region inside a x ∨ region inside b x.
Hypothesis polygon_union_region :
  ∀ p q x, region inside (polygon_union p q) x ↔ inside p x ∨ inside q x.

Abbreviation Claim := (nat * list nat)%type.

(** The index [build_rtree_index] makes of a list of polygons. *)
Definition built (area_polygons : list Polygon) : list (Box * nat) :=
  imap (λ p polygon, (return_envelope polygon, p)) area_polygons.

Abbreviation select area_polygons :=
  (select_overlap (pointee stray area_polygons) return_envelope box_intersects
     intersects within).

Lemma qualifies_built (area_polygons : list Polygon) w p :
  qualifies (pointee stray area_polygons) return_envelope box_intersects intersects within
    (built area_polygons) w p
  ↔ ∃ a, area_polygons !! p = Some a ∧
         box_intersects (return_envelope a) (return_envelope w) = true ∧
         intersects w a = true ∧ within a w = false.
Proof.
  unfold qualifies, cands, query. rewrite skip_false. split.
  - intros [Hc [Hi Hw]]. apply list_elem_of_fmap in Hc as ([box p'] & -> & Hin).
    apply list_elem_of_filter in Hin as [Hbox Hin]. simpl in *.
    apply elem_of_built in Hin as (a & Ha & ->).
    exists a. unfold pointee in Hi, Hw. rewrite Ha in Hi, Hw. simpl in Hi, Hw.
    split; [done|]. split; [by apply Is_true_true|done].
  - intros (a & Ha & Hbox & Hi & Hw). unfold pointee. rewrite Ha. simpl.
    split; [|done]. apply list_elem_of_fmap. exists (return_envelope a, p).
    split; [done|]. apply list_elem_of_filter. split; [by apply Is_true_true|].
    apply elem_of_built. by exists a.
Qed.

Lemma select_built hw water area_polygons sched (result : list Claim) :
  select area_polygons hw water (built area_polygons) sched = Some result →
  (∀ record, record ∈ result →
     record.2 ≠ [] ∧
     ∃ w, water !! record.1 = Some w ∧
       ∀ p, p ∈ record.2 →
         ∃ a, area_polygons !! p = Some a ∧ intersects w a = true ∧ within a w = false) ∧
  (∀ p, p ∈ claimed result ↔
     ∃ w a, w ∈ water ∧ area_polygons !! p = Some a ∧
            intersects w a = true ∧ within a w = false).
Proof.
  intros Hrun. unfold select_overlap in Hrun.
  apply select_result_sound in Hrun as [Hok Hall]. rewrite Forall_forall in Hok.
  assert (∀ record, record ∈ result →
     record.2 ≠ [] ∧
     ∃ w, water !! record.1 = Some w ∧
       ∀ p, p ∈ record.2 →
         ∃ a, area_polygons !! p = Some a ∧ intersects w a = true ∧ within a w = false)
    as Hrecords.
  { intros record Hin. destruct (Hok record Hin) as (Hne & w & Hw & Hq).
    split; [done|]. exists w. split; [done|]. intros p Hp.
    apply Hq, qualifies_built in Hp as (a & Ha & _ & Hi & Hwi). by exists a. }
  split; [done|]. intros p. split.
  - intros (record & Hin & Hp)%elem_of_claimed.
    destruct (Hrecords record Hin) as (_ & w & Hw & Hq).
    destruct (Hq p Hp) as (a & Ha & Hi & Hwi). exists w, a.
    split; [by eapply list_elem_of_lookup_2|done].
  - intros (w & a & [ix Hw]%list_elem_of_lookup & Ha & Hi & Hwi).
    apply (Hall ix w p Hw). apply qualifies_built. exists a.
    split; [done|]. split; [by apply envelope_sound|done].
Qed.

(** X15 ([select_overlap] on the index [build_rtree_index] built): if
    polygons that intersect have intersecting envelopes, the area
    polygons in the records are, whatever the schedule, exactly those
    that intersect some water polygon without lying within that one;
    each is in one record only, and it is in the record of a water
    polygon it intersects without lying within it.  The result is empty
    exactly when every area polygon that intersects a water polygon
    lies within it. *)
Theorem select_over_built_index hw water area_polygons sched (result : list Claim) :
  select area_polygons hw water (built area_polygons) sched = Some result →
  NoDup (claimed result) ∧
  (∀ p, p ∈ claimed result ↔
     ∃ w a, w ∈ water ∧ area_polygons !! p = Some a ∧
            intersects w a = true ∧ within a w = false) ∧
  (∀ record, record ∈ result →
     ∃ w, water !! record.1 = Some w ∧
       ∀ p, p ∈ record.2 →
         ∃ a, area_polygons !! p = Some a ∧ intersects w a = true ∧ within a w = false) ∧
  (result = [] ↔
   ∀ w a, w ∈ water → a ∈ area_polygons → intersects w a = true → within a w = true).
Proof.
  intros Hrun. pose proof (select_built _ _ _ _ _ Hrun) as [Hrecords Hclaimed].
  split; [by eapply select_claims_once|]. split; [done|]. split.
  { intros record Hin. by destruct (Hrecords record Hin) as [_ ?]. }
  split.
  - intros -> w a Hw [p Hp]%list_elem_of_lookup Hi.
    destruct (within a w) eqn:Hwi; [done|].
    assert (p ∈ claimed ([] : list Claim)) as Hin by (apply Hclaimed; by exists w, a).
    by apply elem_of_nil in Hin.
  - intros Hnone. destruct result as [|record result]; [done|].
    destruct (Hrecords record) as (Hne & w & Hw & Hq); [by left|].
    destruct record as [ix [|p m]]; [done|].
    destruct (Hq p) as (a & Ha & Hi & Hwi); [by left|].
    rewrite (Hnone w a) in Hwi; [done| | |done];
      by eapply list_elem_of_lookup_2.
Qed.

(** What one region does to the water shapefile, when it comes back. *)
Lemma process_region_covers hw (water_shp : Shapefile Polygon Box)
    (area_polygons : list Polygon) (scheds : list nat * list nat) out :
  process_region area multi_polygon_union polygon_union return_envelope box_intersects
    intersects within stray hw water_shp area_polygons scheds = Some out →
  rtree_ out = rtree_ water_shp ∧
  size water_shp ≤ size out ∧
  ∀ x, region inside (polygons_ out) x
       ↔ region inside (polygons_ water_shp) x
         ∨ ∃ w a, w ∈ polygons_ water_shp ∧ a ∈ area_polygons ∧
                  intersects w a = true ∧ within a w = false ∧ inside a x.
Proof.
  unfold process_region. simpl. fold (built area_polygons).
  destruct (select_overlap _ _ _ _ _ _ _ _ _) as [overlap|] eqn:Hselect; [|done]. simpl.
  destruct (merge_overlapping _ _ _ _ _ _ _) as [polygons|] eqn:Hmerge; [|done]. simpl.
  intros [= <-]. simpl. split; [done|].
  pose proof (select_built _ _ _ _ _ Hselect) as [Hrecords Hclaimed].
  assert (Forall (λ record : nat * list Polygon, record.1 < length (polygons_ water_shp))
            (polygons_of (pointee stray area_polygons) <$> overlap)) as Hvalid.
  { apply Forall_fmap, Forall_forall. intros record Hin.
    destruct (Hrecords record Hin) as (_ & w & Hw & _). simpl. by eapply lookup_lt_Some. }
  destruct (merge_overlapping_covers area multi_polygon_union polygon_union inside
              multi_union_region polygon_union_region hw _ _ _ _ Hmerge Hvalid)
    as [Hlen Hregion].
  split; [done|]. intros x. rewrite Hregion. split.
  - intros [Hwater|(record & Hin & p' & Hp' & Hx)]; [by left|right].
    apply list_elem_of_fmap in Hin as (claim & -> & Hin). simpl in Hp'.
    apply list_elem_of_fmap in Hp' as (p & -> & Hp).
    destruct (Hrecords claim Hin) as (_ & w & Hw & Hq).
    destruct (Hq p Hp) as (a & Ha & Hi & Hwi).
    unfold pointee in Hx. rewrite Ha in Hx. simpl in Hx.
    exists w, a. split_and!; [by eapply list_elem_of_lookup_2..|done|done|done].
  - intros [Hwater|(w & a & Hw & [p Hp]%list_elem_of_lookup & Hi & Hwi & Hx)]; [by left|right].
    assert (p ∈ claimed overlap) as (claim & Hin & Hpc)%elem_of_claimed.
    { apply Hclaimed. by exists w, a. }
    exists (polygons_of (pointee stray area_polygons) claim). split.
    + apply list_elem_of_fmap. by exists claim.
    + exists a. split; [|done]. simpl. apply list_elem_of_fmap. exists p.
      split; [|done]. unfold pointee. by rewrite Hp.
Qed.

Lemma process_region_returns hw (water_shp : Shapefile Polygon Box)
    (area_polygons : list Polygon) (scheds : list nat * list nat) :
  0 < hw →
  gives_each (size water_shp * (2 * length area_polygons + 2) + 3) 128 scheds.1 →
  gives_each 3 hw scheds.2 →
  is_Some (process_region area multi_polygon_union polygon_union return_envelope
             box_intersects intersects within stray hw water_shp area_polygons scheds).
Proof.
  intros Hhw Hsched1 Hsched2. unfold process_region. simpl.
  fold (built area_polygons).
  destruct (select_overlap_with_returns (pointee stray area_polygons) return_envelope
              box_intersects intersects within (polygons_ water_shp) (built area_polygons)
              128 1 hw scheds.1) as [overlap Hselect].
  { simpl. lia. }
  { unfold built. by rewrite length_imap. }
  fold (select_overlap (pointee stray area_polygons) return_envelope box_intersects
          intersects within hw (polygons_ water_shp) (built area_polygons) scheds.1)
    in Hselect.
  rewrite Hselect. simpl.
  pose proof (select_built _ _ _ _ _ Hselect) as [Hrecords _].
  assert (Forall (λ record : nat * list Polygon, record.1 < length (polygons_ water_shp))
            (polygons_of (pointee stray area_polygons) <$> overlap)) as Hvalid.
  { apply Forall_fmap, Forall_forall. intros record Hin.
    destruct (Hrecords record Hin) as (_ & w & Hw & _). simpl. by eapply lookup_lt_Some. }
  destruct (merge_overlapping_returns area multi_polygon_union polygon_union hw
              (polygons_ water_shp) (polygons_of (pointee stray area_polygons) <$> overlap)
              scheds.2 Hhw Hvalid Hsched2) as [polygons Hmerge].
  rewrite Hmerge. simpl. by eexists.
Qed.

(** X16 ([main], one region: [build_rtree_index], [select_overlap],
    [merge_overlapping]): with at least one hardware thread, under
    schedules that give every worker its steps, and if unions hold the
    points of their arguments and intersecting polygons have
    intersecting envelopes, treating a region comes back with a water
    shapefile that is not shorter, whose index is the one it had (it is
    not rebuilt), and whose polygons hold exactly the points of the
    water polygons before and of the area polygons that intersect some
    water polygon without lying within it. *)
Theorem process_region_updates hw (water_shp : Shapefile Polygon Box)
    (area_polygons : list Polygon) (scheds : list nat * list nat) :
  0 < hw →
  gives_each (size water_shp * (2 * length area_polygons + 2) + 3) 128 scheds.1 →
  gives_each 3 hw scheds.2 →
  ∃ out,
    process_region area multi_polygon_union polygon_union return_envelope box_intersects
      intersects within stray hw water_shp area_polygons scheds = Some out ∧
    rtree_ out = rtree_ water_shp ∧
    size water_shp ≤ size out ∧
    ∀ x, region inside (polygons_ out) x
         ↔ region inside (polygons_ water_shp) x
           ∨ ∃ w a, w ∈ polygons_ water_shp ∧ a ∈ area_polygons ∧
                    intersects w a = true ∧ within a w = false ∧ inside a x.
Proof.
  intros Hhw Hsched1 Hsched2.
  destruct (process_region_returns hw water_shp area_polygons scheds Hhw Hsched1 Hsched2)
    as [out Hout].
  exists out. split; [done|]. by apply (process_region_covers hw _ area_polygons scheds).
Qed.

(** X20 ([main], the loop over the region files): under the same
    assumptions on unions and envelopes, when the loop comes back the
    water shapefile is not shorter and its index is the one it had;
    every point of the water polygons before is still covered, and
    every point covered afterwards was covered before or lies in an
    area polygon of one of the regions. *)
Theorem process_regions_covers hw (water_shp : Shapefile Polygon Box)
    (regions : list (list Polygon * (list nat * list nat))) out :
  process_regions area multi_polygon_union polygon_union return_envelope box_intersects
    intersects within stray hw water_shp regions = Some out →
  rtree_ out = rtree_ water_shp ∧
  size water_shp ≤ size out ∧
  ∀ x, (region inside (polygons_ water_shp) x → region inside (polygons_ out) x) ∧
       (region inside (polygons_ out) x →
        region inside (polygons_ water_shp) x
        ∨ ∃ r a, r ∈ regions ∧ a ∈ r.1 ∧ inside a x).
Proof.
  revert water_shp. induction regions as [|[area_polygons scheds] regions IH];
    intros water_shp; simpl.
  - intros [= <-]. split; [done|]. split; [done|]. intros x. split; [done|by left].
  - destruct (process_region _ _ _ _ _ _ _ _ _ _ _ _) as [water_shp'|] eqn:Hfirst; [|done].
    simpl. intros Hrest.
    apply process_region_covers in Hfirst as (Hrtree & Hsize & Hregion).
    destruct (IH water_shp' Hrest) as (Hrtree' & Hsize' & Hregion').
    split; [congruence|]. split; [lia|]. intros x.
    destruct (Hregion' x) as [Hkeep Hfrom]. split.
    + intros Hx. apply Hkeep, Hregion. by left.
    + intros [Hx|(r & a & Hr & Ha & Hx)]%Hfrom.
      * apply Hregion in Hx as [Hx|(w & a & _ & Ha & _ & _ & Hx)]; [by left|right].
        exists (area_polygons, scheds), a. split; [by left|done].
      * right. exists r, a. split; [by right|done].
Qed.

End Facts.

Import ListQueue.

Lemma cells_envelope_sound (w a : Cells.Polygon) :
  Cells.intersects w a = true →
  Cells.intersects (Cells.envelope a) (Cells.envelope w) = true.
Proof.
  unfold Cells.intersects, Cells.envelope. rewrite !bool_decide_eq_true. set_solver.
Qed.

(** Two water polygons and three area polygons: the first overlaps the
    first water polygon, the second lies within the second water
    polygon, the third is apart. *)
Definition pond : list Cells.Polygon := [{[1; 2]}; {[5]}].

Definition plots : list Cells.Polygon := [{[2; 3]}; {[5]}; {[9]}].

Lemma select_over_built_index_witness :
  NoDup (claimed [(0, [0])]) ∧
  (∀ p, p ∈ claimed [(0, [0])] ↔
     ∃ w a, w ∈ pond ∧ plots !! p = Some a ∧
            Cells.intersects w a = true ∧ Cells.within a w = false) ∧
  (∀ record : nat * list nat, record ∈ [(0, [0])] →
     ∃ w, pond !! record.1 = Some w ∧
       ∀ p, p ∈ record.2 →
         ∃ a, plots !! p = Some a ∧
              Cells.intersects w a = true ∧ Cells.within a w = false) ∧
  ([(0, [0])] = [] ↔
   ∀ w a, w ∈ pond → a ∈ plots → Cells.intersects w a = true → Cells.within a w = true).
Proof.
  apply (select_over_built_index Cells.envelope Cells.intersects Cells.intersects
           Cells.within ∅ cells_envelope_sound 8 pond plots (in_turn 19 128)).
  vm_compute. reflexivity.
Defined.

Lemma process_region_updates_witness :
  ∃ out,
    process_region Cells.area Cells.union Cells.polygon_union Cells.envelope
      Cells.intersects Cells.intersects Cells.within ∅ 2 (MkShapefile pond None) plots
      (in_turn 19 128, in_turn 3 2) = Some out ∧
    rtree_ out = rtree_ (MkShapefile pond None) ∧
    size (MkShapefile pond (None : option (list (Cells.Polygon * nat)))) ≤ size out ∧
    ∀ x, region (λ (p : Cells.Polygon) (x : nat), x ∈ p) (polygons_ out) x
         ↔ region (λ (p : Cells.Polygon) (x : nat), x ∈ p)
             (polygons_ (MkShapefile pond (None : option (list (Cells.Polygon * nat))))) x
           ∨ ∃ w a, w ∈ polygons_ (MkShapefile pond
                                      (None : option (list (Cells.Polygon * nat)))) ∧
                    a ∈ plots ∧
                    Cells.intersects w a = true ∧ Cells.within a w = false ∧ x ∈ a.
Proof.
  apply (process_region_updates Cells.area Cells.union Cells.polygon_union Cells.envelope
           Cells.intersects Cells.intersects Cells.within ∅
           (λ (p : Cells.Polygon) (x : nat), x ∈ p)
           cells_envelope_sound cells_union_region cells_polygon_union_region
           2 (MkShapefile pond None) plots (in_turn 19 128, in_turn 3 2)).
  - lia.
  - apply in_turn_gives_each.
  - apply in_turn_gives_each.
Defined.

Lemma process_regions_covers_witness :
  rtree_ (MkShapefile ([{[1; 2; 3; 4]}; {[5]}] : list (gset nat))
            (None : option (list (Cells.Polygon * nat))))
    = rtree_ (MkShapefile pond None) ∧
  size (MkShapefile pond (None : option (list (Cells.Polygon * nat))))
    ≤ size (MkShapefile ([{[1; 2; 3; 4]}; {[5]}] : list (gset nat))
              (None : option (list (Cells.Polygon * nat)))) ∧
  ∀ x, (region (λ (p : Cells.Polygon) (x : nat), x ∈ p)
          (polygons_ (MkShapefile pond (None : option (list (Cells.Polygon * nat))))) x →
        region (λ (p : Cells.Polygon) (x : nat), x ∈ p)
          (polygons_ (MkShapefile ([{[1; 2; 3; 4]}; {[5]}] : list (gset nat))
                        (None : option (list (Cells.Polygon * nat))))) x) ∧
       (region (λ (p : Cells.Polygon) (x : nat), x ∈ p)
          (polygons_ (MkShapefile ([{[1; 2; 3; 4]}; {[5]}] : list (gset nat))
                        (None : option (list (Cells.Polygon * nat))))) x →
        region (λ (p : Cells.Polygon) (x : nat), x ∈ p)
          (polygons_ (MkShapefile pond (None : option (list (Cells.Polygon * nat))))) x
        ∨ ∃ (r : list Cells.Polygon * (list nat * list nat)) a,
            r ∈ [(plots, (in_turn 19 128, in_turn 3 2));
                 (([{[3; 4]}] : list (gset nat)), (in_turn 11 128, in_turn 3 2))] ∧
            a ∈ r.1 ∧ x ∈ a).
Proof.
  apply (process_regions_covers Cells.area Cells.union Cells.polygon_union Cells.envelope
           Cells.intersects Cells.intersects Cells.within ∅
           (λ (p : Cells.Polygon) (x : nat), x ∈ p)
           cells_envelope_sound cells_union_region cells_polygon_union_region
           2 (MkShapefile pond None)
           [(plots, (in_turn 19 128, in_turn 3 2));
            (([{[3; 4]}] : list (gset nat)), (in_turn 11 128, in_turn 3 2))]).
  vm_compute. reflexivity.
Defined.

Example process_region_cells :
  polygons_ <$> process_region Cells.area Cells.union Cells.polygon_union Cells.envelope
    Cells.intersects Cells.intersects Cells.within ∅ 2 (MkShapefile pond None) plots
    (in_turn 19 128, in_turn 3 2)
  = Some [{[1; 2; 3]}; {[5]}].
Proof. vm_compute. reflexivity. Qed.

End PipelineFacts.

(** ** More on merge_overlapping *)

Module MergeMore.
Import ParallelFor Executor Cascade Merge ParallelForFacts ListFacts ExecutorFacts MergeFacts.
Import SelectFacts.

Section Facts.
Context {Polygon : Type}.
Variable area : list Polygon → Q.
Variable multi_polygon_union : list Polygon → list Polygon → list Polygon.
Context `{PQ : !PriorityQueue area}.
Variable polygon_union : Polygon → Polygon → list Polygon.

Abbreviation OverlapRecord := (nat * list Polygon)%type.
Abbreviation reduce := (cascade_union area multi_polygon_union).
Abbreviation items := (apply_items polygon_union).
Abbreviation mstep := (merge_step area multi_polygon_union polygon_union).
Abbreviation merge := (merge_overlapping area multi_polygon_union polygon_union).
Abbreviation mstate := (state (list Polygon * list Polygon) (merge_pc Polygon) Empty_set).

(** X17 ([merge_overlapping]): when no two records name the same base
    polygon (which [select_overlap] guarantees), the schedule and the
    number of threads do not matter for the base polygons: two runs
    leave the same polygon in every slot, and append the same polygons
    after them, possibly in another order. *)
Theorem merge_schedule_independent hw hw' water overlap sched sched' result result' :
  NoDup overlap.*1 →
  merge hw water overlap sched = Some result →
  merge hw' water overlap sched' = Some result' →
  take (length water) result = take (length water) result' ∧
  drop (length water) result ≡ₚ drop (length water) result' ∧
  result ≡ₚ result'.
Proof.
  intros Hnd (base1 & queued1 & -> & Hlen1 & Hframe1 & Hrec1)%merge_overlapping_slots
             (base2 & queued2 & -> & Hlen2 & Hframe2 & Hrec2)%merge_overlapping_slots.
  destruct (Hrec1 Hnd) as [Hq1 Hslot1]. destruct (Hrec2 Hnd) as [Hq2 Hslot2].
  assert (base1 = base2) as <-.
  { apply list_eq. intros j. destruct (decide (j ∈ overlap.*1)) as [Hin|Hout].
    - apply list_elem_of_fmap in Hin as (record & -> & Hin).
      by rewrite Hslot1, Hslot2.
    - by rewrite Hframe1, Hframe2. }
  rewrite <- Hlen1, !take_app_length, !drop_app_length.
  split; [done|]. split; [by rewrite Hq1, Hq2|]. by rewrite Hq1, Hq2.
Qed.

(** *** A record that names no base polygon *)

Lemma apply_items_length its : ∀ water extra water' extra',
  items (water, extra) its = Some (water', extra') →
  length water' = length water ∧
  Forall (λ item : OverlapRecord, item.1 < length water) its.
Proof.
  induction its as [|item its IH]; intros water extra water' extra'; simpl.
  - intros [= <- <-]. by split.
  - destruct (water !! item.1) as [w|] eqn:Hw; [|done]. simpl.
    destruct (head item.2) as [front|]; [|done]. simpl.
    apply lookup_lt_Some in Hw.
    destruct (polygon_union w front) as [|piece pieces]; intros [Hlen Hall]%IH.
    + split; [done|]. by constructor.
    + rewrite length_insert in Hlen, Hall. split; [done|]. by constructor.
Qed.

Lemma elem_of_slice (overlap : list OverlapRecord) k record i0 count :
  overlap !! k = Some record → i0 ≤ k < i0 + count → record ∈ slice overlap i0 count.
Proof.
  intros Hk Hrange. unfold slice. apply list_elem_of_omap. exists k.
  split; [|done]. apply elem_of_seq. lia.
Qed.

Lemma elem_of_kept (rs : list OverlapRecord) record :
  record ∈ rs → reduce record.2 ≠ [] → (record.1, reduce record.2) ∈ kept area multi_polygon_union rs.
Proof.
  intros Hin Hne. unfold kept. apply list_elem_of_omap. exists record.
  split; [done|]. by destruct (reduce record.2).
Qed.

(** The thread that has the record in its range cannot finish. *)
Definition stuck (water : list Polygon) (k : nat) (t : thread (merge_pc Polygon) Empty_set)
    : Prop :=
  match t with
  | Work (MergeEnter i0 i1) => i0 ≤ k < i1
  | Work (MergeLocked unioned_polygons) =>
      ∃ item : OverlapRecord, item ∈ unioned_polygons ∧ length water ≤ item.1
  | Broken => True
  | _ => False
  end.

Definition stuck_inv (water : list Polygon) (k : nat) (c : mstate) : Prop :=
  length (shared c).1 = length water ∧
  ∃ j t, threads c !! j = Some t ∧ stuck water k t.

Lemma stuck_inv_step water overlap k record i c :
  overlap !! k = Some record → length water ≤ record.1 → reduce record.2 ≠ [] →
  stuck_inv water k c → stuck_inv water k (Executor.step (mstep overlap) i c).
Proof.
  intros Hk Hout Hne (Hlen & j & t & Hj & Hstuck). unfold Executor.step.
  destruct (threads c !! i) as [[[i0 i1|unioned_polygons]|[]|r|]|] eqn:Hi;
    try (split; [done|]; by exists j, t).
  - simpl. unfold merge_overlapping_range.
    destruct (merge_loop _ _ _ _ _ _) as [u|] eqn:Hloop; (split; [done|]); simpl.
    + destruct (decide (j = i)) as [->|Hne'].
      * exists i, (Work (MergeLocked u)). split.
        { apply list_lookup_insert_eq. by eapply lookup_lt_Some. }
        rewrite Hi in Hj. injection Hj as <-. simpl in Hstuck.
        apply merge_loop_spec in Hloop. simpl in Hloop. subst u. simpl.
        exists (record.1, reduce record.2). split; [|done].
        apply elem_of_kept; [|done]. apply (elem_of_slice overlap k); [done|lia].
      * exists j, t. by rewrite list_lookup_insert_ne.
    + destruct (decide (j = i)) as [->|Hne'].
      * exists i, Broken. split; [|done].
        apply list_lookup_insert_eq. by eapply lookup_lt_Some.
      * exists j, t. by rewrite list_lookup_insert_ne.
  - simpl. destruct (shared c) as [wp ep] eqn:Hsh.
    destruct (items (wp, ep) unioned_polygons) as [[wp' ep']|] eqn:Hitems; simpl.
    + apply apply_items_length in Hitems as [Hlen' Hvalid]. simpl in Hlen.
      split; [simpl; congruence|]. simpl.
      destruct (decide (j = i)) as [->|Hne'].
      * rewrite Hi in Hj. injection Hj as <-. simpl in Hstuck.
        destruct Hstuck as (item & Hin & Hbad). rewrite Forall_forall in Hvalid.
        specialize (Hvalid item Hin). lia.
      * exists j, t. by rewrite list_lookup_insert_ne.
    + split; [done|]. simpl. destruct (decide (j = i)) as [->|Hne'].
      * exists i, Broken. split; [|done].
        apply list_lookup_insert_eq. by eapply lookup_lt_Some.
      * exists j, t. by rewrite list_lookup_insert_ne.
Qed.

(** X18 ([merge_overlapping], the worker's [water_polygons[item.first]]):
    a record whose polygons do not reduce to nothing and whose index is
    not that of a base polygon makes the worker that gets it read past
    the end of the base collection; whatever the schedule and the other
    records, such a call has no defined result.  So has a call with
    more than one record when the number of hardware threads is
    reported as 0, which divides by it. *)
Theorem merge_overlapping_out_of_range hw water overlap sched :
  (∀ record, record ∈ overlap → length water ≤ record.1 → reduce record.2 ≠ [] →
     merge hw water overlap sched = None) ∧
  (hw = 0 → 1 < length overlap → merge hw water overlap sched = None).
Proof.
  split.
  - intros record [k Hk]%list_elem_of_lookup Hout Hne.
    unfold merge_overlapping, parallel_for, parallel_for_state.
    destruct (ranges_of _) as [ranges|] eqn:Hplan; [|done]. simpl.
    destruct (joined _) eqn:Hjoined; [|done]. exfalso.
    apply plan_ranges in Hplan as (Hcover & _ & _).
    destruct (covered_index ranges (length overlap) k Hcover) as (j & r & Hr & Hrange).
    { by eapply lookup_lt_Some. }
    set (c0 := spawn MergeEnter (water, []) ranges : mstate) in *.
    assert (stuck_inv water k c0) as Hinit.
    { split; [done|]. exists j, (Work (MergeEnter r.1 r.2)). split; [|done].
      unfold c0. simpl. by rewrite list_lookup_fmap, Hr. }
    pose proof (exec_invariant (mstep overlap) (stuck_inv water k)
                  (λ i c, stuck_inv_step water overlap k record i c Hk Hout Hne)
                  sched c0 Hinit) as (_ & j' & t & Hj' & Hstuck).
    apply joined_Forall in Hjoined. rewrite Forall_forall in Hjoined.
    destruct (Hjoined t) as [o ->]; [by eapply list_elem_of_lookup_2|]. done.
  - intros -> Hmany. unfold merge_overlapping, parallel_for, parallel_for_state.
    unfold schedule_plan. simpl.
    destruct (Nat.leb_spec (length overlap) 1); [lia|]. done.
Qed.

End Facts.

Import ListQueue.

Lemma merge_schedule_independent_witness :
  take (length [(0, 4); (10, 12)]%Z) [(0, 8); (10, 12); (20, 21)]%Z
    = take (length [(0, 4); (10, 12)]%Z) [(0, 8); (10, 12); (20, 21)]%Z ∧
  drop (length [(0, 4); (10, 12)]%Z) [(0, 8); (10, 12); (20, 21)]%Z
    ≡ₚ drop (length [(0, 4); (10, 12)]%Z) [(0, 8); (10, 12); (20, 21)]%Z ∧
  [(0, 8); (10, 12); (20, 21)]%Z ≡ₚ [(0, 8); (10, 12); (20, 21)]%Z.
Proof.
  apply (merge_schedule_independent Line.area Line.union Line.polygon_union 2 1
           [(0, 4); (10, 12)]%Z [(0, [(3, 6); (5, 8)]%Z); (1, [(20, 21)]%Z)]
           (in_turn 3 2) (in_turn 3 1)).
  - repeat constructor; set_solver.
  - vm_compute. reflexivity.
  - vm_compute. reflexivity.
Defined.

Lemma merge_overlapping_out_of_range_witness :
  merge_overlapping Line.area Line.union Line.polygon_union 2
    [(0, 4)]%Z [(0, [(3, 6)]%Z); (5, [(20, 21)]%Z)] (in_turn 3 2) = None.
Proof.
  destruct (merge_overlapping_out_of_range Line.area Line.union Line.polygon_union 2
              [(0, 4)]%Z [(0, [(3, 6)]%Z); (5, [(20, 21)]%Z)] (in_turn 3 2)) as [H _].
  apply (H (5, [(20, 21)]%Z)).
  - right. left.
  - simpl. lia.
  - vm_compute. discriminate.
Defined.

End MergeMore.

(** ** MutexProtectedSet *)

Module SetFacts.
Import Select.

(** The values of a list inserted one after the other, by whichever
    threads ([insert] holds the mutex): the set at the end and what
    each call returned. *)
Fixpoint insert_each (filtered_polygons : gset nat) (values : list nat)
    : gset nat * list bool :=
  match values with
  | [] => (filtered_polygons, [])
  | value :: values' =>
      let '(filtered_polygons', inserted) := insert filtered_polygons value in
      let '(final, flags) := insert_each filtered_polygons' values' in
      (final, inserted :: flags)
  end.

Lemma insert_each_cons s value values :
  insert_each s (value :: values)
    = ((insert_each (insert s value).1 values).1,
       (insert s value).2 :: (insert_each (insert s value).1 values).2).
Proof.
  simpl. destruct (insert s value) as [s' inserted]. simpl.
  by destruct (insert_each s' values).
Qed.

Lemma insert_fields (s : gset nat) value :
  (insert s value).1 = {[value]} ∪ s ∧ ((insert s value).2 = true ↔ value ∉ s).
Proof.
  unfold insert. case_bool_decide as Hin; simpl.
  - split; [set_solver|]. split; [done|]. intros Hn. by destruct Hn.
  - by split.
Qed.

(** X19 ([MutexProtectedSet::insert], [contains]): of any sequence of
    calls to [insert], the ones that report an insertion are, for each
    value that was not in the set before, the first call with that
    value, and no other; afterwards the set contains what it contained
    and the values inserted. *)
Theorem insert_wins_once (s : gset nat) (values : list nat) :
  (insert_each s values).1 = list_to_set values ∪ s ∧
  length (insert_each s values).2 = length values ∧
  (∀ v, contains (insert_each s values).1 v = contains s v || bool_decide (v ∈ values)) ∧
  (∀ i v, values !! i = Some v →
     ((insert_each s values).2 !! i = Some true ↔ (v ∉ s) ∧ v ∉ take i values)).
Proof.
  assert ((insert_each s values).1 = list_to_set values ∪ s ∧
          length (insert_each s values).2 = length values ∧
          (∀ i v, values !! i = Some v →
             ((insert_each s values).2 !! i = Some true ↔ (v ∉ s) ∧ v ∉ take i values)))
    as (Hset & Hlen & Hflags).
  { revert s. induction values as [|value values IH]; intros s.
    - simpl. split; [set_solver|]. split; [done|]. by intros i v ?.
    - rewrite insert_each_cons. simpl.
      destruct (insert_fields s value) as [Hs' Hins].
      destruct (IH (insert s value).1) as (Hset & Hlen & Hflags).
      split; [rewrite Hset, Hs'; set_solver|]. split; [by rewrite Hlen|].
      intros [|i] v Hv; simpl in *.
      + injection Hv as ->. split.
        * intros [= Ht]. split; [by apply Hins|]. by intros ?%elem_of_nil.
        * intros [Hn _]. f_equal. by apply Hins.
      + rewrite (Hflags i v Hv), Hs'. rewrite not_elem_of_cons. set_solver. }
  split; [done|]. split; [done|]. split; [|done].
  intros v. unfold contains. rewrite Hset.
  destruct (decide (v ∈ s)) as [Hs|Hs], (decide (v ∈ values)) as [Hv|Hv].
  - rewrite !bool_decide_eq_true_2; [done..|set_solver].
  - rewrite bool_decide_eq_true_2, (bool_decide_eq_true_2 (v ∈ s)); [done..|set_solver].
  - rewrite bool_decide_eq_true_2, (bool_decide_eq_false_2 (v ∈ s)),
      (bool_decide_eq_true_2 (v ∈ values)); [done..|set_solver].
  - rewrite !bool_decide_eq_false_2; [done..|set_solver].
Qed.

Lemma insert_wins_once_witness :
  (insert_each ∅ [3; 3]).2 !! 1 = Some true ↔ (3 ∉ (∅ : gset nat)) ∧ 3 ∉ take 1 [3; 3].
Proof.
  destruct (insert_wins_once ∅ [3; 3]) as (_ & _ & _ & H).
  apply (H 1 3). reflexivity.
Defined.

End SetFacts.
